(** * rust-image-processor: the Python batch scripts

    A shallow embedding of the three scripts under [src/python]:

    - [py_jpeg_converter/main.py]      (module [Converter]),
    - [scripts/jpeg_compressor/main.py] (module [Compressor]),
    - [scripts/jpeg_counter/main.py]    (module [Counter]),

    over a small model of the parts of [pathlib], the file system, [logging]
    and Pillow that they call.

    Modelling choices, fixed once for the whole development:

    - a path is the list of its components from the file-system root; it is
      absolute and already resolved (no [..], no symbolic links);
    - the file system is a finite map from paths to nodes (directory or
      regular file with its bytes); permissions, quotas and concurrent
      writers are outside the model;
    - a file name is a string of bytes, and [str.lower] acts on the ASCII
      letters only (no other character lower-cases to one of [.jpeg]);
    - the log is the list of records emitted, oldest first; every format
      string of the sources is one constructor of [message] that carries the
      interpolated values;
    - Pillow is a parameter (class [Codec]); the order in which the operating
      system enumerates a directory tree is a parameter too (class [Walk]). *)

From Stdlib Require Import Ascii String Sorting.Sorted.
From stdpp Require Import gmap strings list fin_maps pretty sorting.


(** ** Strings: the pieces of [str] and [pathlib.PurePath] in use *)

Abbreviation path := (list string).

(** [str.lower], on bytes. *)
Definition lower_ascii (c : ascii) : ascii :=
  let n := nat_of_ascii c in
  if (65 <=? n)%nat && (n <=? 90)%nat then ascii_of_nat (n + 32) else c.

Fixpoint lower (s : string) : string :=
  match s with
  | EmptyString => EmptyString
  | String c s' => String (lower_ascii c) (lower s')
  end.

(** [str.rfind] for a one-character needle: the highest index, if any. *)
Fixpoint rfind (c : ascii) (s : string) : option nat :=
  match s with
  | EmptyString => None
  | String a s' =>
      match rfind c s' with
      | Some i => Some (S i)
      | None => if Ascii.eqb a c then Some 0 else None
      end
  end.

(** [PurePath.suffix] and [PurePath.stem] of a final component:
<<
    i = name.rfind('.')
    if 0 < i < len(name) - 1: return name[i:]      (stem: name[:i])
    else:                     return ''            (stem: name)
>> *)
Definition suffix (name : string) : string :=
  match rfind "." name with
  | Some i =>
      if (0 <? i)%nat && (i <? String.length name - 1)%nat
      then substring i (String.length name - i) name
      else ""
  | None => ""
  end.

Definition stem (name : string) : string :=
  match rfind "." name with
  | Some i =>
      if (0 <? i)%nat && (i <? String.length name - 1)%nat
      then substring 0 i name
      else name
  | None => name
  end.

(** [PurePath.name]: the final component (empty for the root). *)
Definition name (p : path) : string := default "" (last p).

(** [PurePath.parent]; the root is its own parent. *)
Definition parent (p : path) : path := take (length p - 1) p.

(** [PurePath.relative_to]: [None] stands for the [ValueError] raised when
    [root] is not a prefix of [p]. *)
Fixpoint relative_to (p root : path) : option path :=
  match root, p with
  | [], _ => Some p
  | r :: root', x :: p' => if String.eqb r x then relative_to p' root' else None
  | _ :: _, [] => None
  end.

(** The test shared by the three scripts,
    [file_path.suffix.lower() in (".jpg", ".jpeg")]. *)
Definition is_jpeg_name (p : path) : bool :=
  existsb (String.eqb (lower (suffix (name p)))) [".jpg"; ".jpeg"].


(** ** Exceptions, file system, log, state *)

Inductive exn :=
  | FileNotFoundError
  | FileExistsError
  | NotADirectoryError
  | IsADirectoryError
  | ValueError
  | KeyError
  | ZeroDivisionError
  | UnidentifiedImageError
  | CodecError (what : string).

Abbreviation content := (list Byte.byte).

Inductive node :=
  | Dir
  | File (data : content).

Definition is_dir (σ : gmap path node) (p : path) : bool :=
  match σ !! p with Some Dir => true | _ => false end.

Definition is_file (σ : gmap path node) (p : path) : bool :=
  match σ !! p with Some (File _) => true | _ => false end.

Definition exists_ (σ : gmap path node) (p : path) : bool :=
  match σ !! p with Some _ => true | None => false end.

Inductive level := INFO | WARNING | ERROR.

(** One constructor per log call of the sources; the comment gives the script
    and the line. *)
Inductive message :=
  (* py_jpeg_converter/main.py *)
  | Skip_not_jpeg (file_path : path)                          (* 85 *)
  | File_detected (file_path : path) (fmt : option string)    (* 96 *)
  | Saved_as_jpeg (output_file : path)                        (* 100 *)
  | Err_unrecognized (file_path : path)                       (* 104 *)
  | Exc (e : exn)                                             (* 105, 109 *)
  | Err_processing (file_path : path) (e : exn)               (* 108 *)
  | Notice_heif | Notice_install | Started | Finished         (* 115-122 *)
  (* scripts/jpeg_compressor/main.py *)
  | Dir_skipped (file_path : path)                            (* 44 *)
  | Not_jpeg (file_path : path)                               (* 56 *)
  | Compressed (file_path output_file_path : path)
               (original_size compressed_size : nat)          (* 71 *)
  | Err_handling (file_path : path) (e : exn)                 (* 77 *)
  | Input_missing (input_path : path)                         (* 90 *)
  | Output_exists (output_path : path)                        (* 104 *)
  | Input_dir (input_path : path)                             (* 109 *)
  | Output_dir (output_path : path)                           (* 110 *)
  | Quality (quality : Z)                                     (* 111 *)
  | Cancelled                                                 (* 114 *)
  | Compress_done                                             (* 118 *)
  (* scripts/jpeg_counter/main.py *)
  | Analysis_start (input_path : path)                        (* 39 *)
  | Dir_missing (input_path : path)                           (* 42 *)
  | Result_header                                             (* 66 *)
  | Analysed_dir (input_path : path)                          (* 67 *)
  | Total_jpeg (n : nat)                                      (* 68 *)
  | Unique_names (n : nat)                                    (* 69 *)
  | Duplicate_names (n : nat)                                 (* 70 *)
  | Processing_time                                           (* 73 *)
  | Duplicate_list_header                                     (* 81 *)
  | Duplicate_detail_header                                   (* 100 *)
  | Duplicate_entry (name : string) (count : nat)             (* 102 *)
  | Duplicate_path (p : path)                                 (* 104 *)
  | Duplicate_total (n : nat)                                 (* 106 *)
  | Count_done.                                               (* 108 *)

(** A log record: level, message, and whether the call passed
    [exc_info=True] (the record then carries the traceback). *)
Record log_record := LogRecord {
  lvl : level;
  msg : message;
  exc_info : bool
}.

(** A row of the table of [jpeg_counter]: name, count, all paths. *)
Abbreviation table_row := (string * nat * list path)%type.

(** The state the scripts act on.  [open_files] lists the source files whose
    handle, obtained by [Image.open], neither the script nor the library has
    closed; what the interpreter releases later, when the last reference to
    an image is gone, is not followed. *)
Record state := State {
  fs : gmap path node;
  log : list log_record;
  open_files : list path;
  console : list (list table_row)
}.

Definition set_fs (σ : gmap path node) (s : state) : state :=
  State σ (log s) (open_files s) (console s).

(** ** A state and exception monad

    A Python statement maps a state to a state and either a value or a raised
    exception; the state reached when an exception is raised is kept. *)

Inductive outcome (A : Type) :=
  | Return (a : A)
  | Raise (e : exn).
Arguments Return {A} a.
Arguments Raise {A} e.

Definition M (A : Type) : Type := state -> outcome A * state.

Definition ret {A} (a : A) : M A := fun s => (Return a, s).

Definition raise {A} (e : exn) : M A := fun s => (Raise e, s).

Definition bind {A B} (m : M A) (k : A -> M B) : M B := fun s =>
  match m s with
  | (Return a, s') => k a s'
  | (Raise e, s') => (Raise e, s')
  end.

Declare Scope M_scope.
Delimit Scope M_scope with M.
Bind Scope M_scope with M.
Notation "x <- m ;; k" := (bind m (fun x => k))
  (at level 20, m at level 99, k at level 200) : M_scope.
Notation "m ;; k" := (bind m (fun _ => k))
  (at level 100, k at level 200, right associativity) : M_scope.
Open Scope M_scope.

(** [try: body except Exception as e: handler e]. *)
Definition try_except {A} (body : M A) (handler : exn -> M A) : M A := fun s =>
  match body s with
  | (Raise e, s') => handler e s'
  | r => r
  end.

(** [for x in l: body x]; [continue] is the end of [body]. *)
Fixpoint for_each {A} (l : list A) (body : A -> M unit) : M unit :=
  match l with
  | [] => ret tt
  | x :: l' => body x ;; for_each l' body
  end.

Definition emit (r : log_record) : M unit := fun s =>
  (Return tt, State (fs s) (log s ++ [r]) (open_files s) (console s)).

Definition info (m : message) : M unit := emit (LogRecord INFO m false).
Definition warning (m : message) : M unit := emit (LogRecord WARNING m false).
Definition error (m : message) : M unit := emit (LogRecord ERROR m false).
(** [logger.error(..., exc_info=True)]. *)
Definition error_exc (m : message) : M unit := emit (LogRecord ERROR m true).

Definition console_print (t : list table_row) : M unit := fun s =>
  (Return tt, State (fs s) (log s) (open_files s) (console s ++ [t])).

(** ** [pathlib.Path]: queries and [mkdir] *)

Definition path_exists (p : path) : M bool := fun s => (Return (exists_ (fs s) p), s).
Definition path_is_dir (p : path) : M bool := fun s => (Return (is_dir (fs s) p), s).
Definition path_is_file (p : path) : M bool := fun s => (Return (is_file (fs s) p), s).

Definition path_relative_to (p root : path) : M path :=
  match relative_to p root with
  | Some rel => ret rel
  | None => raise ValueError
  end.

(** [Path.stat().st_size].  The size of a directory depends on the file
    system; the scripts call this on regular files only. *)
Definition stat_size (p : path) : M nat := fun s =>
  match fs s !! p with
  | Some (File data) => (Return (length data), s)
  | Some Dir => (Return 0, s)
  | None => (Raise FileNotFoundError, s)
  end.

(** [os.mkdir]. *)
Definition os_mkdir (p : path) : M unit := fun s =>
  match fs s !! p with
  | Some _ => (Raise FileExistsError, s)
  | None =>
      match fs s !! parent p with
      | Some Dir => (Return tt, set_fs (<[p := Dir]> (fs s)) s)
      | Some (File _) => (Raise NotADirectoryError, s)
      | None => (Raise FileNotFoundError, s)
      end
  end.

(** [Path.mkdir(parents=False, exist_ok=True)]:
<<
    try: os.mkdir(self)
    except FileNotFoundError: raise
    except OSError:
        if not self.is_dir(): raise
>> *)
Definition mkdir_exist_ok (p : path) : M unit :=
  try_except (os_mkdir p) (fun e =>
    match e with
    | FileNotFoundError => raise e
    | _ => d <- path_is_dir p ;; if d then ret tt else raise e
    end).

(** [Path.mkdir(parents=True, exist_ok=True)], by recursion on the reversed
    path [rp] (so that the parent is the tail):
<<
    try: os.mkdir(self)
    except FileNotFoundError:
        if self.parent == self: raise
        self.parent.mkdir(parents=True, exist_ok=True)
        self.mkdir(parents=False, exist_ok=True)
    except OSError:
        if not self.is_dir(): raise
>> *)
Fixpoint mkdir_parents_rev (rp : path) : M unit :=
  let p := rev rp in
  try_except (os_mkdir p) (fun e =>
    match e with
    | FileNotFoundError =>
        match rp with
        | [] => raise e
        | _ :: rparent => mkdir_parents_rev rparent ;; mkdir_exist_ok p
        end
    | _ => d <- path_is_dir p ;; if d then ret tt else raise e
    end).

Definition mkdir_parents (p : path) : M unit := mkdir_parents_rev (rev p).

(** ** Pillow, as far as the scripts use it *)

(** The keyword arguments of [img.save(path, "JPEG", ...)]. *)
Record save_options := SaveOptions {
  quality : Z;
  subsampling : option Z;
  optimize : bool
}.

(** What [img.save] does with an opened image: [save] first loads (decodes)
    the source, then opens the destination and runs the encoder. *)
Inductive save_outcome :=
  | Encoded (data : content)
  | DecodeFailed (e : exn)                     (* destination not opened *)
  | EncodeFailed (e : exn) (partial : content) (* raised after opening it *).

Class Codec := {
  image : Type;
  (** [Image.open]: identify the format from the content, lazily; raises
      [UnidentifiedImageError] when no format matches. *)
  pil_open : content -> exn + image;
  (** [img.format]. *)
  pil_format : image -> option string;
  pil_save : image -> save_options -> save_outcome;
  (** Whether the library itself has closed the source file object when
      [img.save] returns or raises (it does so at the end of a complete load
      of a single-frame file, and not when the load raises half way). *)
  pil_save_closes : image -> save_options -> bool
}.

(** The enumeration [Path.glob("**/*")] (the same as [Path.rglob("*")]): every
    entry below [root], in the order the operating system yields them. *)
Class Walk := glob_all : gmap path node -> path -> list path.

Section Pillow.
Context `{Codec}.

(** The object bound to [img]: the decoded header and the source file whose
    handle it holds. *)
Record opened_image := Opened { im : image; fp : path }.

Definition close_file (p : path) (s : state) : state :=
  State (fs s) (log s) (filter (fun q => negb (bool_decide (q = p))) (open_files s))
        (console s).

(** [Image.open(file_path)]: on success the handle of [file_path] stays
    open; on failure the library has closed it. *)
Definition image_open (file_path : path) : M opened_image := fun s =>
  match fs s !! file_path with
  | None => (Raise FileNotFoundError, s)
  | Some Dir => (Raise IsADirectoryError, s)
  | Some (File data) =>
      match pil_open data with
      | inl e => (Raise e, s)
      | inr i =>
          (Return (Opened i file_path),
           State (fs s) (log s) (open_files s ++ [file_path]) (console s))
      end
  end.

(** [open(dest, "w+b")] as [img.save] does it: the error, if any. *)
Definition open_for_writing (σ : gmap path node) (dest : path) : option exn :=
  match σ !! dest with
  | Some Dir => Some IsADirectoryError
  | Some (File _) => None
  | None =>
      match σ !! parent dest with
      | Some Dir => None
      | Some (File _) => Some NotADirectoryError
      | None => Some FileNotFoundError
      end
  end.

(** [img.save(dest, "JPEG", **opts)].  When the encoder raises, Pillow
    removes the destination if the call created it and leaves the partial
    bytes otherwise. *)
Definition image_save (img : opened_image) (dest : path) (opts : save_options)
  : M unit := fun s =>
  let s1 := if pil_save_closes (im img) opts then close_file (fp img) s else s in
  match pil_save (im img) opts with
  | DecodeFailed e => (Raise e, s1)
  | Encoded data =>
      match open_for_writing (fs s1) dest with
      | Some e => (Raise e, s1)
      | None => (Return tt, set_fs (<[dest := File data]> (fs s1)) s1)
      end
  | EncodeFailed e partial =>
      match open_for_writing (fs s1) dest with
      | Some e' => (Raise e', s1)
      | None =>
          (Raise e,
           if exists_ (fs s1) dest
           then set_fs (<[dest := File partial]> (fs s1)) s1
           else s1)
      end
  end.

(** [with Image.open(file_path) as img: body]: [img.close()] runs on every
    way out of [body]. *)
Definition with_image_open {A} (file_path : path) (body : opened_image -> M A)
  : M A :=
  img <- image_open file_path ;;
  fun s => let '(r, s') := body img s in (r, close_file (fp img) s').
End Pillow.

(** ** py_jpeg_converter/main.py *)

Module Converter.
Section Script.
Context `{Codec} `{Walk}.
(** The module constants, resolved. *)
Variables INPUT_DIR OUTPUT_DIR : path.

(** [img.save(output_file, format="JPEG", quality=100, subsampling=0)]. *)
Definition options : save_options := SaveOptions 100 (Some 0%Z) false.

(** Lines 92-100: the body of the [try] statement. *)
Definition try_body (file_path output_file : path) : M unit :=
  img <- image_open file_path ;;
  info (File_detected file_path (pil_format (im img))) ;;
  image_save img output_file options ;;
  info (Saved_as_jpeg output_file).

(** Lines 102-109: the two [except] clauses. *)
Definition on_error (file_path : path) (e : exn) : M unit :=
  match e with
  | UnidentifiedImageError =>
      error (Err_unrecognized file_path) ;;
      error_exc (Exc e)
  | _ =>
      error (Err_processing file_path e) ;;
      error_exc (Exc e)
  end.

(** Lines 91-109: the [try] statement for one JPEG-named file. *)
Definition transcode (file_path output_file : path) : M unit :=
  try_except (try_body file_path output_file) (on_error file_path).

(** Lines 74-109: the body of the loop. *)
Definition process_entry (input_path output_path file_path : path) : M unit :=
  relative_path <- path_relative_to file_path input_path ;;
  let output_file := output_path ++ relative_path in
  d <- path_is_dir file_path ;;
  if d then mkdir_parents output_file
  else if negb (is_jpeg_name file_path)
  then info (Skip_not_jpeg file_path)
  else
    mkdir_parents (parent output_file) ;;
    transcode file_path output_file.

Definition process_jpeg_files : M unit :=
  let input_path := INPUT_DIR in
  let output_path := OUTPUT_DIR in
  ex <- path_exists input_path ;;
  if negb ex then raise FileNotFoundError
  else
    mkdir_parents output_path ;;
    filepaths <- (fun s => (Return (glob_all (fs s) input_path), s)) ;;
    for_each filepaths (process_entry input_path output_path).

Definition main : M unit :=
  info Notice_heif ;;
  info Notice_install ;;
  info Started ;;
  process_jpeg_files ;;
  info Finished.
End Script.
End Converter.

(** ** scripts/jpeg_compressor/main.py *)

Module Compressor.
Section Script.
Context `{Codec} `{Walk}.
(** [module_dir], resolved, and [datetime_str], fixed when the module is
    loaded. *)
Variable module_dir : path.
Variable datetime_str : string.

(** [img.save(output_file_path, "JPEG", quality=quality, optimize=True)]. *)
Definition options (quality : Z) : save_options := SaveOptions quality None true.

(** Lines 60-75: the body of the [try] statement.  The ratio
    [compressed_size / original_size * 100] raises [ZeroDivisionError] for
    an empty source. *)
Definition try_body (file_path output_file_path : path) (quality : Z) : M unit :=
  original_size <- stat_size file_path ;;
  with_image_open file_path (fun img =>
    image_save img output_file_path (options quality) ;;
    compressed_size <- stat_size output_file_path ;;
    if (original_size =? 0)%nat then raise ZeroDivisionError
    else info (Compressed file_path output_file_path
                 original_size compressed_size)).

(** Lines 76-77: the [except] clause. *)
Definition on_error (file_path : path) (e : exn) : M unit :=
  error_exc (Err_handling file_path e).

(** Lines 59-77: the [try] statement for one JPEG-named file. *)
Definition transcode (file_path output_file_path : path) (quality : Z) : M unit :=
  try_except (try_body file_path output_file_path quality) (on_error file_path).

(** Lines 42-77: the body of the loop. *)
Definition process_entry (input_path output_path : path) (quality : Z)
    (file_path : path) : M unit :=
  d <- path_is_dir file_path ;;
  if d then info (Dir_skipped file_path)
  else
    relative_path <- path_relative_to file_path input_path ;;
    let output_file_path := output_path ++ relative_path in
    mkdir_parents (parent output_file_path) ;;
    if negb (is_jpeg_name file_path)
    then warning (Not_jpeg file_path)
    else transcode file_path output_file_path quality.

Definition compress_jpeg (input_path output_path : path) (quality : Z) : M unit :=
  mkdir_parents output_path ;;
  target_path <- (fun s => (Return (glob_all (fs s) input_path), s)) ;;
  for_each target_path (process_entry input_path output_path quality).

(** The generated output root,
    [module_dir / "output" / "compressed" / f"{datetime_str}_{input_dirname}_{quality}"]. *)
Definition output_root (input_path : path) (quality : Z) : path :=
  module_dir ++ ["output"; "compressed";
                 datetime_str +:+ "_" +:+ name input_path +:+ "_" +:+ pretty quality].

(** [main]; [input_directory] is given resolved and [answer] is the line
    read by [input(...)]. *)
Definition main (input_directory : path) (quality : Z) (answer : string) : M unit :=
  let input_path := input_directory in
  ex <- path_exists input_path ;;
  if negb ex then error (Input_missing input_path)
  else
    let output_path := output_root input_path quality in
    ex' <- path_exists output_path ;;
    if ex' then warning (Output_exists output_path)
    else
      info (Input_dir input_path) ;;
      info (Output_dir output_path) ;;
      info (Quality quality) ;;
      if negb (String.eqb (lower answer) "y") then info Cancelled
      else
        compress_jpeg input_path output_path quality ;;
        info Compress_done.
End Script.
End Compressor.

(** ** scripts/jpeg_counter/main.py *)

Module Counter.
Section Script.
Context `{Walk}.

(** [collections.Counter]: a dict, so an association list in insertion
    order; [c[k] += 1] keeps the position of a key that is present. *)
Fixpoint counter_add (k : string) (c : list (string * nat)) : list (string * nat) :=
  match c with
  | [] => [(k, 1)]
  | (k', n) :: c' =>
      if String.eqb k' k then (k', S n) :: c' else (k', n) :: counter_add k c'
  end.

Definition counter_of (keys : list string) : list (string * nat) :=
  foldl (fun c k => counter_add k c) [] keys.

(** [Counter.most_common()] is
    [sorted(self.items(), key=itemgetter(1), reverse=True)]: a stable sort
    by descending count (items with equal counts keep their order).  The
    result of a stable sort does not depend on the algorithm; this is
    insertion sort, from the right. *)
Fixpoint insert_desc (x : string * nat) (l : list (string * nat))
  : list (string * nat) :=
  match l with
  | [] => [x]
  | y :: l' => if (x.2 <? y.2)%nat then y :: insert_desc x l' else x :: y :: l'
  end.

Definition most_common (c : list (string * nat)) : list (string * nat) :=
  foldr insert_desc [] c.

(** Lines 55-60: [filename_paths], the dict from a stem to its paths. *)
Fixpoint paths_add (k : string) (f : path) (d : list (string * list path))
  : list (string * list path) :=
  match d with
  | [] => [(k, [f])]
  | (k', ps) :: d' =>
      if String.eqb k' k then (k', ps ++ [f]) :: d' else (k', ps) :: paths_add k f d'
  end.

Definition group_paths (jpeg_files : list path) : list (string * list path) :=
  foldl (fun d f => paths_add (stem (name f)) f d) [] jpeg_files.

(** [filename_paths[name]]. *)
Fixpoint dict_get (d : list (string * list path)) (k : string) : M (list path) :=
  match d with
  | [] => raise KeyError
  | (k', ps) :: d' => if String.eqb k' k then ret ps else dict_get d' k
  end.

(** Lines 46-49. *)
Definition select_jpeg (σ : gmap path node) (all_files : list path) : list path :=
  filter (fun f => is_file σ f && is_jpeg_name f) all_files.

(** Lines 76-78. *)
Definition duplicates_of (filename_counter : list (string * nat))
  : list (string * nat) :=
  filter (fun nc => (1 <? nc.2)%nat) (most_common filename_counter).

(** Lines 90-93: the rows of the table. *)
Fixpoint table_rows (filename_paths : list (string * list path))
    (duplicates : list (string * nat)) : M (list table_row) :=
  match duplicates with
  | [] => ret []
  | (nm, count) :: rest =>
      all_paths <- dict_get filename_paths nm ;;
      rows <- table_rows filename_paths rest ;;
      ret ((nm, count, all_paths) :: rows)
  end.

(** Lines 101-104. *)
Definition log_details (filename_paths : list (string * list path))
    (duplicates : list (string * nat)) : M unit :=
  for_each duplicates (fun nc =>
    info (Duplicate_entry nc.1 nc.2) ;;
    paths <- dict_get filename_paths nc.1 ;;
    for_each paths (fun p => info (Duplicate_path p))).

Definition main (input_directory : path) : M unit :=
  let input_path := input_directory in
  info (Analysis_start input_path) ;;
  ex <- path_exists input_path ;;
  if negb ex then error (Dir_missing input_path)
  else
    jpeg_files <- (fun s =>
      (Return (select_jpeg (fs s) (glob_all (fs s) input_path)), s)) ;;
    let filename_counter := counter_of (map (fun f => stem (name f)) jpeg_files) in
    let filename_paths := group_paths jpeg_files in
    info Result_header ;;
    info (Analysed_dir input_path) ;;
    info (Total_jpeg (length jpeg_files)) ;;
    info (Unique_names (length filename_counter)) ;;
    info (Duplicate_names
            (length (filter (fun nc => (1 <? nc.2)%nat) filename_counter))) ;;
    info Processing_time ;;
    let duplicates := duplicates_of filename_counter in
    (match duplicates with
     | [] => ret tt
     | _ :: _ =>
         info Duplicate_list_header ;;
         rows <- table_rows filename_paths duplicates ;;
         console_print rows ;;
         info Duplicate_detail_header ;;
         log_details filename_paths duplicates ;;
         info (Duplicate_total (length duplicates))
     end) ;;
    info Count_done.
End Script.
End Counter.

(** ** Instances to run the scripts on *)

(** An enumeration in the order of the keys of the map. *)
Definition glob_keys : Walk := fun σ root =>
  filter (fun p => bool_decide (root `prefix_of` p ∧ p ≠ root)) (map fst (map_to_list σ)).

(** A three-way codec: a file that starts with byte [ff] is an image that
    re-encodes to its own bytes; one that starts with [00] is recognised but
    its data stops short, and the load raises with the handle left open;
    nothing else is recognised. *)
Definition toy_codec : Codec := {|
  image := content;
  pil_open := fun data =>
    match data with
    | Byte.xff :: _ | Byte.x00 :: _ => inr data
    | _ => inl UnidentifiedImageError
    end;
  pil_format := fun _ => Some "JPEG";
  pil_save := fun i _ =>
    match i with
    | Byte.xff :: _ => Encoded i
    | _ => DecodeFailed (CodecError "image file is truncated")
    end;
  pil_save_closes := fun i _ =>
    match i with Byte.xff :: _ => true | _ => false end
|}.

(** A run starts with an empty log and no open file. *)
Definition init (σ : gmap path node) : state := State σ [] [] [].

Definition jpeg_bytes : content := [Byte.xff; Byte.xd8; Byte.xff; Byte.xd9].
Definition junk_bytes : content := [Byte.x6e; Byte.x6f].
Definition cut_bytes : content := [Byte.x00; Byte.xd8].

(** Two JPEG files, one file that is no image but named [.jpg], a text file
    and an empty directory. *)
Definition sample_tree : gmap path node :=
  list_to_map
    [([], Dir); (["in"], Dir); (["in"; "a"], Dir); (["in"; "empty"], Dir);
     (["in"; "a"; "x.jpg"], File jpeg_bytes);
     (["in"; "a"; "y.JPEG"], File jpeg_bytes);
     (["in"; "bad.jpg"], File junk_bytes);
     (["in"; "a"; "note.txt"], File junk_bytes)].

(** One file, recognised as an image, whose data stops short. *)
Definition cut_tree : gmap path node :=
  list_to_map [([], Dir); (["in"], Dir); (["in"; "t.jpg"], File cut_bytes)].

(** The input root is a regular file. *)
Definition file_root_tree : gmap path node :=
  list_to_map [([], Dir); (["in"], File jpeg_bytes)].

(** The output root of the converter exists and holds a file. *)
Definition reused_tree : gmap path node :=
  list_to_map
    [([], Dir); (["in"], Dir); (["in"; "x.jpg"], File jpeg_bytes);
     (["out"], Dir); (["out"; "old.jpg"], File junk_bytes)].

(** A regular file lies where the mirror of the directory [in/a] has to go. *)
Definition blocked_tree : gmap path node :=
  list_to_map
    [([], Dir); (["in"], Dir); (["in"; "a"], Dir);
     (["in"; "a"; "x.jpg"], File jpeg_bytes);
     (["out"], Dir); (["out"; "a"], File junk_bytes)].

(** Three files, two of which share the stem [photo1]. *)
Definition photo_tree : gmap path node :=
  list_to_map
    [([], Dir); (["in"], Dir); (["in"; "a"], Dir); (["in"; "b"], Dir);
     (["in"; "a"; "photo1.jpg"], File jpeg_bytes);
     (["in"; "b"; "photo1.jpg"], File jpeg_bytes);
     (["in"; "a"; "photo2.jpg"], File jpeg_bytes)].

(** ** Predicates of the statements *)

(** Every entry but the root lies in a directory. *)
Definition wf (σ : gmap path node) : Prop :=
  σ !! [] = Some Dir ∧
  ∀ (p : path) (x : string), is_Some (σ !! (p ++ [x])) → σ !! p = Some Dir.

(** [l] lists each entry strictly below [root], once. *)
Definition is_walk (σ : gmap path node) (root : path) (l : list path) : Prop :=
  NoDup l ∧
  ∀ p : path, p ∈ l ↔ is_Some (σ !! p) ∧ ∃ rel : path, rel ≠ [] ∧ p = root ++ rel.

(** What [glob_all] has to satisfy, in whatever order it enumerates. *)
Definition walk_spec (W : Walk) : Prop :=
  ∀ σ (root : path), wf σ → is_walk σ root (glob_all σ root).

(** Neither root lies within the other. *)
Definition disjoint (a b : path) : Prop := ¬ a `prefix_of` b ∧ ¬ b `prefix_of` a.

(** [mkdir -p p] can succeed: no regular file on the way. *)
Definition creatable (σ : gmap path node) (p : path) : Prop :=
  ∀ q : path, q `prefix_of` p → is_file σ q = false.

(** Nothing exists strictly below [p]. *)
Definition empty_below (σ : gmap path node) (p : path) : Prop :=
  ∀ rel : path, rel ≠ [] → σ !! (p ++ rel) = None.

(** A run into a fresh output root: the roots are apart, the output root can
    be made, and nothing lies below it yet. *)
Record fresh_run (σ0 : gmap path node) (inp out : path) : Prop := FreshRun {
  fr_wf : wf σ0;
  fr_disjoint : disjoint inp out;
  fr_creatable : creatable σ0 out;
  fr_empty : empty_below σ0 out
}.

(** The same, as a test on a given file system. *)
Definition fresh_run_check (σ0 : gmap path node) (inp out : path) : bool :=
  is_dir σ0 [] &&
  forallb (λ pn, is_dir σ0 (parent pn.1)) (map_to_list σ0) &&
  negb (bool_decide (inp `prefix_of` out)) &&
  negb (bool_decide (out `prefix_of` inp)) &&
  forallb (λ n, negb (is_file σ0 (take n out))) (seq 0 (S (length out))) &&
  forallb (λ pn, bool_decide (out `prefix_of` pn.1 → pn.1 = out)) (map_to_list σ0).

(** [PathMirror] of the specification: the path under [out] with the same
    relative path as [p] has under [inp]. *)
Definition mirror (inp out p : path) : path :=
  out ++ default [] (relative_to p inp).

(** [σ'] is [σ] with directories added where nothing was. *)
Definition adds_dirs (σ σ' : gmap path node) : Prop :=
  ∀ q : path, σ' !! q = σ !! q ∨ (σ !! q = None ∧ σ' !! q = Some Dir).

(** The same, except at the paths that satisfy [P]. *)
Definition changes_only (P : path → Prop) (σ σ' : gmap path node) : Prop :=
  ∀ q : path, ¬ P q → σ' !! q = σ !! q ∨ (σ !! q = None ∧ σ' !! q = Some Dir).

(** The state of the file system in the course of a run from [σ0] with input
    root [inp] and output root [out]: the input tree is as it was, and the
    output tree holds directories and files only where the input tree has a
    directory, or a JPEG-named file. *)
Record mirror_inv (σ0 : gmap path node) (inp out : path) (σ : gmap path node)
  : Prop := MirrorInv {
  inv_wf : wf σ;
  inv_in : ∀ rel : path, σ !! (inp ++ rel) = σ0 !! (inp ++ rel);
  inv_root : σ !! out = Some Dir;
  inv_dir : ∀ rel : path, σ !! (out ++ rel) = Some Dir →
                          rel = [] ∨ σ0 !! (inp ++ rel) = Some Dir;
  inv_file : ∀ (rel : path) (c : content), σ !! (out ++ rel) = Some (File c) →
               is_file σ0 (inp ++ rel) = true ∧ is_jpeg_name (inp ++ rel) = true
}.

(** The directories the compressor makes lie above some regular file of the
    input tree. *)
Definition above_a_file (σ0 : gmap path node) (inp out : path)
    (σ : gmap path node) : Prop :=
  ∀ rel : path, σ !! (out ++ rel) = Some Dir →
    rel = [] ∨ ∃ rest : path, rest ≠ [] ∧ is_file σ0 (inp ++ rel ++ rest) = true.

(** The file a record is about, if it names one. *)
Definition msg_path (m : message) : option path :=
  match m with
  | Skip_not_jpeg p | File_detected p _ | Err_unrecognized p
  | Err_processing p _ | Dir_skipped p | Not_jpeg p
  | Compressed p _ _ _ | Err_handling p _ => Some p
  | _ => None
  end.

Definition is_error (r : log_record) : bool :=
  match lvl r with ERROR => true | _ => false end.

(** The record of a file written: line 100 of the converter, line 71 of the
    compressor. *)
Definition is_saved (r : log_record) : bool :=
  match msg r with
  | Saved_as_jpeg _ | Compressed _ _ _ _ => true
  | _ => false
  end.

(** The record of a file that is not an image: line 104 of the converter; in
    the compressor, line 77 with [UnidentifiedImageError] as its cause. *)
Definition is_unreadable (r : log_record) : bool :=
  match msg r with
  | Err_unrecognized _ | Err_handling _ UnidentifiedImageError => true
  | _ => false
  end.

(** A file the codec decodes and re-encodes with the given options. *)
Definition valid_jpeg `{Codec} (opts : save_options) (c : content) : Prop :=
  c ≠ [] ∧ ∃ i d, pil_open c = inr i ∧ pil_save i opts = Encoded d.

(** A file the codec does not recognise as an image. *)
Definition corrupt `{Codec} (c : content) : Prop :=
  pil_open c = inl UnidentifiedImageError.

(** The auditor: how often a stem occurs, where it occurs first, and the files
    that bear it. *)
Definition count_key (k : string) (keys : list string) : nat :=
  length (filter (λ k', k' = k) keys).

Fixpoint first_index (k : string) (keys : list string) : nat :=
  match keys with
  | [] => 0
  | k' :: rest => if String.eqb k' k then 0 else S (first_index k rest)
  end.

Definition files_with_stem (k : string) (files : list path) : list path :=
  filter (λ f, stem (name f) = k) files.

(** The order of the report: more occurrences first, and among equal counts
    the stem met first in the walk. *)
Definition count_order (idx : string → nat) (a b : string * nat) : Prop :=
  b.2 < a.2 ∨ (a.2 = b.2 ∧ idx a.1 < idx b.1).

Definition report_order (keys : list string) (r1 r2 : table_row) : Prop :=
  count_order (λ k, first_index k keys) r1.1 r2.1.

(** Reading an association list, with a default. *)
Fixpoint assoc_get {V} (d : V) (k : string) (l : list (string * V)) : V :=
  match l with
  | [] => d
  | (k', v) :: rest => if String.eqb k' k then v else assoc_get d k rest
  end.

(** Update in place, or append: the shape shared by [counter_add] and
    [paths_add]. *)
Fixpoint assoc_upd {V} (f : V → V) (v0 : V) (k : string) (l : list (string * V))
  : list (string * V) :=
  match l with
  | [] => [(k, v0)]
  | (k', v) :: rest =>
      if String.eqb k' k then (k', f v) :: rest
      else (k', v) :: assoc_upd f v0 k rest
  end.

(** Same log, same open files, same console, and directories added. *)
Definition same_but_fs (s s' : state) : Prop :=
  log s' = log s ∧ open_files s' = open_files s ∧ console s' = console s ∧
  adds_dirs (fs s) (fs s').

(** The entries a walk can yield: existing paths strictly below [inp]. *)
Definition entries_ok (σ0 : gmap path node) (inp : path) (l : list path) : Prop :=
  ∀ p : path, p ∈ l → ∃ rel : path, rel ≠ [] ∧ p = inp ++ rel ∧ is_Some (σ0 !! p).

(** The log records of one entry that exists in [σ0], as a function of the
    entry and of the codec alone. *)
Section Records.
Context `{Codec}.

Definition rec (l : level) (m : message) : log_record := LogRecord l m false.

Definition conv_error_records (file_path : path) (e : exn) : list log_record :=
  match e with
  | UnidentifiedImageError =>
      [rec ERROR (Err_unrecognized file_path); LogRecord ERROR (Exc e) true]
  | _ =>
      [rec ERROR (Err_processing file_path e); LogRecord ERROR (Exc e) true]
  end.

Definition conv_records (σ0 : gmap path node) (inp out p : path)
  : list log_record :=
  match σ0 !! p with
  | Some (File data) =>
      if negb (is_jpeg_name p) then [rec INFO (Skip_not_jpeg p)]
      else
        match pil_open data with
        | inl e => conv_error_records p e
        | inr i =>
            rec INFO (File_detected p (pil_format i)) ::
            match pil_save i Converter.options with
            | Encoded _ => [rec INFO (Saved_as_jpeg (mirror inp out p))]
            | DecodeFailed e | EncodeFailed e _ => conv_error_records p e
            end
        end
  | _ => []
  end.

Definition comp_records (σ0 : gmap path node) (inp out : path) (quality : Z)
    (p : path) : list log_record :=
  match σ0 !! p with
  | Some Dir => [rec INFO (Dir_skipped p)]
  | Some (File data) =>
      if negb (is_jpeg_name p) then [rec WARNING (Not_jpeg p)]
      else
        match pil_open data with
        | inl e => [LogRecord ERROR (Err_handling p e) true]
        | inr i =>
            match pil_save i (Compressor.options quality) with
            | Encoded d =>
                if (length data =? 0)%nat
                then [LogRecord ERROR (Err_handling p ZeroDivisionError) true]
                else [rec INFO (Compressed p (mirror inp out p)
                                  (length data) (length d))]
            | DecodeFailed e | EncodeFailed e _ =>
                [LogRecord ERROR (Err_handling p e) true]
            end
        end
  | None => []
  end.
End Records.

(** ** The words of the specification on scope and base name

    A second set of definitions, written from the text of the
    specification and not from the code, against which [is_jpeg_name],
    [Counter.select_jpeg] and [stem] are compared. *)
Module Spec.

(** The last [k] characters of a name, and the name without them. *)
Definition ending (k : nat) (n : string) : string :=
  substring (String.length n - k) k n.

Definition without_ending (k : nat) (n : string) : string :=
  substring 0 (String.length n - k) n.

(** The capital of a letter of the two extensions. *)
Definition capital (c : ascii) : ascii :=
  if Ascii.eqb c "j" then "J"%char
  else if Ascii.eqb c "p" then "P"%char
  else if Ascii.eqb c "e" then "E"%char
  else if Ascii.eqb c "g" then "G"%char
  else c.

(** [e] is the extension [ext], each letter small or capital. *)
Fixpoint same_ignoring_case (ext e : string) : bool :=
  match ext, e with
  | EmptyString, EmptyString => true
  | String a ext', String c e' =>
      (Ascii.eqb c a || Ascii.eqb c (capital a)) && same_ignoring_case ext' e'
  | _, _ => false
  end.

(** "Files are in scope only if their extension, case-insensitively, is one
    of [.jpg]/[.jpeg]": the length of that extension, for a name that ends
    in it after something else. *)
Definition extension_length (n : string) : option nat :=
  if (4 <? String.length n)%nat && same_ignoring_case ".jpg" (ending 4 n)
  then Some 4
  else if (5 <? String.length n)%nat && same_ignoring_case ".jpeg" (ending 5 n)
  then Some 5
  else None.

Definition in_scope_name (n : string) : bool :=
  match extension_length n with Some _ => true | None => false end.

(** The auditor "selects files by extension": a regular file with a name in
    scope. *)
Definition in_scope (σ : gmap path node) (f : path) : bool :=
  is_file σ f && in_scope_name (name f).

(** "Base name: a filename with its extension removed." *)
Definition base_name (n : string) : string :=
  match extension_length n with
  | Some k => without_ending k n
  | None => n
  end.

(** The files of a group: those of base name [k], in the order of the
    walk. *)
Definition group (k : string) (files : list path) : list path :=
  filter (λ f, base_name (name f) = k) files.
End Spec.

(** Every path a record names. *)
Definition msg_paths (m : message) : list path :=
  match m with
  | Skip_not_jpeg p | File_detected p _ | Saved_as_jpeg p | Err_unrecognized p
  | Err_processing p _ | Dir_skipped p | Not_jpeg p | Err_handling p _
  | Input_missing p | Output_exists p | Input_dir p | Output_dir p
  | Analysis_start p | Dir_missing p | Analysed_dir p | Duplicate_path p => [p]
  | Compressed p o _ _ => [p; o]
  | _ => []
  end.

(** ** Predicates of the further properties *)

(** What a run may do to a path of the file system: leave it as it is, make a
    directory where nothing was, on the way to a path under [out], or write a
    regular file, where no directory is, at a path that satisfies [P]. *)
Definition run_effect (out : path) (P : path → Prop) (σ σ' : gmap path node)
  : Prop :=
  ∀ q : path,
    σ' !! q = σ !! q ∨
    (σ !! q = None ∧ σ' !! q = Some Dir ∧ ∃ r : path, q `prefix_of` out ++ r) ∨
    (is_dir σ q = false ∧ is_file σ' q = true ∧ P q).

(** Every run of [m] relates the state before to the state after by [R],
    whether it returns or raises. *)
Definition preserves {A} (R : state → state → Prop) (m : M A) : Prop :=
  ∀ s : state, R s (m s).2.

(** [m] raises no exception outside [E]. *)
Definition raises_only {A} (E : exn → Prop) (m : M A) : Prop :=
  ∀ (s : state) (e : exn), (m s).1 = Raise e → E e.

(** The exceptions of [os.mkdir]. *)
Definition mkdir_error (e : exn) : Prop :=
  e = FileNotFoundError ∨ e = FileExistsError ∨ e = NotADirectoryError.

(** What [Image.open] followed by [img.save] with [opts] writes for a source
    file, if it succeeds. *)
Definition encoded `{Codec} (opts : save_options) (data : content)
  : option content :=
  match pil_open data with
  | inl _ => None
  | inr i =>
      match pil_save i opts with
      | Encoded d => Some d
      | DecodeFailed _ | EncodeFailed _ _ => None
      end
  end.

(** The file system after a run of the converter from [σ0] into a fresh
    output root. *)
Definition conv_output `{Codec} (σ0 : gmap path node) (inp out q : path)
  : option node :=
  if bool_decide (q `prefix_of` out) then Some Dir
  else
    match relative_to q out with
    | None => σ0 !! q
    | Some rel =>
        match σ0 !! (inp ++ rel) with
        | Some Dir => Some Dir
        | Some (File data) =>
            if is_jpeg_name (inp ++ rel)
            then File <$> encoded Converter.options data
            else None
        | None => None
        end
    end.

(** The paths the batch scripts may write a file to: the mirror of a path
    with a JPEG name. *)
Definition jpeg_target (inp out q : path) : Prop :=
  ∃ rel : path, q = out ++ rel ∧ is_jpeg_name (inp ++ rel) = true.

Definition touches (out : path) (P : path → Prop) (s s' : state) : Prop :=
  run_effect out P (fs s) (fs s').

(** No file is open after that was not open before. *)
Definition no_new_handle (s s' : state) : Prop :=
  ∀ x : path, x ∈ open_files s' → x ∈ open_files s.

(** The exceptions that end a batch: those of [mkdir], and the [ValueError]
    of [relative_to]. *)
Definition batch_error (e : exn) : Prop := mkdir_error e ∨ e = ValueError.

(** Well-formedness, as a test on a given file system. *)
Definition wf_check (σ : gmap path node) : bool :=
  is_dir σ [] && forallb (λ pn, is_dir σ (parent pn.1)) (map_to_list σ).

(** The report of the auditor for the JPEG files [files] of a walk: the rows
    of the table, the records of lines 101-104 for a table, and all the
    records of a run. *)
Definition report_rows (files : list path) : list table_row :=
  map (λ kc : string * nat, (kc.1, kc.2, files_with_stem kc.1 files))
      (Counter.duplicates_of
         (Counter.counter_of (map (λ f, stem (name f)) files))).

Definition detail_records (rows : list table_row) : list log_record :=
  concat (map (λ r : table_row,
                 rec INFO (Duplicate_entry r.1.1 r.1.2) ::
                 map (λ p, rec INFO (Duplicate_path p)) r.2) rows).

Definition auditor_records (root : path) (files : list path) : list log_record :=
  let keys := map (λ f, stem (name f)) files in
  let rows := report_rows files in
  [rec INFO (Analysis_start root); rec INFO Result_header;
   rec INFO (Analysed_dir root); rec INFO (Total_jpeg (length files));
   rec INFO (Unique_names (length (remove_dups keys)));
   rec INFO (Duplicate_names (length rows)); rec INFO Processing_time] ++
  match rows with
  | [] => []
  | _ :: _ =>
      [rec INFO Duplicate_list_header; rec INFO Duplicate_detail_header] ++
      detail_records rows ++ [rec INFO (Duplicate_total (length rows))]
  end ++
  [rec INFO Count_done].

(** The records of a run of the auditor that counts [n] files and [u]
    different base names and prints the table [rows]. *)
Definition summary_records (root : path) (n u : nat) (rows : list table_row)
  : list log_record :=
  [rec INFO (Analysis_start root); rec INFO Result_header;
   rec INFO (Analysed_dir root); rec INFO (Total_jpeg n);
   rec INFO (Unique_names u);
   rec INFO (Duplicate_names (length rows)); rec INFO Processing_time] ++
  match rows with
  | [] => []
  | _ :: _ =>
      [rec INFO Duplicate_list_header; rec INFO Duplicate_detail_header] ++
      detail_records rows ++ [rec INFO (Duplicate_total (length rows))]
  end ++
  [rec INFO Count_done].

(** Descending by count. *)
Definition count_desc (a b : string * nat) : Prop := b.2 ≤ a.2.

(** The entry at [q] is the same after as before. *)
Definition same_at (q : path) (s s' : state) : Prop := fs s' !! q = fs s !! q.

(** The regular files the compressor writes in a run from [σ0] into a fresh
    output root. *)
Definition comp_file `{Codec} (σ0 : gmap path node) (inp : path) (quality : Z)
    (rel : path) : option content :=
  match σ0 !! (inp ++ rel) with
  | Some (File data) =>
      if is_jpeg_name (inp ++ rel)
      then encoded (Compressor.options quality) data
      else None
  | _ => None
  end.

(** The log only grows. *)
Definition log_grows (s s' : state) : Prop := log s `prefix_of` log s'.

(** [creatable], as a test on a given file system. *)
Definition creatable_check (σ : gmap path node) (p : path) : bool :=
  forallb (λ n, negb (is_file σ (take n p))) (seq 0 (S (length p))).

(** A codec that closes the source whenever [img.save] is over. *)
Definition tidy_codec : Codec := {|
  image := content;
  pil_open := fun data =>
    match data with
    | Byte.xff :: _ | Byte.x00 :: _ => inr data
    | _ => inl UnidentifiedImageError
    end;
  pil_format := fun _ => Some "JPEG";
  pil_save := fun i _ =>
    match i with
    | Byte.xff :: _ => Encoded i
    | _ => DecodeFailed (CodecError "broken data stream")
    end;
  pil_save_closes := fun _ _ => true
|}.

(** * Properties *)

(** ** Paths *)

Lemma parent_snoc (p : path) (x : string) : parent (p ++ [x]) = p.
Proof.
  unfold parent. rewrite length_app; simpl.
  replace (length p + 1 - 1) with (length p) by lia.
  apply take_app_length.
Qed.

Lemma parent_app (p rel : path) : rel ≠ [] → parent (p ++ rel) = p ++ parent rel.
Proof.
  destruct rel as [|y rel' _] using rev_ind; [done | intros _].
  by rewrite app_assoc, !parent_snoc.
Qed.

Lemma parent_prefix (p : path) : parent p `prefix_of` p.
Proof. apply prefix_take. Qed.

Lemma relative_to_app (root rel : path) : relative_to (root ++ rel) root = Some rel.
Proof.
  induction root as [|r root IH]; simpl; [by destruct rel |].
  by rewrite String.eqb_refl.
Qed.

Lemma prefix_snoc_inv (q p : path) (x : string) :
  q `prefix_of` p ++ [x] → q = p ++ [x] ∨ q `prefix_of` p.
Proof.
  intros [k Hk]. destruct k as [|y k' _] using rev_ind.
  - left. by rewrite app_nil_r in Hk.
  - right. rewrite app_assoc in Hk. apply app_inj_tail in Hk as [-> _].
    by apply prefix_app_r.
Qed.

Lemma disjoint_not_prefix (a b ra rb : path) :
  disjoint a b → ¬ a ++ ra `prefix_of` b ++ rb.
Proof.
  intros [Hab Hba] Hp.
  assert (a `prefix_of` b ++ rb) as Ha.
  { etrans; [| exact Hp]. by apply prefix_app_r. }
  assert (b `prefix_of` b ++ rb) as Hb by by apply prefix_app_r.
  destruct (prefix_weak_total _ _ _ Ha Hb); tauto.
Qed.

Lemma disjoint_ne (a b ra rb : path) : disjoint a b → a ++ ra ≠ b ++ rb.
Proof.
  intros Hd He. apply (disjoint_not_prefix a b ra rb Hd). by rewrite He.
Qed.

(** ** Well-formed file systems and [mkdir] *)

Lemma is_dir_true σ (p : path) : is_dir σ p = true ↔ σ !! p = Some Dir.
Proof. unfold is_dir. destruct (σ !! p) as [[]|]; naive_solver. Qed.

Lemma is_file_true σ (p : path) : is_file σ p = true ↔ ∃ c, σ !! p = Some (File c).
Proof. unfold is_file. destruct (σ !! p) as [[]|]; naive_solver. Qed.

Lemma wf_ancestor σ (p q : path) :
  wf σ → is_Some (σ !! p) → q `prefix_of` p → q ≠ p → σ !! q = Some Dir.
Proof.
  intros [_ Hwf] Hp [k ->]. revert Hp.
  induction k as [|x k IH] using rev_ind; intros Hp Hne.
  - by rewrite app_nil_r in Hne.
  - rewrite app_assoc in Hp. apply Hwf in Hp.
    destruct (decide (k = [])) as [-> | Hk].
    + by rewrite app_nil_r in Hp.
    + apply IH; [by rewrite Hp |].
      intros He. apply Hk. apply (app_inv_head q). by rewrite app_nil_r.
Qed.

Lemma wf_insert_dir σ (p : path) :
  wf σ → σ !! parent p = Some Dir → wf (<[p := Dir]> σ).
Proof.
  intros [Hroot Hwf] Hpar. split.
  - rewrite lookup_insert. by case_decide.
  - intros q x. rewrite !lookup_insert.
    destruct (decide (p = q ++ [x])) as [-> | Hne].
    + intros _. rewrite parent_snoc in Hpar. by case_decide.
    + intros Hs. apply Hwf in Hs. by case_decide.
Qed.

Lemma wf_insert_file σ (p : path) (c : content) :
  wf σ → p ≠ [] → σ !! parent p = Some Dir → σ !! p ≠ Some Dir →
  wf (<[p := File c]> σ).
Proof.
  intros [Hroot Hwf] Hp Hpar Hnd. split.
  - by rewrite lookup_insert_ne.
  - intros q x. rewrite !lookup_insert.
    destruct (decide (p = q ++ [x])) as [-> | Hne].
    + intros _. rewrite parent_snoc in Hpar.
      case_decide as Hq; [| done].
      exfalso. apply (f_equal length) in Hq. rewrite length_app in Hq. simpl in Hq. lia.
    + intros Hs. apply Hwf in Hs. case_decide; [by subst | done].
Qed.

(** On a well-formed file system [mkdir(parents=True, exist_ok=True)]
    succeeds when no regular file is in the way, and makes exactly the missing
    ancestors. *)
Lemma mkdir_parents_rev_ok (rp : path) (s : state) :
  wf (fs s) → creatable (fs s) (rev rp) →
  ∃ σ', mkdir_parents_rev rp s = (Return tt, set_fs σ' s) ∧ wf σ' ∧
        ∀ q : path, σ' !! q = if decide (q `prefix_of` rev rp) then Some Dir
                              else fs s !! q.
Proof.
  revert s. induction rp as [|x rp IH]; intros s Hwf Hcre.
  - exists (fs s). simpl. unfold try_except, os_mkdir.
    destruct Hwf as [Hroot Hwf]. rewrite Hroot. simpl.
    unfold bind, path_is_dir, is_dir. rewrite Hroot. simpl.
    split; [by destruct s |]. split; [done |].
    intros q. case_decide as Hq; [| done].
    apply prefix_nil_inv in Hq. by subst.
  - cbn [mkdir_parents_rev].
    change (rev (x :: rp)) with (rev rp ++ [x]) in *.
    remember (rev rp ++ [x]) as p eqn:Ep.
    assert (Hpar : parent p = rev rp) by (subst p; apply parent_snoc).
    assert (Hnotfile : ∀ q : path, q `prefix_of` p →
              fs s !! q = None ∨ fs s !! q = Some Dir).
    { intros q Hq. apply Hcre in Hq. unfold is_file in Hq.
      destruct (fs s !! q) as [[]|]; naive_solver. }
    assert (Hpre : ∀ q : path, q `prefix_of` p → q = p ∨ q `prefix_of` rev rp).
    { intros q Hq. subst p. by apply prefix_snoc_inv. }
    unfold try_except at 1. unfold os_mkdir at 1.
    destruct (fs s !! p) as [n|] eqn:Hp.
    + (* the directory exists *)
      destruct (Hnotfile p) as [?| Hd]; [done | congruence |].
      exists (fs s). unfold bind, path_is_dir, is_dir. rewrite Hd. simpl.
      split; [by destruct s |]. split; [done |].
      intros q. case_decide as Hq; [| done].
      destruct (decide (q = p)) as [-> | Hne]; [congruence |].
      eapply wf_ancestor; eauto.
    + rewrite Hpar. destruct (fs s !! rev rp) as [n|] eqn:Hpp.
      * (* the parent exists *)
        destruct (Hnotfile (rev rp)) as [?| Hd]; [| congruence |].
        { rewrite <- Hpar. apply parent_prefix. }
        assert (n = Dir) as -> by congruence.
        exists (<[p := Dir]> (fs s)).
        split; [done |]. split; [apply wf_insert_dir; [done | by rewrite Hpar] |].
        intros q. rewrite lookup_insert.
        destruct (decide (p = q)) as [<- | Hne].
        { by rewrite decide_True. }
        case_decide as Hq; [| done].
        apply Hpre in Hq as [-> | Hq]; [done |].
        destruct (decide (q = rev rp)) as [-> | Hne']; [done |].
        eapply wf_ancestor; eauto.
      * (* the parent is missing: make it first *)
        destruct (IH s Hwf) as (σ1 & Hrun & Hwf1 & Hσ1).
        { intros q Hq. apply Hcre. etrans; [exact Hq |].
          rewrite <- Hpar. apply parent_prefix. }
        exists (<[p := Dir]> σ1).
        unfold bind. rewrite Hrun.
        assert (Hp1 : σ1 !! p = None).
        { rewrite Hσ1. rewrite decide_False; [done |].
          subst p. apply prefix_snoc_not. }
        assert (Hpp1 : σ1 !! rev rp = Some Dir).
        { rewrite Hσ1. by rewrite decide_True. }
        unfold mkdir_exist_ok, try_except, os_mkdir. simpl fs.
        rewrite Hp1, Hpar, Hpp1.
        split; [by destruct s |].
        split; [apply wf_insert_dir; [done | by rewrite Hpar] |].
        intros q. rewrite lookup_insert.
        destruct (decide (p = q)) as [<- | Hne].
        { by rewrite decide_True. }
        rewrite Hσ1.
        destruct (decide (q `prefix_of` rev rp)) as [Hq | Hq].
        { rewrite decide_True; [done |]. subst p. by apply prefix_app_r. }
        rewrite decide_False; [done |].
        intros Hq'. apply Hpre in Hq' as [-> | ?]; done.
Qed.

Lemma mkdir_parents_ok (p : path) (s : state) :
  wf (fs s) → creatable (fs s) p →
  ∃ σ', mkdir_parents p s = (Return tt, set_fs σ' s) ∧ wf σ' ∧
        ∀ q : path, σ' !! q = if decide (q `prefix_of` p) then Some Dir
                              else fs s !! q.
Proof.
  intros Hwf Hcre. unfold mkdir_parents.
  destruct (mkdir_parents_rev_ok (rev p) s) as (σ' & ? & ? & Hq);
    [done | by rewrite rev_involutive |].
  exists σ'. rewrite rev_involutive in Hq. done.
Qed.

Lemma mirror_app (inp out rel : path) : mirror inp out (inp ++ rel) = out ++ rel.
Proof. unfold mirror. by rewrite relative_to_app. Qed.

Lemma adds_dirs_refl σ : adds_dirs σ σ.
Proof. intros q. by left. Qed.

Lemma adds_dirs_changes_only P σ σ' : adds_dirs σ σ' → changes_only P σ σ'.
Proof. intros Ha q _. apply Ha. Qed.

Lemma changes_only_trans (P : path → Prop) σ1 σ2 σ3 :
  changes_only P σ1 σ2 → changes_only P σ2 σ3 → changes_only P σ1 σ3.
Proof.
  intros H12 H23 q Hq.
  destruct (H12 q Hq) as [E12 | [E1 E2]], (H23 q Hq) as [E23 | [E2' E3]].
  - left. congruence.
  - right. split; congruence.
  - right. split; congruence.
  - congruence.
Qed.

Lemma changes_only_weaken (P Q : path → Prop) σ σ' :
  (∀ q, P q → Q q) → changes_only P σ σ' → changes_only Q σ σ'.
Proof. intros HPQ Hc q Hq. apply Hc. naive_solver. Qed.

(** Unfold the primitives of the monad. *)
Ltac run_m :=
  unfold bind, ret, raise, info, warning, error, error_exc, emit,
    path_is_dir, path_exists, path_is_file; simpl.

(** ** The invariant of a mirroring run *)

Section Mirror.
Context `{Codec}.
Variables (σ0 : gmap path node) (inp out : path).
Hypothesis Hwf0 : wf σ0.
Hypothesis Hdis : disjoint inp out.
Local Abbreviation Inv := (mirror_inv σ0 inp out).

Lemma prefix_of_mirror (q rel : path) :
  q `prefix_of` out ++ rel →
  q `prefix_of` out ∨ ∃ r : path, q = out ++ r ∧ r `prefix_of` rel.
Proof.
  intros Hq.
  destruct (prefix_weak_total q out (out ++ rel)) as [? | [r ->]];
    [done | by apply prefix_app_r | by left |].
  right. exists r. split; [done |]. by apply prefix_app_inv in Hq.
Qed.

Lemma inv_prefix_out σ (q : path) : Inv σ → q `prefix_of` out → σ !! q = Some Dir.
Proof.
  intros HI Hq. destruct (decide (q = out)) as [-> | Hne]; [apply HI |].
  eapply wf_ancestor; [apply HI | | exact Hq | exact Hne].
  rewrite (inv_root _ _ _ _ HI). eauto.
Qed.

Lemma inv_creatable σ (rel : path) :
  Inv σ → rel = [] ∨ σ0 !! (inp ++ rel) = Some Dir → creatable σ (out ++ rel).
Proof.
  intros HI Hrel q Hq.
  apply prefix_of_mirror in Hq as [Hq | (r & -> & Hr)].
  - unfold is_file. by rewrite (inv_prefix_out σ q HI Hq).
  - destruct (is_file σ (out ++ r)) eqn:Hf; [| done]. exfalso.
    apply is_file_true in Hf as [c Hc].
    destruct (inv_file _ _ _ _ HI _ _ Hc) as [Hc0 _].
    apply is_file_true in Hc0 as [c0 Hc0].
    destruct Hrel as [-> | Hd].
    + apply prefix_nil_inv in Hr as ->. rewrite app_nil_r in Hc.
      rewrite (inv_root _ _ _ _ HI) in Hc. done.
    + destruct (decide (r = rel)) as [-> | Hne]; [congruence |].
      assert (σ0 !! (inp ++ r) = Some Dir); [| congruence].
      eapply wf_ancestor; [done | by rewrite Hd | by apply prefix_app |].
      intros He. by apply app_inv_head in He.
Qed.
(** Making the mirror of a directory of the input tree (or the output
    root itself) succeeds and keeps the invariant. *)
Lemma inv_mkdir (s : state) (rel : path) :
  Inv (fs s) → rel = [] ∨ σ0 !! (inp ++ rel) = Some Dir →
  ∃ σ', mkdir_parents (out ++ rel) s = (Return tt, set_fs σ' s) ∧
        Inv σ' ∧ adds_dirs (fs s) σ' ∧ σ' !! (out ++ rel) = Some Dir ∧
        ∀ q : path, ¬ q `prefix_of` out ++ rel → σ' !! q = fs s !! q.
Proof.
  intros HI Hrel.
  pose proof (inv_creatable _ _ HI Hrel) as Hcre.
  destruct (mkdir_parents_ok (out ++ rel) s) as (σ' & Hrun & Hwf' & Hσ');
    [apply HI | done |].
  exists σ'. split; [done |].
  assert (Hnew : ∀ q : path, q `prefix_of` out ++ rel →
            fs s !! q = None ∨ fs s !! q = Some Dir).
  { intros q Hq. apply Hcre in Hq. unfold is_file in Hq.
    destruct (fs s !! q) as [[]|]; naive_solver. }
  split; [split |].
  - done.
  - intros r. rewrite Hσ'. rewrite decide_False; [apply HI |].
    by apply disjoint_not_prefix.
  - rewrite Hσ'. rewrite decide_True; [done | by apply prefix_app_r].
  - intros r. rewrite Hσ'. case_decide as Hq; [| apply HI].
    intros _. apply prefix_app_inv in Hq.
    destruct Hrel as [-> | Hd].
    { apply prefix_nil_inv in Hq. by left. }
    right. destruct (decide (r = rel)) as [-> | Hne]; [done |].
    eapply wf_ancestor; [done | by rewrite Hd | by apply prefix_app |].
    intros He. by apply app_inv_head in He.
  - intros r c. rewrite Hσ'. case_decide; [done | apply HI].
  - split_and!.
    + intros q. rewrite Hσ'. case_decide as Hq; [| by left].
      destruct (Hnew q Hq) as [Hn | Hd]; [right | left]; by rewrite ?Hn, ?Hd.
    + rewrite Hσ'. by rewrite decide_True.
    + intros q Hq. rewrite Hσ'. by rewrite decide_False.
Qed.

(** Writing the mirror of a JPEG-named file of the input tree is possible
    once its directory exists, and keeps the invariant. *)
Lemma inv_write σ (rel : path) (data : content) :
  Inv σ → rel ≠ [] →
  is_file σ0 (inp ++ rel) = true → is_jpeg_name (inp ++ rel) = true →
  σ !! parent (out ++ rel) = Some Dir →
  open_for_writing σ (out ++ rel) = None ∧
  Inv (<[out ++ rel := File data]> σ).
Proof.
  intros HI Hrel Hf Hj Hpar.
  assert (Hnd : σ !! (out ++ rel) ≠ Some Dir).
  { intros Hd. apply (inv_dir _ _ _ _ HI) in Hd as [? | Hd]; [done |].
    apply is_file_true in Hf as [c Hc]. congruence. }
  split.
  - unfold open_for_writing. rewrite Hpar.
    by destruct (σ !! (out ++ rel)) as [[]|].
  - split.
    + apply wf_insert_file; [apply HI | | done | done].
      intros He. apply app_eq_nil in He as [_ ?]. done.
    + intros r. rewrite lookup_insert_ne; [apply HI |].
      intros He. by apply (disjoint_ne inp out r rel Hdis).
    + rewrite lookup_insert_ne; [apply HI |].
      intros He. apply Hrel. apply (app_inv_head out). by rewrite app_nil_r.
    + intros r. rewrite lookup_insert. case_decide; [done | apply HI].
    + intros r c. rewrite lookup_insert. case_decide as He; [| apply HI].
      apply app_inv_head in He as ->. done.
Qed.
(** [img.save] to the mirror of a JPEG-named file: the outcome is the
    codec's, and only the destination changes. *)
Lemma image_save_inv (s : state) (img : opened_image) (rel : path)
    (opts : save_options) :
  Inv (fs s) → rel ≠ [] →
  is_file σ0 (inp ++ rel) = true → is_jpeg_name (inp ++ rel) = true →
  fs s !! parent (out ++ rel) = Some Dir →
  ∃ r s', image_save img (out ++ rel) opts s = (r, s') ∧
          log s' = log s ∧ Inv (fs s') ∧
          (∀ q : path, q ≠ out ++ rel → fs s' !! q = fs s !! q) ∧
          match pil_save (im img) opts with
          | Encoded d => r = Return tt ∧ fs s' !! (out ++ rel) = Some (File d)
          | DecodeFailed e | EncodeFailed e _ => r = Raise e
          end.
Proof.
  intros HI Hrel Hf Hj Hpar. unfold image_save.
  set (s1 := if pil_save_closes (im img) opts then close_file (fp img) s else s).
  assert (Hfs : fs s1 = fs s) by (subst s1; by destruct (pil_save_closes _ _)).
  assert (Hlog : log s1 = log s) by (subst s1; by destruct (pil_save_closes _ _)).
  clearbody s1.
  destruct (pil_save (im img) opts) as [d | e | e partial].
  - destruct (inv_write (fs s) rel d HI Hrel Hf Hj Hpar) as [Hopen HI'].
    rewrite Hfs, Hopen. eexists _, _. split; [done |]. simpl; rewrite ?Hfs.
    split_and!; [done | done | by intros q Hq; rewrite lookup_insert_ne | done |].
    by rewrite lookup_insert_eq.
  - eexists _, _. split; [done |]. rewrite ?Hfs.
    split_and!; [done | done | by intros | done].
  - destruct (inv_write (fs s) rel partial HI Hrel Hf Hj Hpar) as [Hopen HI'].
    rewrite Hfs, Hopen. eexists _, _. split; [done |].
    destruct (exists_ (fs s) (out ++ rel)); simpl; rewrite ?Hfs.
    + split_and!; [done | done | by intros q Hq; rewrite lookup_insert_ne | done].
    + split_and!; [done | done | by intros | done].
Qed.

Lemma conv_on_error_run (p : path) (e : exn) (s : state) :
  Converter.on_error p e s =
  (Return tt, State (fs s) (log s ++ conv_error_records p e)
                    (open_files s) (console s)).
Proof.
  destruct e; unfold Converter.on_error; run_m; by rewrite <- app_assoc.
Qed.

Lemma conv_transcode_inv (s : state) (rel : path) (data : content) :
  Inv (fs s) → rel ≠ [] →
  σ0 !! (inp ++ rel) = Some (File data) → is_jpeg_name (inp ++ rel) = true →
  fs s !! parent (out ++ rel) = Some Dir →
  ∃ s', Converter.transcode (inp ++ rel) (out ++ rel) s = (Return tt, s') ∧
        Inv (fs s') ∧
        log s' = log s ++ conv_records σ0 inp out (inp ++ rel) ∧
        (∀ q : path, q ≠ out ++ rel → fs s' !! q = fs s !! q) ∧
        (∀ i d, pil_open data = inr i →
                pil_save i Converter.options = Encoded d →
                fs s' !! (out ++ rel) = Some (File d)).
Proof.
  intros HI Hrel Hdata Hj Hpar.
  assert (Hf : is_file σ0 (inp ++ rel) = true) by (apply is_file_true; eauto).
  unfold conv_records. rewrite Hdata, Hj. cbn [negb].
  unfold Converter.transcode, try_except, Converter.try_body.
  unfold bind at 1. unfold image_open.
  rewrite (inv_in _ _ _ _ HI), Hdata.
  destruct (pil_open data) as [e | i] eqn:Hopen.
  - rewrite conv_on_error_run. eexists. split; [done |]. cbn.
    split_and!; [done | done | by intros | done].
  - run_m.
    match goal with |- context [image_save ?img _ _ ?s1] =>
      destruct (image_save_inv s1 img rel Converter.options)
        as (r & s2 & Hrun & Hlog & HI2 & Hch & Hres); [done .. |]
    end.
    rewrite Hrun. simpl in Hlog, Hch, Hres.
    destruct (pil_save i Converter.options) as [d | e | e partial] eqn:Hsave.
    + destruct Hres as [-> Hd]. eexists. split; [done |]. simpl.
      rewrite Hlog, mirror_app, <- app_assoc.
      split_and!; [done | done | done |].
      intros i0 d0 [= <-] Hs. congruence.
    + subst r. rewrite conv_on_error_run. eexists. split; [done |]. simpl.
      rewrite Hlog, <- app_assoc. split_and!; [done | done | done |].
      intros i0 d0 [= <-] Hs. congruence.
    + subst r. rewrite conv_on_error_run. eexists. split; [done |]. simpl.
      rewrite Hlog, <- app_assoc. split_and!; [done | done | done |].
      intros i0 d0 [= <-] Hs. congruence.
Qed.
Lemma parent_in_tree (rel : path) :
  rel ≠ [] → is_Some (σ0 !! (inp ++ rel)) → σ0 !! (inp ++ parent rel) = Some Dir.
Proof.
  destruct rel as [|x rel' _] using rev_ind; [done |]. intros _ Hs.
  rewrite parent_snoc. rewrite app_assoc in Hs. by apply Hwf0 in Hs.
Qed.

(** One turn of the loop of the converter. *)
Lemma conv_step (s : state) (rel : path) :
  Inv (fs s) → rel ≠ [] → is_Some (σ0 !! (inp ++ rel)) →
  ∃ s', Converter.process_entry inp out (inp ++ rel) s = (Return tt, s') ∧
        Inv (fs s') ∧
        log s' = log s ++ conv_records σ0 inp out (inp ++ rel) ∧
        changes_only (λ q, q = out ++ rel) (fs s) (fs s') ∧
        (σ0 !! (inp ++ rel) = Some Dir → fs s' !! (out ++ rel) = Some Dir) ∧
        (∀ data i d, σ0 !! (inp ++ rel) = Some (File data) →
                     is_jpeg_name (inp ++ rel) = true →
                     pil_open data = inr i →
                     pil_save i Converter.options = Encoded d →
                     fs s' !! (out ++ rel) = Some (File d)).
Proof.
  intros HI Hrel [n Hn].
  unfold Converter.process_entry, path_relative_to.
  rewrite relative_to_app. run_m. unfold is_dir.
  rewrite (inv_in _ _ _ _ HI), Hn.
  destruct n as [| data].
  - (* a directory *)
    destruct (inv_mkdir s rel HI) as (σ' & Hrun & HI' & Hadd & Hd & _); [by right |].
    rewrite Hrun. eexists. split; [done |]. simpl.
    unfold conv_records. rewrite Hn, app_nil_r.
    split_and!; [done | done | by apply adds_dirs_changes_only | done | done].
  - destruct (is_jpeg_name (inp ++ rel)) eqn:Hj; simpl.
    + (* a JPEG-named file *)
      rewrite parent_app by done.
      destruct (inv_mkdir s (parent rel) HI) as (σ' & Hrun & HI' & Hadd & Hd & _).
      { right. apply parent_in_tree; eauto. }
      rewrite Hrun.
      destruct (conv_transcode_inv (set_fs σ' s) rel data)
        as (s' & Hrun' & HI'' & Hlog & Hch & Hout); try done.
      { by rewrite parent_app. }
      rewrite Hrun'. exists s'. split; [done |].
      split_and!; [done | done | | done |].
      * eapply changes_only_trans; [by apply adds_dirs_changes_only |].
        intros q Hq. left. by apply Hch.
      * intros data' i d [= <-] _. apply Hout.
    + (* any other file *)
      eexists. split; [done |]. simpl.
      unfold conv_records. rewrite Hn, Hj. simpl.
      split_and!; [done | done | by intros q _; left | done | done].
Qed.

Local Abbreviation entries_ok := (entries_ok σ0 inp).

Lemma entries_ok_cons (p : path) (l : list path) :
  entries_ok (p :: l) →
  (∃ rel : path, rel ≠ [] ∧ p = inp ++ rel ∧ is_Some (σ0 !! p)) ∧ entries_ok l.
Proof.
  intros Hl. split; [apply Hl; left |]. intros q Hq. apply Hl. by right.
Qed.

(** The loop of the converter. *)
Lemma conv_loop (l : list path) (s : state) :
  Inv (fs s) → NoDup l → entries_ok l →
  ∃ s', for_each l (Converter.process_entry inp out) s = (Return tt, s') ∧
        Inv (fs s') ∧
        log s' = log s ++ concat (map (conv_records σ0 inp out) l) ∧
        changes_only (λ q, ∃ rel, inp ++ rel ∈ l ∧ q = out ++ rel) (fs s) (fs s') ∧
        (∀ rel, inp ++ rel ∈ l → σ0 !! (inp ++ rel) = Some Dir →
                fs s' !! (out ++ rel) = Some Dir) ∧
        (∀ rel data i d, inp ++ rel ∈ l →
                     σ0 !! (inp ++ rel) = Some (File data) →
                     is_jpeg_name (inp ++ rel) = true →
                     pil_open data = inr i →
                     pil_save i Converter.options = Encoded d →
                     fs s' !! (out ++ rel) = Some (File d)).
Proof.
  revert s. induction l as [|p l IH]; intros s HI Hnd Hl.
  - exists s. split; [done |]. simpl. rewrite app_nil_r.
    split_and!; [done | done | by intros q _; left | |].
    + by intros rel ?%elem_of_nil.
    + by intros rel data i d ?%elem_of_nil.
  - apply entries_ok_cons in Hl as [(rel & Hrel & -> & Hs) Hl].
    apply NoDup_cons in Hnd as [Hp Hnd].
    destruct (conv_step s rel HI Hrel Hs) as (s1 & Hrun1 & HI1 & Hlog1 & Hch1 & Hd1 & Hf1).
    destruct (IH s1 HI1 Hnd Hl) as (s2 & Hrun2 & HI2 & Hlog2 & Hch2 & Hd2 & Hf2).
    exists s2. cbn [for_each]. unfold bind. rewrite Hrun1, Hrun2.
    split; [done |].
    assert (Hkeep : ∀ n, fs s1 !! (out ++ rel) = Some n →
                         fs s2 !! (out ++ rel) = Some n).
    { intros n Hn. destruct (Hch2 (out ++ rel)) as [E | [E _]]; [| congruence ..].
      intros (rel' & Hin & He). apply app_inv_head in He as <-. done. }
    split_and!.
    + done.
    + rewrite Hlog2, Hlog1. simpl. by rewrite app_assoc.
    + eapply changes_only_trans.
      * eapply changes_only_weaken; [| exact Hch1].
        intros q ->. exists rel. split; [left | done].
      * eapply changes_only_weaken; [| exact Hch2].
        intros q (rel' & Hin & ->). exists rel'. split; [by right | done].
    + intros rel' [He | Hin]%elem_of_cons Hdir.
      * apply app_inv_head in He as ->. apply Hkeep. by apply Hd1.
      * by apply Hd2.
    + intros rel' data i d [He | Hin]%elem_of_cons Hdata Hj Ho Hsv.
      * apply app_inv_head in He as ->. apply Hkeep. by eapply Hf1.
      * by eapply Hf2.
Qed.
(** *** The compressor *)

Lemma comp_transcode_inv (s : state) (rel : path) (data : content) (quality : Z) :
  Inv (fs s) → rel ≠ [] →
  σ0 !! (inp ++ rel) = Some (File data) → is_jpeg_name (inp ++ rel) = true →
  fs s !! parent (out ++ rel) = Some Dir →
  ∃ s', Compressor.transcode (inp ++ rel) (out ++ rel) quality s = (Return tt, s') ∧
        Inv (fs s') ∧
        log s' = log s ++ comp_records σ0 inp out quality (inp ++ rel) ∧
        (∀ q : path, q ≠ out ++ rel → fs s' !! q = fs s !! q) ∧
        (∀ i d, pil_open data = inr i →
                pil_save i (Compressor.options quality) = Encoded d →
                fs s' !! (out ++ rel) = Some (File d)).
Proof.
  intros HI Hrel Hdata Hj Hpar.
  assert (Hf : is_file σ0 (inp ++ rel) = true) by (apply is_file_true; eauto).
  unfold comp_records. rewrite Hdata, Hj. cbn [negb].
  unfold Compressor.transcode, try_except, Compressor.try_body.
  unfold bind at 1. unfold stat_size at 1.
  rewrite (inv_in _ _ _ _ HI), Hdata.
  unfold with_image_open. unfold bind at 1. unfold image_open.
  rewrite (inv_in _ _ _ _ HI), Hdata.
  destruct (pil_open data) as [e | i] eqn:Hopen.
  - unfold Compressor.on_error. run_m. eexists. split; [done |]. simpl.
    split_and!; [done | done | by intros | done].
  - unfold bind at 1.
    match goal with |- context [image_save ?img _ _ ?s1] =>
      destruct (image_save_inv s1 img rel (Compressor.options quality))
        as (r & s2 & Hrun & Hlog & HI2 & Hch & Hres); [done .. |]
    end.
    rewrite Hrun. simpl in Hlog, Hch, Hres.
    destruct (pil_save i (Compressor.options quality))
      as [d | e | e partial] eqn:Hsave.
    + destruct Hres as [-> Hd]. unfold bind, stat_size. rewrite Hd.
      destruct (length data =? 0)%nat; unfold Compressor.on_error; run_m;
        (eexists; split; [done |]); simpl; rewrite Hlog, ?mirror_app;
        (split_and!; [done | done | done |]);
        intros i0 d0 [= <-] Hs; congruence.
    + subst r. unfold Compressor.on_error. run_m.
      eexists; split; [done |]. simpl. rewrite Hlog.
      split_and!; [done | done | done |].
      intros i0 d0 [= <-] Hs. congruence.
    + subst r. unfold Compressor.on_error. run_m.
      eexists; split; [done |]. simpl. rewrite Hlog.
      split_and!; [done | done | done |].
      intros i0 d0 [= <-] Hs. congruence.
Qed.

Local Abbreviation Above := (above_a_file σ0 inp out).

(** One turn of the loop of the compressor. *)
Lemma comp_step (s : state) (rel : path) (quality : Z) :
  Inv (fs s) → Above (fs s) → rel ≠ [] → is_Some (σ0 !! (inp ++ rel)) →
  ∃ s', Compressor.process_entry inp out quality (inp ++ rel) s = (Return tt, s') ∧
        Inv (fs s') ∧ Above (fs s') ∧
        log s' = log s ++ comp_records σ0 inp out quality (inp ++ rel) ∧
        changes_only (λ q, q = out ++ rel) (fs s) (fs s') ∧
        (∀ q : path, fs s !! q = Some Dir → fs s' !! q = Some Dir) ∧
        (is_file σ0 (inp ++ rel) = true →
         fs s' !! (out ++ parent rel) = Some Dir) ∧
        (∀ data i d, σ0 !! (inp ++ rel) = Some (File data) →
                     is_jpeg_name (inp ++ rel) = true →
                     pil_open data = inr i →
                     pil_save i (Compressor.options quality) = Encoded d →
                     fs s' !! (out ++ rel) = Some (File d)).
Proof.
  intros HI HA Hrel [n Hn].
  unfold Compressor.process_entry, path_relative_to.
  run_m. unfold is_dir.
  rewrite (inv_in _ _ _ _ HI), Hn.
  destruct n as [| data].
  - (* a directory: skipped *)
    eexists. split; [done |]. simpl.
    unfold comp_records. rewrite Hn.
    split_and!; [done | done | done | by intros q _; left | done | | done].
    unfold is_file. by rewrite Hn.
  - rewrite relative_to_app. rewrite parent_app by done.
    destruct (inv_mkdir s (parent rel) HI) as (σ' & Hrun & HI' & Hadd & Hd & Hfr).
    { right. apply parent_in_tree; eauto. }
    rewrite Hrun.
    assert (HA' : Above σ').
    { intros r Hr.
      destruct (decide (out ++ r `prefix_of` out ++ parent rel)) as [Hp | Hp].
      - apply prefix_app_inv in Hp as [k Hk].
        destruct (decide (r = [])) as [-> | Hne]; [by left |]. right.
        destruct rel as [|x rel' _] using rev_ind; [done |].
        rewrite parent_snoc in Hk. exists (k ++ [x]). split.
        + intros He. by apply app_eq_nil in He as [_ ?].
        + rewrite (app_assoc r), <- Hk. unfold is_file. by rewrite Hn.
      - rewrite (Hfr _ Hp) in Hr. by apply HA. }
    assert (Hpar' : σ' !! (out ++ parent rel) = Some Dir) by done.
    assert (Hkept : ∀ q : path, fs s !! q = Some Dir → σ' !! q = Some Dir).
    { intros q Hq. destruct (Hadd q) as [E | [E _]]; congruence. }
    destruct (is_jpeg_name (inp ++ rel)) eqn:Hj; simpl.
    + (* a JPEG-named file *)
      destruct (comp_transcode_inv (set_fs σ' s) rel data quality)
        as (s' & Hrun' & HI'' & Hlog & Hch & Hout); try done.
      { by rewrite parent_app. }
      rewrite Hrun'. exists s'. split; [done |].
      assert (Hnd : fs s' !! (out ++ rel) ≠ Some Dir).
      { intros Hdir. apply (inv_dir _ _ _ _ HI'') in Hdir as [? | Hdir]; [done |].
        congruence. }
      assert (Hne : out ++ parent rel ≠ out ++ rel).
      { intros He. apply app_inv_head in He.
        destruct rel as [|x rel' _] using rev_ind; [done |].
        rewrite parent_snoc in He. apply (f_equal length) in He.
        rewrite length_app in He. simpl in He. lia. }
      split_and!; [done | | done | | | |].
      * intros r Hr. destruct (decide (out ++ r = out ++ rel)) as [He | He].
        { by rewrite He in Hr. }
        rewrite (Hch _ He) in Hr. by apply HA'.
      * eapply changes_only_trans; [by apply adds_dirs_changes_only |].
        intros q Hq. left. by apply Hch.
      * intros q Hq%Hkept. destruct (decide (q = out ++ rel)) as [-> | He].
        { apply (inv_dir _ _ _ _ HI') in Hq as [? | Hq]; [done | congruence]. }
        by rewrite (Hch _ He).
      * intros _. by rewrite (Hch _ Hne).
      * intros data' i d [= <-] _. apply Hout.
    + (* any other file *)
      eexists. split; [done |]. simpl.
      unfold comp_records. rewrite Hn, Hj. simpl.
      split_and!;
        [done | done | done | by apply adds_dirs_changes_only | done | done | done].
Qed.

(** The loop of the compressor. *)
Lemma comp_loop (l : list path) (s : state) (quality : Z) :
  Inv (fs s) → Above (fs s) → NoDup l → entries_ok l →
  ∃ s', for_each l (Compressor.process_entry inp out quality) s = (Return tt, s') ∧
        Inv (fs s') ∧ Above (fs s') ∧
        log s' = log s ++ concat (map (comp_records σ0 inp out quality) l) ∧
        changes_only (λ q, ∃ rel, inp ++ rel ∈ l ∧ q = out ++ rel) (fs s) (fs s') ∧
        (∀ q : path, fs s !! q = Some Dir → fs s' !! q = Some Dir) ∧
        (∀ rel, inp ++ rel ∈ l → is_file σ0 (inp ++ rel) = true →
                fs s' !! (out ++ parent rel) = Some Dir) ∧
        (∀ rel data i d, inp ++ rel ∈ l →
                     σ0 !! (inp ++ rel) = Some (File data) →
                     is_jpeg_name (inp ++ rel) = true →
                     pil_open data = inr i →
                     pil_save i (Compressor.options quality) = Encoded d →
                     fs s' !! (out ++ rel) = Some (File d)).
Proof.
  revert s. induction l as [|p l IH]; intros s HI HA Hnd Hl.
  - exists s. split; [done |]. simpl. rewrite app_nil_r.
    split_and!; [done | done | done | by intros q _; left | done | |].
    + by intros rel ?%elem_of_nil.
    + by intros rel data i d ?%elem_of_nil.
  - apply entries_ok_cons in Hl as [(rel & Hrel & -> & Hs) Hl].
    apply NoDup_cons in Hnd as [Hp Hnd].
    destruct (comp_step s rel quality HI HA Hrel Hs)
      as (s1 & Hrun1 & HI1 & HA1 & Hlog1 & Hch1 & Hk1 & Hd1 & Hf1).
    destruct (IH s1 HI1 HA1 Hnd Hl)
      as (s2 & Hrun2 & HI2 & HA2 & Hlog2 & Hch2 & Hk2 & Hd2 & Hf2).
    exists s2. cbn [for_each]. unfold bind. rewrite Hrun1, Hrun2.
    split; [done |].
    split_and!.
    + done.
    + done.
    + rewrite Hlog2, Hlog1. simpl. by rewrite app_assoc.
    + eapply changes_only_trans.
      * eapply changes_only_weaken; [| exact Hch1].
        intros q ->. exists rel. split; [left | done].
      * eapply changes_only_weaken; [| exact Hch2].
        intros q (rel' & Hin & ->). exists rel'. split; [by right | done].
    + auto.
    + intros rel' [He | Hin]%elem_of_cons Hfile.
      * apply app_inv_head in He as ->. apply Hk2. by apply Hd1.
      * by apply Hd2.
    + intros rel' data i d [He | Hin]%elem_of_cons Hdata Hj Ho Hsv.
      * apply app_inv_head in He as ->.
        destruct (Hch2 (out ++ rel)) as [E | [E _]].
        { intros (rel' & Hin & He). apply app_inv_head in He as <-. done. }
        { rewrite E. by eapply Hf1. }
        { erewrite Hf1 in E; done. }
      * by eapply Hf2.
Qed.
End Mirror.

(** ** Whole runs into a fresh output root *)

Lemma is_walk_perm σ (root : path) (l1 l2 : list path) :
  is_walk σ root l1 → is_walk σ root l2 → l1 ≡ₚ l2.
Proof.
  intros [Hnd1 H1] [Hnd2 H2]. apply NoDup_Permutation; [done | done |].
  intros p. by rewrite H1, H2.
Qed.

Section Runs.
Context `{Codec} (W : Walk).
Variables (σ0 : gmap path node) (inp out : path).
Hypothesis HW : walk_spec W.
Hypothesis Hfresh : fresh_run σ0 inp out.

(** Making the output root establishes the invariant. *)
Lemma fresh_mkdir (s : state) :
  fs s = σ0 →
  ∃ σ1, mkdir_parents out s = (Return tt, set_fs σ1 s) ∧
        mirror_inv σ0 inp out σ1 ∧ above_a_file σ0 inp out σ1 ∧
        (∀ q : path, q `prefix_of` out → σ1 !! q = Some Dir) ∧
        is_walk σ0 inp (glob_all σ1 inp).
Proof.
  intros Hs. destruct Hfresh as [Hwf Hdis Hcre Hemp].
  destruct (mkdir_parents_ok out s) as (σ1 & Hrun & Hwf1 & Hσ1);
    [by rewrite Hs | by rewrite Hs |].
  rewrite Hs in Hσ1.
  assert (Hin : ∀ rel : path, σ1 !! (inp ++ rel) = σ0 !! (inp ++ rel)).
  { intros rel. rewrite Hσ1, decide_False; [done |].
    rewrite <- (app_nil_r out). by apply disjoint_not_prefix. }
  assert (Hbelow : ∀ (rel : path) n, σ1 !! (out ++ rel) = Some n → rel = []).
  { intros rel n. rewrite Hσ1. case_decide as Hp.
    - intros _. rewrite <- (app_nil_r out) in Hp at 2.
      apply prefix_app_inv in Hp. by apply prefix_nil_inv.
    - destruct (decide (rel = [])) as [-> | Hne]; [done |].
      by rewrite Hemp. }
  exists σ1. split_and!; [done | split | | |].
  - done.
  - done.
  - by rewrite Hσ1, decide_True.
  - intros rel Hd. left. by eapply Hbelow.
  - intros rel c Hc. apply Hbelow in Hc as Hrel. subst rel.
    rewrite app_nil_r, Hσ1, decide_True in Hc; done.
  - intros rel Hd. left. by eapply Hbelow.
  - intros q Hq. by rewrite Hσ1, decide_True.
  - destruct (HW σ1 inp Hwf1) as [Hnd Hl]. split; [done |].
    intros p. rewrite Hl. split.
    + intros [Hs1 (rel & Hrel & ->)]. rewrite Hin in Hs1. eauto.
    + intros [Hs1 (rel & Hrel & ->)]. rewrite <- Hin in Hs1. eauto.
Qed.

Lemma is_walk_entries_ok (l : list path) : is_walk σ0 inp l → entries_ok σ0 inp l.
Proof.
  intros [_ Hl] p [Hs (rel & Hrel & ->)]%Hl. eauto.
Qed.
(** A run of the converter. *)
Lemma conv_run (s : state) :
  fs s = σ0 → is_Some (σ0 !! inp) →
  ∃ s' l, Converter.process_jpeg_files inp out s = (Return tt, s') ∧
      is_walk σ0 inp l ∧ mirror_inv σ0 inp out (fs s') ∧
      log s' = log s ++ concat (map (conv_records σ0 inp out) l) ∧
      (∀ rel, rel ≠ [] → σ0 !! (inp ++ rel) = Some Dir →
              fs s' !! (out ++ rel) = Some Dir) ∧
      (∀ rel data i d, rel ≠ [] →
              σ0 !! (inp ++ rel) = Some (File data) →
              is_jpeg_name (inp ++ rel) = true →
              pil_open data = inr i →
              pil_save i Converter.options = Encoded d →
              fs s' !! (out ++ rel) = Some (File d)).
Proof.
  intros Hs [n Hn].
  destruct (fresh_mkdir s Hs) as (σ1 & Hrun & HI & _ & _ & Hwalk).
  unfold Converter.process_jpeg_files. run_m.
  unfold exists_. rewrite Hs, Hn. simpl. rewrite Hrun. simpl.
  destruct (conv_loop σ0 inp out (fr_wf _ _ _ Hfresh) (fr_disjoint _ _ _ Hfresh)
              (glob_all σ1 inp) (set_fs σ1 s))
    as (s' & Hloop & HI' & Hlog & _ & Hd & Hf);
    [done | apply Hwalk | by apply is_walk_entries_ok |].
  exists s', (glob_all σ1 inp). rewrite Hloop.
  split_and!; [done | done | done | done | |].
  - intros rel Hrel Hdir. apply Hd; [| done]. apply Hwalk.
    rewrite Hdir. eauto.
  - intros rel data i d Hrel Hdata. apply Hf; [| done]. apply Hwalk.
    rewrite Hdata. eauto.
Qed.

(** A run of the compressor. *)
Lemma comp_run (s : state) (quality : Z) :
  fs s = σ0 →
  ∃ s' l, Compressor.compress_jpeg inp out quality s = (Return tt, s') ∧
      is_walk σ0 inp l ∧ mirror_inv σ0 inp out (fs s') ∧
      above_a_file σ0 inp out (fs s') ∧
      log s' = log s ++ concat (map (comp_records σ0 inp out quality) l) ∧
      (∀ rel, rel ≠ [] → is_file σ0 (inp ++ rel) = true →
              fs s' !! (out ++ parent rel) = Some Dir) ∧
      (∀ rel data i d, rel ≠ [] →
              σ0 !! (inp ++ rel) = Some (File data) →
              is_jpeg_name (inp ++ rel) = true →
              pil_open data = inr i →
              pil_save i (Compressor.options quality) = Encoded d →
              fs s' !! (out ++ rel) = Some (File d)).
Proof.
  intros Hs.
  destruct (fresh_mkdir s Hs) as (σ1 & Hrun & HI & HA & _ & Hwalk).
  unfold Compressor.compress_jpeg. run_m. rewrite Hrun. simpl.
  destruct (comp_loop σ0 inp out (fr_wf _ _ _ Hfresh) (fr_disjoint _ _ _ Hfresh)
              (glob_all σ1 inp) (set_fs σ1 s) quality)
    as (s' & Hloop & HI' & HA' & Hlog & _ & _ & Hd & Hf);
    [done | done | apply Hwalk | by apply is_walk_entries_ok |].
  exists s', (glob_all σ1 inp). rewrite Hloop.
  split_and!; [done | done | done | done | done | |].
  - intros rel Hrel Hfile. apply Hd; [| done]. apply Hwalk.
    apply is_file_true in Hfile as [c Hc]. rewrite Hc. eauto.
  - intros rel data i d Hrel Hdata. apply Hf; [| done]. apply Hwalk.
    rewrite Hdata. eauto.
Qed.
End Runs.

(** ** The instances meet their specifications *)

Lemma glob_keys_spec : walk_spec glob_keys.
Proof.
  intros σ root _. unfold glob_all, glob_keys. split.
  - apply NoDup_filter, NoDup_fst_map_to_list.
  - intros p. rewrite list_elem_of_filter, bool_decide_spec, list_elem_of_fmap.
    split.
    + intros [[[k Hk] Hne] ([q n] & Hq & Hin)]. simpl in Hq. subst q p.
      apply elem_of_map_to_list in Hin. split; [eauto |].
      exists k. split; [| done]. intros ->. by rewrite app_nil_r in Hne.
    + intros [[n Hn] (rel & Hrel & ->)]. split.
      * split; [by apply prefix_app_r |].
        intros He. apply Hrel. apply (app_inv_head root). by rewrite app_nil_r.
      * exists (root ++ rel, n). split; [done |]. by apply elem_of_map_to_list.
Qed.

Lemma fresh_run_check_sound σ0 (inp out : path) :
  fresh_run_check σ0 inp out = true → fresh_run σ0 inp out.
Proof.
  unfold fresh_run_check. rewrite !andb_true_iff, !negb_true_iff.
  rewrite !bool_decide_eq_false, !forallb_forall.
  intros [[[[[Hroot Hpar] Hio] Hoi] Hcre] Hemp].
  apply is_dir_true in Hroot. split.
  - split; [done |]. intros p x [n Hn].
    apply is_dir_true. rewrite <- (parent_snoc p x).
    apply (Hpar (p ++ [x], n)). apply list_elem_of_In.
    by apply elem_of_map_to_list.
  - done.
  - intros q Hq. apply negb_true_iff.
    assert (q = take (length q) out) as ->.
    { destruct Hq as [k ->]. by rewrite take_app_length. }
    apply Hcre. apply in_seq. apply prefix_length in Hq. lia.
  - intros rel Hrel. destruct (σ0 !! (out ++ rel)) as [n|] eqn:Hn; [| done].
    exfalso. apply Hrel. apply (app_inv_head out). rewrite app_nil_r.
    assert (Hin : In (out ++ rel, n) (map_to_list σ0)).
    { apply list_elem_of_In. by apply elem_of_map_to_list. }
    apply Hemp in Hin. apply bool_decide_eq_true in Hin. apply Hin.
    by apply prefix_app_r.
Qed.

(** * The properties of the specification *)

(** ** Mirrored directories *)

(** C2, as amended.  From an input root that is a directory, into a fresh
    output root apart from it: the converter ends with a directory at a
    relative path under the output root exactly where the input root has one;
    the compressor ends with the output root and, below it, exactly the
    directories that lie above some regular file of the input tree (of any
    extension), so a directory with no file anywhere below it has no
    mirror. *)
Theorem C2_mirrored_directories `{Codec} (W : Walk) σ0 (inp out : path) (quality : Z) :
  walk_spec W → fresh_run σ0 inp out → is_dir σ0 inp = true →
  (∃ s', Converter.process_jpeg_files inp out (init σ0) = (Return tt, s') ∧
         ∀ rel : path, is_dir (fs s') (out ++ rel) = is_dir σ0 (inp ++ rel)) ∧
  (∃ s', Compressor.compress_jpeg inp out quality (init σ0) = (Return tt, s') ∧
         ∀ rel : path,
           is_dir (fs s') (out ++ rel) = true ↔
           rel = [] ∨ ∃ rest : path,
                        rest ≠ [] ∧ is_file σ0 (inp ++ rel ++ rest) = true).
Proof.
  intros HW Hfresh Hinp. apply is_dir_true in Hinp. split.
  - destruct (conv_run W σ0 inp out HW Hfresh (init σ0))
      as (s' & l & Hrun & _ & HI & _ & Hd & _); [done | by rewrite Hinp |].
    exists s'. split; [done |]. intros rel.
    destruct (decide (rel = [])) as [-> | Hrel].
    { rewrite !app_nil_r. unfold is_dir. by rewrite (inv_root _ _ _ _ HI), Hinp. }
    destruct (is_dir σ0 (inp ++ rel)) eqn:H0.
    + apply is_dir_true. apply Hd; [done |]. by apply is_dir_true.
    + destruct (is_dir (fs s') (out ++ rel)) eqn:H1; [| done].
      apply is_dir_true in H1. apply (inv_dir _ _ _ _ HI) in H1 as [? | H1]; [done |].
      apply is_dir_true in H1. congruence.
  - destruct (comp_run W σ0 inp out HW Hfresh (init σ0) quality)
      as (s' & l & Hrun & _ & HI & HA & _ & Hd & _); [done |].
    exists s'. split; [done |]. intros rel. rewrite is_dir_true. split.
    + apply HA.
    + intros [-> | (rest & Hrest & Hfile)].
      { rewrite app_nil_r. apply HI. }
      assert (Hpar : fs s' !! (out ++ parent (rel ++ rest)) = Some Dir).
      { apply Hd; [| done]. intros He. by apply app_eq_nil in He as [_ ?]. }
      rewrite parent_app in Hpar by done.
      destruct (decide (parent rest = [])) as [He | Hne].
      { by rewrite He, app_nil_r in Hpar. }
      eapply wf_ancestor; [apply HI | by rewrite Hpar | |].
      * apply prefix_app, prefix_app_r. done.
      * intros E. apply app_inv_head in E. apply Hne.
        apply (app_inv_head rel). by rewrite app_nil_r.
Qed.

Lemma C2_mirrored_directories_witness :
  (∃ s', @Converter.process_jpeg_files toy_codec glob_keys ["in"] ["out"]
           (init sample_tree) = (Return tt, s') ∧
         ∀ rel : path,
           is_dir (fs s') (["out"] ++ rel) = is_dir sample_tree (["in"] ++ rel)) ∧
  (∃ s', @Compressor.compress_jpeg toy_codec glob_keys ["in"] ["out"] 90
           (init sample_tree) = (Return tt, s') ∧
         ∀ rel : path,
           is_dir (fs s') (["out"] ++ rel) = true ↔
           rel = [] ∨ ∃ rest : path,
             rest ≠ [] ∧ is_file sample_tree (["in"] ++ rel ++ rest) = true).
Proof.
  apply (@C2_mirrored_directories toy_codec glob_keys sample_tree ["in"] ["out"] 90).
  - apply glob_keys_spec.
  - apply fresh_run_check_sound. vm_compute. reflexivity.
  - vm_compute. reflexivity.
Defined.

(** C2, as stated, fails for the compressor: the empty directory [in/empty]
    of [sample_tree] has no mirror under the output root. *)
Lemma C2_counterexample :
  ¬ ∀ rel : path,
      is_dir (fs (@Compressor.compress_jpeg toy_codec glob_keys ["in"] ["out"] 90
                    (init sample_tree)).2) (["out"] ++ rel)
      = is_dir sample_tree (["in"] ++ rel).
Proof.
  intros Hall. specialize (Hall ["empty"]). vm_compute in Hall. discriminate.
Qed.

(** ** Files out of scope *)

Lemma conv_records_error `{Codec} σ0 (inp out p : path) (r : log_record) :
  r ∈ conv_records σ0 inp out p → is_error r = true →
  is_jpeg_name p = true ∧ (msg_path (msg r) = Some p → is_file σ0 p = true).
Proof.
  unfold conv_records, is_file.
  destruct (σ0 !! p) as [[|data]|]; [set_solver | | set_solver].
  destruct (is_jpeg_name p); simpl; [| set_unfold; naive_solver].
  done.
Qed.

Lemma comp_records_error `{Codec} σ0 (inp out p : path) (quality : Z)
    (r : log_record) :
  r ∈ comp_records σ0 inp out quality p → is_error r = true →
  is_jpeg_name p = true.
Proof.
  unfold comp_records.
  destruct (σ0 !! p) as [[|data]|]; [set_unfold; naive_solver | | set_solver].
  destruct (is_jpeg_name p); simpl; [done | set_unfold; naive_solver].
Qed.

Lemma records_about `{Codec} σ0 (inp out p : path) (quality : Z) (r : log_record) :
  r ∈ conv_records σ0 inp out p ∨ r ∈ comp_records σ0 inp out quality p →
  msg_path (msg r) = Some p ∨ msg_path (msg r) = None.
Proof.
  unfold conv_records, comp_records, conv_error_records.
  intros [Hr | Hr]; revert Hr;
    repeat (case_match; simpl); set_unfold; naive_solver.
Qed.

Lemma elem_of_concat_map {A B} (f : A → list B) (l : list A) (y : B) :
  y ∈ concat (map f l) ↔ ∃ x, x ∈ l ∧ y ∈ f x.
Proof.
  induction l as [|a l IH]; simpl.
  - set_solver.
  - rewrite elem_of_app, IH. set_solver.
Qed.

(** C4.  In a run into a fresh output root, for every regular file of the
    input tree whose extension is not [.jpg]/[.jpeg]: nothing exists at its
    mirrored path when the run ends, the log holds the skip record of the file
    (at level INFO in the converter, WARNING in the compressor), and no record
    at level ERROR names the file. *)
Theorem C4_out_of_scope_not_written `{Codec} (W : Walk) σ0 (inp out : path)
    (quality : Z) :
  walk_spec W → fresh_run σ0 inp out → is_Some (σ0 !! inp) →
  (∃ s', Converter.process_jpeg_files inp out (init σ0) = (Return tt, s') ∧
         ∀ rel : path, rel ≠ [] →
           is_file σ0 (inp ++ rel) = true → is_jpeg_name (inp ++ rel) = false →
           fs s' !! (out ++ rel) = None ∧
           rec INFO (Skip_not_jpeg (inp ++ rel)) ∈ log s' ∧
           ∀ r, r ∈ log s' → is_error r = true →
                msg_path (msg r) ≠ Some (inp ++ rel)) ∧
  (∃ s', Compressor.compress_jpeg inp out quality (init σ0) = (Return tt, s') ∧
         ∀ rel : path, rel ≠ [] →
           is_file σ0 (inp ++ rel) = true → is_jpeg_name (inp ++ rel) = false →
           fs s' !! (out ++ rel) = None ∧
           rec WARNING (Not_jpeg (inp ++ rel)) ∈ log s' ∧
           ∀ r, r ∈ log s' → is_error r = true →
                msg_path (msg r) ≠ Some (inp ++ rel)).
Proof.
  intros HW Hfresh Hinp.
  assert (Hnone : ∀ σ' (rel : path), mirror_inv σ0 inp out σ' → rel ≠ [] →
            is_file σ0 (inp ++ rel) = true → is_jpeg_name (inp ++ rel) = false →
            σ' !! (out ++ rel) = None).
  { intros σ' rel HI Hrel Hfile Hj.
    destruct (σ' !! (out ++ rel)) as [[|c]|] eqn:Hl; [| | done].
    - apply (inv_dir _ _ _ _ HI) in Hl as [? | Hl]; [done |].
      apply is_file_true in Hfile as [c Hc]. congruence.
    - apply (inv_file _ _ _ _ HI) in Hl as [_ Hl]. congruence. }
  split.
  - destruct (conv_run W σ0 inp out HW Hfresh (init σ0))
      as (s' & l & Hrun & Hwalk & HI & Hlog & _ & _); [done | done |].
    exists s'. split; [done |]. intros rel Hrel Hfile Hj. simpl in Hlog.
    split_and!; [by apply Hnone | |].
    + rewrite Hlog. apply elem_of_concat_map. exists (inp ++ rel). split.
      * apply Hwalk. apply is_file_true in Hfile as [c Hc]. rewrite Hc. eauto.
      * unfold conv_records. apply is_file_true in Hfile as [c ->].
        rewrite Hj. simpl. set_solver.
    + intros r Hr Herr Habout. rewrite Hlog in Hr.
      apply elem_of_concat_map in Hr as (p & Hp & Hr).
      destruct (records_about σ0 inp out p 0 r (or_introl Hr)) as [E | E];
        [| congruence].
      assert (p = inp ++ rel) as -> by congruence.
      apply conv_records_error in Hr as [Hj' _]; [congruence | done].
  - destruct (comp_run W σ0 inp out HW Hfresh (init σ0) quality)
      as (s' & l & Hrun & Hwalk & HI & _ & Hlog & _ & _); [done |].
    exists s'. split; [done |]. intros rel Hrel Hfile Hj. simpl in Hlog.
    split_and!; [by apply Hnone | |].
    + rewrite Hlog. apply elem_of_concat_map. exists (inp ++ rel). split.
      * apply Hwalk. apply is_file_true in Hfile as [c Hc]. rewrite Hc. eauto.
      * unfold comp_records. apply is_file_true in Hfile as [c ->].
        rewrite Hj. simpl. set_solver.
    + intros r Hr Herr Habout. rewrite Hlog in Hr.
      apply elem_of_concat_map in Hr as (p & Hp & Hr).
      destruct (records_about σ0 inp out p quality r (or_intror Hr)) as [E | E];
        [| congruence].
      assert (p = inp ++ rel) as -> by congruence.
      apply comp_records_error in Hr; [congruence | done].
Qed.

Lemma C4_out_of_scope_not_written_witness :
  (∃ s', @Converter.process_jpeg_files toy_codec glob_keys ["in"] ["out"]
           (init sample_tree) = (Return tt, s') ∧
         ∀ rel : path, rel ≠ [] →
           is_file sample_tree (["in"] ++ rel) = true →
           is_jpeg_name (["in"] ++ rel) = false →
           fs s' !! (["out"] ++ rel) = None ∧
           rec INFO (Skip_not_jpeg (["in"] ++ rel)) ∈ log s' ∧
           ∀ r, r ∈ log s' → is_error r = true →
                msg_path (msg r) ≠ Some (["in"] ++ rel)) ∧
  (∃ s', @Compressor.compress_jpeg toy_codec glob_keys ["in"] ["out"] 90
           (init sample_tree) = (Return tt, s') ∧
         ∀ rel : path, rel ≠ [] →
           is_file sample_tree (["in"] ++ rel) = true →
           is_jpeg_name (["in"] ++ rel) = false →
           fs s' !! (["out"] ++ rel) = None ∧
           rec WARNING (Not_jpeg (["in"] ++ rel)) ∈ log s' ∧
           ∀ r, r ∈ log s' → is_error r = true →
                msg_path (msg r) ≠ Some (["in"] ++ rel)).
Proof.
  apply (@C4_out_of_scope_not_written toy_codec glob_keys sample_tree ["in"] ["out"] 90).
  - apply glob_keys_spec.
  - apply fresh_run_check_sound. vm_compute. reflexivity.
  - vm_compute. eauto.
Defined.

(** ** The compressor makes the directory before it looks at the extension *)

(** C10.  In the compressor, for a regular file the directory of the mirrored
    path is made first and the extension is tested next: on a file of another
    extension one turn of the loop is that [mkdir] followed by the warning.
    Hence, in a run into a fresh output root, the mirror of the directory of
    every regular file of the input tree exists at the end, whatever the
    extension; and when no file of the tree is JPEG-named, the output tree
    holds no regular file at all. *)
Theorem C10_compressor_makes_parent_first `{Codec} (W : Walk) σ0 (inp out : path)
    (quality : Z) :
  walk_spec W → fresh_run σ0 inp out →
  (∀ (s : state) (rel : path),
     is_dir (fs s) (inp ++ rel) = false → is_jpeg_name (inp ++ rel) = false →
     Compressor.process_entry inp out quality (inp ++ rel) s
     = (mkdir_parents (parent (out ++ rel)) ;; warning (Not_jpeg (inp ++ rel))) s) ∧
  ∃ s', Compressor.compress_jpeg inp out quality (init σ0) = (Return tt, s') ∧
        (∀ rel : path, rel ≠ [] → is_file σ0 (inp ++ rel) = true →
                       is_dir (fs s') (parent (out ++ rel)) = true) ∧
        ((∀ rel : path, is_file σ0 (inp ++ rel) = true →
                        is_jpeg_name (inp ++ rel) = false) →
         ∀ rel : path, is_file (fs s') (out ++ rel) = false).
Proof.
  intros HW Hfresh. split.
  - intros s rel Hd Hj. unfold Compressor.process_entry, path_relative_to.
    rewrite relative_to_app. run_m. by rewrite Hd, Hj.
  - destruct (comp_run W σ0 inp out HW Hfresh (init σ0) quality)
      as (s' & l & Hrun & _ & HI & _ & _ & Hd & _); [done |].
    exists s'. split_and!; [done | |].
    + intros rel Hrel Hfile. apply is_dir_true. rewrite parent_app by done.
      by apply Hd.
    + intros Hnone rel. destruct (is_file (fs s') (out ++ rel)) eqn:Hf; [| done].
      apply is_file_true in Hf as [c Hc].
      apply (inv_file _ _ _ _ HI) in Hc as [Hfile Hj].
      apply Hnone in Hfile. congruence.
Qed.

Lemma C10_compressor_makes_parent_first_witness :
  ∃ s', @Compressor.compress_jpeg toy_codec glob_keys ["in"] ["out"] 90
          (init sample_tree) = (Return tt, s') ∧
        is_dir (fs s') (parent (["out"] ++ ["a"; "note.txt"])) = true.
Proof.
  destruct (@C10_compressor_makes_parent_first toy_codec glob_keys sample_tree
              ["in"] ["out"] 90) as [_ (s' & Hrun & Hdirs & _)].
  - apply glob_keys_spec.
  - apply fresh_run_check_sound. vm_compute. reflexivity.
  - exists s'. split; [exact Hrun |].
    apply (Hdirs ["a"; "note.txt"]); [discriminate | vm_compute; reflexivity].
Defined.

(** ** The input root *)

Lemma wf_creatable_dir σ (p : path) : wf σ → is_dir σ p = true → creatable σ p.
Proof.
  intros Hwf Hd%is_dir_true q Hq. unfold is_file.
  destruct (decide (q = p)) as [-> | Hne]; [by rewrite Hd |].
  erewrite wf_ancestor; eauto.
Qed.

(** C5, as amended.  A missing input root stops the run before anything is
    touched: the converter raises [FileNotFoundError], and [main] of the
    compressor logs one error and returns.  An input root that exists is
    accepted, directory or not; and in a run into a fresh output root no
    failure of the codec on any file stops the run, which returns normally for
    every codec. *)
Theorem C5_input_root `{Codec} (W : Walk) σ0 (inp out module_dir : path)
    (datetime_str answer : string) (quality : Z) :
  (σ0 !! inp = None →
   Converter.process_jpeg_files inp out (init σ0) = (Raise FileNotFoundError, init σ0) ∧
   Compressor.main module_dir datetime_str inp quality answer (init σ0)
   = (Return tt, State σ0 [rec ERROR (Input_missing inp)] [] [])) ∧
  (walk_spec W → fresh_run σ0 inp out → is_Some (σ0 !! inp) →
   (∃ s', Converter.process_jpeg_files inp out (init σ0) = (Return tt, s')) ∧
   (∃ s', Compressor.compress_jpeg inp out quality (init σ0) = (Return tt, s'))).
Proof.
  split.
  - intros Hnone. unfold Converter.process_jpeg_files, Compressor.main.
    run_m. unfold exists_. by rewrite Hnone.
  - intros HW Hfresh Hinp. split.
    + destruct (conv_run W σ0 inp out HW Hfresh (init σ0))
        as (s' & l & Hrun & _); [done | done |]. eauto.
    + destruct (comp_run W σ0 inp out HW Hfresh (init σ0) quality)
        as (s' & l & Hrun & _); [done |]. eauto.
Qed.

Lemma C5_input_root_witness :
  (@Converter.process_jpeg_files toy_codec glob_keys ["nowhere"] ["out"]
     (init sample_tree) = (Raise FileNotFoundError, init sample_tree)) ∧
  (∃ s', @Converter.process_jpeg_files toy_codec glob_keys ["in"] ["out"]
           (init sample_tree) = (Return tt, s')).
Proof.
  split.
  - apply (@C5_input_root toy_codec glob_keys sample_tree ["nowhere"] ["out"]
             ["m"] "t" "y" 90).
    vm_compute. reflexivity.
  - apply (@C5_input_root toy_codec glob_keys sample_tree ["in"] ["out"]
             ["m"] "t" "y" 90).
    + apply glob_keys_spec.
    + apply fresh_run_check_sound. vm_compute. reflexivity.
    + vm_compute. eauto.
Defined.

(** C5, as stated, fails twice.  An input root that is a regular file is not
    rejected: the converter returns normally.  And a missing input root is not
    the only way to stop a run: [mkdir] stands outside the [try], so a regular
    file where a mirrored directory has to go makes the converter raise
    [FileExistsError]. *)
Lemma C5_counterexample :
  (is_dir file_root_tree ["in"] = false ∧
   (@Converter.process_jpeg_files toy_codec glob_keys ["in"] ["out"]
      (init file_root_tree)).1 = Return tt) ∧
  (is_dir blocked_tree ["in"] = true ∧
   (@Converter.process_jpeg_files toy_codec glob_keys ["in"] ["out"]
      (init blocked_tree)).1 = Raise FileExistsError).
Proof. vm_compute. done. Qed.

(** ** The output root *)

(** C6.  In a run into a fresh output root, the output root and all its
    ancestors are directories at the end.  [main] of the compressor, when its
    output root exists (empty or not), logs one warning and returns: the file
    system is as before, so no file was processed.  The converter, when its
    output root is an existing directory (empty or not), goes on to the loop
    over the entries in the same state, without a record. *)
Theorem C6_output_root `{Codec} (W : Walk) σ0 (inp out module_dir : path)
    (datetime_str answer : string) (quality : Z) :
  (walk_spec W → fresh_run σ0 inp out → is_Some (σ0 !! inp) →
   (∃ s', Converter.process_jpeg_files inp out (init σ0) = (Return tt, s') ∧
          ∀ q : path, q `prefix_of` out → is_dir (fs s') q = true) ∧
   (∃ s', Compressor.compress_jpeg inp out quality (init σ0) = (Return tt, s') ∧
          ∀ q : path, q `prefix_of` out → is_dir (fs s') q = true)) ∧
  (∀ s : state,
     exists_ (fs s) inp = true →
     exists_ (fs s) (Compressor.output_root module_dir datetime_str inp quality)
       = true →
     Compressor.main module_dir datetime_str inp quality answer s
     = (Return tt,
        State (fs s)
          (log s ++ [rec WARNING (Output_exists
             (Compressor.output_root module_dir datetime_str inp quality))])
          (open_files s) (console s))) ∧
  (∀ s : state,
     wf (fs s) → exists_ (fs s) inp = true → is_dir (fs s) out = true →
     Converter.process_jpeg_files inp out s
     = for_each (glob_all (fs s) inp) (Converter.process_entry inp out) s).
Proof.
  split_and!.
  - intros HW Hfresh Hinp. split.
    + destruct (conv_run W σ0 inp out HW Hfresh (init σ0))
        as (s' & l & Hrun & _ & HI & _); [done | done |].
      exists s'. split; [done |]. intros q Hq. apply is_dir_true.
      by eapply inv_prefix_out.
    + destruct (comp_run W σ0 inp out HW Hfresh (init σ0) quality)
        as (s' & l & Hrun & _ & HI & _); [done |].
      exists s'. split; [done |]. intros q Hq. apply is_dir_true.
      by eapply inv_prefix_out.
  - intros s Hin Hout. unfold Compressor.main, bind, path_exists.
    rewrite Hin. cbn [negb]. by rewrite Hout.
  - intros s Hwf Hin Hout. unfold Converter.process_jpeg_files. run_m.
    rewrite Hin. simpl.
    destruct (mkdir_parents_ok out s Hwf) as (σ' & Hrun & _ & Hσ').
    { by apply wf_creatable_dir. }
    assert (σ' = fs s) as ->.
    { apply map_eq. intros q. rewrite Hσ'. case_decide as Hq; [| done].
      apply is_dir_true in Hout.
      destruct (decide (q = out)) as [-> | Hne]; [done |].
      symmetry. eapply wf_ancestor; eauto. }
    rewrite Hrun. by destruct s.
Qed.

Lemma C6_output_root_witness :
  (∃ s', @Converter.process_jpeg_files toy_codec glob_keys ["in"] ["out"; "deep"]
           (init sample_tree) = (Return tt, s') ∧
         ∀ q : path, q `prefix_of` ["out"; "deep"] → is_dir (fs s') q = true) ∧
  @Converter.process_jpeg_files toy_codec glob_keys ["in"] ["out"] (init reused_tree)
  = for_each (glob_keys reused_tree ["in"])
      (@Converter.process_entry toy_codec ["in"] ["out"]) (init reused_tree).
Proof.
  split.
  - apply (@C6_output_root toy_codec glob_keys sample_tree ["in"] ["out"; "deep"]
             ["m"] "t" "y" 90).
    + apply glob_keys_spec.
    + apply fresh_run_check_sound. vm_compute. reflexivity.
    + vm_compute. eauto.
  - apply (proj2 (proj2 (@C6_output_root toy_codec glob_keys reused_tree
                            ["in"] ["out"] ["m"] "t" "y" 90)) (init reused_tree)).
    + apply (fr_wf reused_tree ["in"] ["elsewhere"]).
      apply fresh_run_check_sound. vm_compute. reflexivity.
    + vm_compute. reflexivity.
    + vm_compute. reflexivity.
Defined.

(** ** Fault isolation *)

Lemma filter_concat_map {A B} (P : B → bool) (f : A → list B) (l : list A) :
  filter P (concat (map f l)) = concat (map (λ x, filter P (f x)) l).
Proof.
  induction l as [|a l IH]; simpl; [done |]. by rewrite filter_app, IH.
Qed.

Lemma concat_map_all_nil {A B} (f : A → list B) (l : list A) :
  (∀ x, x ∈ l → f x = []) → concat (map f l) = [].
Proof.
  induction l as [|a l IH]; intros Hf; simpl; [done |].
  rewrite Hf, IH; [done | | left]. intros x Hx. apply Hf. by right.
Qed.

(** When one element only contributes, the whole is its contribution. *)
Lemma concat_map_single `{EqDecision A} {B} (f : A → list B) (l : list A) (x : A) :
  NoDup l → x ∈ l → (∀ y, y ∈ l → y ≠ x → f y = []) → concat (map f l) = f x.
Proof.
  induction l as [|a l IH]; intros Hnd Hx Hf; [by apply elem_of_nil in Hx |].
  apply NoDup_cons in Hnd as [Ha Hnd]. simpl.
  destruct (decide (a = x)) as [-> | Hne].
  - rewrite (concat_map_all_nil f l), ?app_nil_r; [done |].
    intros y Hy. apply Hf; [by right |]. by intros ->.
  - apply elem_of_cons in Hx as [-> | Hx]; [done |].
    rewrite (Hf a); [| left | done]. simpl. apply IH; [done | done |].
    intros y Hy. apply Hf. by right.
Qed.

(** Counting the elements that contribute one item each. *)
Lemma length_concat_map_count `{EqDecision A} {B} (f : A → list B) (J : A → bool)
    (l : list A) (x : A) (n : nat) :
  NoDup l → x ∈ l → J x = true → f x = [] →
  (∀ y, y ∈ l → y ≠ x → length (f y) = if J y then 1 else 0) →
  length (filter J l) = S n →
  length (concat (map f l)) = n.
Proof.
  revert n. induction l as [|a l IH]; intros n Hnd Hx HJ Hfx Hf Hlen;
    [by apply elem_of_nil in Hx |].
  apply NoDup_cons in Hnd as [Ha Hnd]. simpl. rewrite length_app.
  destruct (decide (a = x)) as [-> | Hne].
  - rewrite Hfx. simpl. rewrite filter_cons_True in Hlen by by apply Is_true_true_2.
    simpl in Hlen. injection Hlen as Hlen. rewrite <- Hlen. clear Hlen.
    assert (Hall : ∀ y, y ∈ l → length (f y) = if J y then 1 else 0).
    { intros y Hy. apply Hf; [by right |]. by intros ->. }
    clear -Hall. induction l as [|b l IH]; [done |].
    simpl. rewrite length_app, (Hall b) by left.
    rewrite IH by (intros y Hy; apply Hall; by right).
    destruct (J b) eqn:Hb.
    + rewrite filter_cons_True by by apply Is_true_true_2. done.
    + rewrite filter_cons_False by by apply Is_true_false_2. done.
  - apply elem_of_cons in Hx as [-> | Hx]; [done |].
    rewrite (Hf a) by (by left || done).
    destruct (J a) eqn:Hja.
    + rewrite filter_cons_True in Hlen by by apply Is_true_true_2.
      simpl in Hlen. injection Hlen as Hlen.
      destruct n as [|n].
      { exfalso. assert (x ∈ filter J l) as Hin.
        { apply list_elem_of_filter. split; [by apply Is_true_true_2 | done]. }
        destruct (filter J l); [by apply elem_of_nil in Hin | done]. }
      rewrite (IH n); [done .. | | done].
      intros y Hy. apply Hf. by right.
    + rewrite filter_cons_False in Hlen by by apply Is_true_false_2.
      rewrite (IH n); [done .. | | done].
      intros y Hy. apply Hf. by right.
Qed.

Section FaultIsolation.
Context `{Codec}.
Variables (σ0 : gmap path node) (inp out relbad : path) (cbad : content).
Variable quality : Z.
Hypothesis Hbad : σ0 !! (inp ++ relbad) = Some (File cbad).
Hypothesis Hbadj : is_jpeg_name (inp ++ relbad) = true.
Hypothesis Hcorrupt : corrupt cbad.
Hypothesis Hvalid : ∀ (rel : path) (c : content),
  rel ≠ [] → rel ≠ relbad →
  σ0 !! (inp ++ rel) = Some (File c) → is_jpeg_name (inp ++ rel) = true →
  valid_jpeg Converter.options c ∧ valid_jpeg (Compressor.options quality) c.

Local Abbreviation J := (λ p : path, is_file σ0 p && is_jpeg_name p).

Lemma conv_records_bad (P : log_record → bool) :
  filter P (conv_records σ0 inp out (inp ++ relbad))
  = filter P [rec ERROR (Err_unrecognized (inp ++ relbad));
              LogRecord ERROR (Exc UnidentifiedImageError) true].
Proof.
  unfold conv_records. rewrite Hbad, Hbadj. simpl.
  unfold corrupt in Hcorrupt. by rewrite Hcorrupt.
Qed.

Lemma comp_records_bad (P : log_record → bool) :
  filter P (comp_records σ0 inp out quality (inp ++ relbad))
  = filter P [LogRecord ERROR
                (Err_handling (inp ++ relbad) UnidentifiedImageError) true].
Proof.
  unfold comp_records. rewrite Hbad, Hbadj. simpl.
  unfold corrupt in Hcorrupt. by rewrite Hcorrupt.
Qed.

Lemma conv_records_good (rel : path) :
  rel ≠ [] → rel ≠ relbad →
  filter is_error (conv_records σ0 inp out (inp ++ rel)) = [] ∧
  filter is_unreadable (conv_records σ0 inp out (inp ++ rel)) = [] ∧
  length (filter is_saved (conv_records σ0 inp out (inp ++ rel)))
  = if J (inp ++ rel) then 1 else 0.
Proof.
  intros Hrel Hne. unfold conv_records, is_file.
  destruct (σ0 !! (inp ++ rel)) as [[|c]|] eqn:Hl; [done | | done].
  destruct (is_jpeg_name (inp ++ rel)) eqn:Hj; simpl; [| done].
  destruct (Hvalid rel c Hrel Hne Hl Hj) as [(_ & i & d & Ho & Hs) _].
  by rewrite Ho, Hs.
Qed.

Lemma comp_records_good (rel : path) :
  rel ≠ [] → rel ≠ relbad →
  filter is_error (comp_records σ0 inp out quality (inp ++ rel)) = [] ∧
  filter is_unreadable (comp_records σ0 inp out quality (inp ++ rel)) = [] ∧
  length (filter is_saved (comp_records σ0 inp out quality (inp ++ rel)))
  = if J (inp ++ rel) then 1 else 0.
Proof.
  intros Hrel Hne. unfold comp_records, is_file.
  destruct (σ0 !! (inp ++ rel)) as [[|c]|] eqn:Hl; [done | | done].
  destruct (is_jpeg_name (inp ++ rel)) eqn:Hj; simpl; [| done].
  destruct (Hvalid rel c Hrel Hne Hl Hj) as [_ (Hc & i & d & Ho & Hs)].
  rewrite Ho, Hs. destruct c; [done |]. done.
Qed.

(** What the log of a run holds, from the records of the entries. *)
Lemma fault_isolation_log (records : path → list log_record)
    (l : list path) (N : nat) (errs unread : list log_record) :
  is_walk σ0 inp l → relbad ≠ [] →
  length (filter J l) = S N →
  filter is_saved (records (inp ++ relbad)) = [] →
  filter is_error (records (inp ++ relbad)) = errs →
  filter is_unreadable (records (inp ++ relbad)) = unread →
  (∀ rel, rel ≠ [] → rel ≠ relbad →
     filter is_error (records (inp ++ rel)) = [] ∧
     filter is_unreadable (records (inp ++ rel)) = [] ∧
     length (filter is_saved (records (inp ++ rel)))
     = if J (inp ++ rel) then 1 else 0) →
  length (filter is_saved (concat (map records l))) = N ∧
  filter is_error (concat (map records l)) = errs ∧
  filter is_unreadable (concat (map records l)) = unread.
Proof.
  intros [Hnd Hl] Hrelbad Hlen Hs He Hu Hgood.
  assert (Hin : inp ++ relbad ∈ l).
  { apply Hl. rewrite Hbad. eauto. }
  assert (Hother : ∀ y, y ∈ l → y ≠ inp ++ relbad →
            ∃ rel, y = inp ++ rel ∧ rel ≠ [] ∧ rel ≠ relbad).
  { intros y [_ (rel & Hrel & ->)]%Hl Hne. exists rel.
    split_and!; [done | done | by intros ->]. }
  rewrite (filter_concat_map is_saved records l),
    (filter_concat_map is_error records l),
    (filter_concat_map is_unreadable records l). split_and!.
  - apply (length_concat_map_count (λ p, filter is_saved (records p)) J l
             (inp ++ relbad)); try done.
    + unfold is_file. by rewrite Hbad, Hbadj.
    + intros y Hy Hne. destruct (Hother y Hy Hne) as (rel & -> & Hrel & Hne').
      by apply Hgood.
  - rewrite <- He.
    apply (concat_map_single (λ p, filter is_error (records p)) l (inp ++ relbad));
      [done | done |].
    intros y Hy Hne. destruct (Hother y Hy Hne) as (rel & -> & Hrel & Hne').
    by apply Hgood.
  - rewrite <- Hu.
    apply (concat_map_single (λ p, filter is_unreadable (records p)) l
             (inp ++ relbad)); [done | done |].
    intros y Hy Hne. destruct (Hother y Hy Hne) as (rel & -> & Hrel & Hne').
    by apply Hgood.
Qed.
End FaultIsolation.

(** C1.  A run into a fresh output root over a tree whose JPEG-named files
    are [N] valid files and one file that the codec does not recognise
    returns normally, in the converter and in the compressor alike: the log
    holds [N] records of a file written, each valid file has its output file
    at the mirrored path, and the records at level ERROR are those of the one
    unreadable file and nothing else. *)
Theorem C1_fault_isolation `{Codec} (W : Walk) σ0 (inp out relbad : path)
    (cbad : content) (quality : Z) (N : nat) :
  walk_spec W → fresh_run σ0 inp out → is_Some (σ0 !! inp) →
  relbad ≠ [] →
  σ0 !! (inp ++ relbad) = Some (File cbad) →
  is_jpeg_name (inp ++ relbad) = true →
  corrupt cbad →
  (∀ (rel : path) (c : content),
     rel ≠ [] → rel ≠ relbad →
     σ0 !! (inp ++ rel) = Some (File c) → is_jpeg_name (inp ++ rel) = true →
     valid_jpeg Converter.options c ∧ valid_jpeg (Compressor.options quality) c) →
  length (Counter.select_jpeg σ0 (glob_all σ0 inp)) = S N →
  (∃ s', Converter.process_jpeg_files inp out (init σ0) = (Return tt, s') ∧
         length (filter is_saved (log s')) = N ∧
         (∀ (rel : path) (c : content),
            rel ≠ [] → rel ≠ relbad →
            σ0 !! (inp ++ rel) = Some (File c) →
            is_jpeg_name (inp ++ rel) = true →
            is_file (fs s') (out ++ rel) = true) ∧
         filter is_error (log s')
         = [rec ERROR (Err_unrecognized (inp ++ relbad));
            LogRecord ERROR (Exc UnidentifiedImageError) true] ∧
         filter is_unreadable (log s')
         = [rec ERROR (Err_unrecognized (inp ++ relbad))]) ∧
  (∃ s', Compressor.compress_jpeg inp out quality (init σ0) = (Return tt, s') ∧
         length (filter is_saved (log s')) = N ∧
         (∀ (rel : path) (c : content),
            rel ≠ [] → rel ≠ relbad →
            σ0 !! (inp ++ rel) = Some (File c) →
            is_jpeg_name (inp ++ rel) = true →
            is_file (fs s') (out ++ rel) = true) ∧
         filter is_error (log s')
         = [LogRecord ERROR (Err_handling (inp ++ relbad) UnidentifiedImageError)
              true] ∧
         filter is_unreadable (log s')
         = [LogRecord ERROR (Err_handling (inp ++ relbad) UnidentifiedImageError)
              true]).
Proof.
  intros HW Hfresh Hinp Hrelbad Hbad Hbadj Hcorrupt Hvalid Hcount.
  assert (Hwalk0 : is_walk σ0 inp (glob_all σ0 inp)) by (apply HW, Hfresh).
  assert (Hlen : ∀ l, is_walk σ0 inp l →
            length (filter (λ p : path, is_file σ0 p && is_jpeg_name p) l) = S N).
  { intros l Hl. rewrite <- Hcount. unfold Counter.select_jpeg.
    apply Permutation_length, filter_Permutation. by eapply is_walk_perm. }
  split.
  - destruct (conv_run W σ0 inp out HW Hfresh (init σ0))
      as (s' & l & Hrun & Hwalk & HI & Hlog & _ & Hf); [done | done |].
    exists s'. simpl in Hlog. rewrite Hlog.
    destruct (fault_isolation_log σ0 inp relbad cbad Hbad Hbadj
                (conv_records σ0 inp out) l N
                [rec ERROR (Err_unrecognized (inp ++ relbad));
                 LogRecord ERROR (Exc UnidentifiedImageError) true]
                [rec ERROR (Err_unrecognized (inp ++ relbad))])
      as (Hs & He & Hu); try done.
    + by apply Hlen.
    + by rewrite (conv_records_bad σ0 inp out relbad cbad Hbad Hbadj Hcorrupt).
    + by rewrite (conv_records_bad σ0 inp out relbad cbad Hbad Hbadj Hcorrupt).
    + by rewrite (conv_records_bad σ0 inp out relbad cbad Hbad Hbadj Hcorrupt).
    + intros rel Hrel Hne. by eapply conv_records_good.
    + split_and!; [done | done | | done | done].
      intros rel c Hrel Hne Hc Hj.
      destruct (Hvalid rel c Hrel Hne Hc Hj) as [(_ & i & d & Ho & Hsv) _].
      apply is_file_true. exists d. by eapply Hf.
  - destruct (comp_run W σ0 inp out HW Hfresh (init σ0) quality)
      as (s' & l & Hrun & Hwalk & HI & _ & Hlog & _ & Hf); [done |].
    exists s'. simpl in Hlog. rewrite Hlog.
    destruct (fault_isolation_log σ0 inp relbad cbad Hbad Hbadj
                (comp_records σ0 inp out quality) l N
                [LogRecord ERROR
                   (Err_handling (inp ++ relbad) UnidentifiedImageError) true]
                [LogRecord ERROR
                   (Err_handling (inp ++ relbad) UnidentifiedImageError) true])
      as (Hs & He & Hu); try done.
    + by apply Hlen.
    + by rewrite (comp_records_bad σ0 inp out relbad cbad quality Hbad Hbadj Hcorrupt).
    + by rewrite (comp_records_bad σ0 inp out relbad cbad quality Hbad Hbadj Hcorrupt).
    + by rewrite (comp_records_bad σ0 inp out relbad cbad quality Hbad Hbadj Hcorrupt).
    + intros rel Hrel Hne. by eapply comp_records_good.
    + split_and!; [done | done | | done | done].
      intros rel c Hrel Hne Hc Hj.
      destruct (Hvalid rel c Hrel Hne Hc Hj) as [_ (_ & i & d & Ho & Hsv)].
      apply is_file_true. exists d. by eapply Hf.
Qed.

Lemma lookup_in_list (σ : gmap path node) (p : path) (n : node) :
  σ !! p = Some n → In (p, n) (map_to_list σ).
Proof. intros Hl. apply list_elem_of_In. by apply elem_of_map_to_list. Qed.

Lemma lookup_cases (σ : gmap path node) (l : list (path * node)) :
  map_to_list σ = l → ∀ (p : path) (n : node), σ !! p = Some n → In (p, n) l.
Proof. intros <- p n Hl. by apply lookup_in_list. Qed.

Lemma C1_fault_isolation_witness :
  ∃ s', @Converter.process_jpeg_files toy_codec glob_keys ["in"] ["out"]
          (init sample_tree) = (Return tt, s') ∧
        length (filter is_saved (log s')) = 2 ∧
        filter is_unreadable (log s')
        = [rec ERROR (Err_unrecognized ["in"; "bad.jpg"])].
Proof.
  destruct (@C1_fault_isolation toy_codec glob_keys sample_tree ["in"] ["out"]
              ["bad.jpg"] junk_bytes 90 2)
    as [(s' & Hrun & Hn & _ & _ & Hu) _].
  - apply glob_keys_spec.
  - apply fresh_run_check_sound. vm_compute. reflexivity.
  - vm_compute. eauto.
  - discriminate.
  - vm_compute. reflexivity.
  - vm_compute. reflexivity.
  - vm_compute. reflexivity.
  - intros rel c Hrel Hne Hl Hj.
    eapply lookup_cases in Hl; [| vm_compute; reflexivity].
    simpl in Hl.
    repeat (destruct Hl as [Hl | Hl]); try (exfalso; exact Hl);
      try discriminate Hl; injection Hl as <- <-;
      try (exfalso; apply Hne; reflexivity);
      try (exfalso; revert Hj; vm_compute; discriminate);
      (split; (split; [discriminate | eexists _, _; split; reflexivity])).
  - vm_compute. reflexivity.
  - exists s'. split; [exact Hrun |]. split; [exact Hn | exact Hu].
Defined.

(** ** The extension test *)

Lemma string_length_app (s t : string) :
  String.length (s +:+ t) = String.length s + String.length t.
Proof. induction s as [|a s IH]; simpl; [done | by rewrite IH]. Qed.

Lemma substring_app_r (pre rest : string) :
  substring (String.length pre) (String.length rest) (pre +:+ rest) = rest.
Proof.
  induction pre as [|a pre IH]; [| exact IH].
  change ("" +:+ rest) with rest. simpl String.length.
  induction rest as [|b rest IH]; simpl; [done | by rewrite IH].
Qed.

Lemma rfind_Some (c : ascii) (s : string) (i : nat) :
  rfind c s = Some i →
  ∃ pre post, s = pre +:+ String c post ∧ String.length pre = i ∧
              rfind c post = None.
Proof.
  revert i. induction s as [|a s IH]; intros i; simpl; [done |].
  destruct (rfind c s) as [j|] eqn:Hj.
  - intros [= <-]. destruct (IH j eq_refl) as (pre & post & -> & Hlen & Hn).
    exists (String a pre), post. simpl. by rewrite Hlen.
  - destruct (Ascii.eqb a c) eqn:Hac; [| done]. intros [= <-].
    apply Ascii.eqb_eq in Hac as ->. by exists "", s.
Qed.

Lemma rfind_app (c : ascii) (pre post : string) :
  rfind c post = None →
  rfind c (pre +:+ String c post) = Some (String.length pre).
Proof.
  intros Hn. induction pre as [|a pre IH]; simpl.
  - by rewrite Hn, Ascii.eqb_refl.
  - by rewrite IH.
Qed.

(** The suffix is the part from the last dot on, when the dot is neither the
    first nor the last character. *)
Lemma suffix_split (pre post : string) :
  rfind "." post = None →
  suffix (pre +:+ String "." post)
  = if decide (pre ≠ "" ∧ post ≠ "") then String "." post else "".
Proof.
  intros Hn. unfold suffix. rewrite (rfind_app _ _ _ Hn).
  rewrite string_length_app. simpl.
  replace (String.length pre + S (String.length post) - String.length pre)
    with (String.length (String "." post)) by (simpl; lia).
  rewrite substring_app_r.
  destruct pre as [|a pre], post as [|b post]; simpl;
    repeat case_decide; try naive_solver.
  - replace (String.length pre + 1 - 0) with (S (String.length pre)) by lia.
    replace (S (String.length pre) <? S (String.length pre))%nat with false; [done |].
    symmetry. apply Nat.ltb_ge. lia.
  - replace (S (String.length pre) <? String.length pre + S (S (String.length post)) - 0)%nat
      with true; [done |].
    symmetry. apply Nat.ltb_lt. lia.
Qed.

Lemma lower_ascii_dot (c : ascii) : lower_ascii c = "."%char ↔ c = "."%char.
Proof.
  split; [| by intros ->].
  destruct c as [[] [] [] [] [] [] [] []]; vm_compute; congruence.
Qed.

Lemma rfind_lower (s : string) : rfind "." (lower s) = rfind "." s.
Proof.
  induction s as [|a s IH]; simpl; [done |]. rewrite IH.
  destruct (rfind "." s); [done |].
  destruct (Ascii.eqb a ".") eqn:Ha.
  - apply Ascii.eqb_eq in Ha as ->. done.
  - destruct (Ascii.eqb (lower_ascii a) ".") eqn:Hb; [| done].
    apply Ascii.eqb_eq, lower_ascii_dot in Hb as ->. done.
Qed.

(** A name passes the test exactly when it is a non-empty base followed by
    [.jpg] or [.jpeg] in any mix of cases. *)
Lemma is_jpeg_name_spec (p : path) :
  is_jpeg_name p = true ↔
  ∃ base ext : string,
    name p = base +:+ ext ∧ base ≠ "" ∧ (lower ext = ".jpg" ∨ lower ext = ".jpeg").
Proof.
  unfold is_jpeg_name. simpl. rewrite !orb_true_iff, !String.eqb_eq.
  split.
  - intros Hs.
    destruct (rfind "." (name p)) as [i|] eqn:Hi.
    2: { unfold suffix in Hs. rewrite Hi in Hs. simpl in Hs. naive_solver. }
    apply rfind_Some in Hi as (pre & post & Hnm & Hlen & Hn).
    rewrite Hnm, (suffix_split _ _ Hn) in Hs.
    case_decide as Hd; [| simpl in Hs; naive_solver].
    exists pre, (String "." post). split_and!; [done | apply Hd |].
    destruct Hs as [Hs | [Hs | Hs]]; [by left | by right | done].
  - intros (base & ext & Hnm & Hbase & Hext).
    assert (∃ post, ext = String "." post ∧ post ≠ "" ∧ rfind "." post = None)
      as (post & -> & Hpost & Hn).
    { destruct ext as [|d post]; [by destruct Hext |].
      assert (d = "."%char) as ->.
      { apply lower_ascii_dot. simpl in Hext. destruct Hext; congruence. }
      exists post. split_and!; [done | |].
      - intros ->. simpl in Hext. destruct Hext; congruence.
      - rewrite <- rfind_lower.
        simpl in Hext. destruct Hext as [[= ->] | [= ->]]; reflexivity. }
    rewrite Hnm, (suffix_split _ _ Hn). rewrite decide_True by done.
    destruct Hext as [-> | ->]; auto.
Qed.

(** [mkdir] only ever adds directories, on any file system. *)

Lemma adds_dirs_trans σ1 σ2 σ3 : adds_dirs σ1 σ2 → adds_dirs σ2 σ3 → adds_dirs σ1 σ3.
Proof.
  intros H12 H23 q. destruct (H12 q) as [E | [E1 E2]], (H23 q) as [E' | [E1' E2']].
  - left. congruence.
  - right. split; congruence.
  - right. split; congruence.
  - congruence.
Qed.

Lemma same_but_fs_refl (s : state) : same_but_fs s s.
Proof. split_and!; try done. apply adds_dirs_refl. Qed.

Lemma same_but_fs_trans (s1 s2 s3 : state) :
  same_but_fs s1 s2 → same_but_fs s2 s3 → same_but_fs s1 s3.
Proof.
  intros (? & ? & ? & ?) (? & ? & ? & ?).
  split_and!; try congruence. by eapply adds_dirs_trans.
Qed.

Lemma os_mkdir_effect (p : path) (s : state) r s' :
  os_mkdir p s = (r, s') → same_but_fs s s'.
Proof.
  unfold os_mkdir. destruct (fs s !! p) eqn:Hp.
  { intros [= <- <-]. apply same_but_fs_refl. }
  destruct (fs s !! parent p) as [[|c]|]; intros [= <- <-];
    try apply same_but_fs_refl.
  split_and!; try done. intros q. simpl.
  destruct (decide (p = q)) as [<- | Hne].
  - right. by rewrite lookup_insert_eq.
  - left. by rewrite lookup_insert_ne.
Qed.

Lemma mkdir_exist_ok_effect (p : path) (s : state) r s' :
  mkdir_exist_ok p s = (r, s') → same_but_fs s s'.
Proof.
  unfold mkdir_exist_ok, try_except.
  destruct (os_mkdir p s) as [[[]|e] s1] eqn:Hos; apply os_mkdir_effect in Hos.
  - by intros [= <- <-].
  - destruct e; run_m; try (destruct (is_dir (fs s1) p)); by intros [= <- <-].
Qed.

Lemma mkdir_parents_rev_effect (rp : path) (s : state) r s' :
  mkdir_parents_rev rp s = (r, s') → same_but_fs s s'.
Proof.
  revert s r s'. induction rp as [|x rp IH]; intros s r s'.
  - simpl. unfold try_except.
    destruct (os_mkdir [] s) as [[[]|e] s1] eqn:Hos; apply os_mkdir_effect in Hos.
    + by intros [= <- <-].
    + destruct e; run_m; try (destruct (is_dir (fs s1) [])); by intros [= <- <-].
  - cbn [mkdir_parents_rev]. unfold try_except.
    destruct (os_mkdir (rev (x :: rp)) s) as [[[]|e] s1] eqn:Hos;
      apply os_mkdir_effect in Hos.
    + by intros [= <- <-].
    + destruct e;
        try (run_m; try (destruct (is_dir (fs s1) _)); by intros [= <- <-]).
      unfold bind.
      destruct (mkdir_parents_rev rp s1) as [[[]|e] s2] eqn:Hrec;
        apply IH in Hrec.
      * intros Hex%mkdir_exist_ok_effect.
        eapply same_but_fs_trans; [exact Hos |].
        eapply same_but_fs_trans; [exact Hrec | exact Hex].
      * intros [= <- <-]. by eapply same_but_fs_trans.
Qed.

Lemma mkdir_parents_effect (p : path) (s : state) r s' :
  mkdir_parents p s = (r, s') → same_but_fs s s'.
Proof. apply mkdir_parents_rev_effect. Qed.

Lemma adds_dirs_files σ σ' (q : path) : adds_dirs σ σ' → is_file σ' q = is_file σ q.
Proof.
  intros Ha. unfold is_file. destruct (Ha q) as [-> | [-> ->]]; done.
Qed.

Lemma select_jpeg_spec σ (l : list path) (p : path) :
  p ∈ Counter.select_jpeg σ l ↔
  p ∈ l ∧ is_file σ p = true ∧ is_jpeg_name p = true.
Proof.
  unfold Counter.select_jpeg. rewrite list_elem_of_filter.
  rewrite andb_True, !Is_true_true. tauto.
Qed.

(** ** The end of a run, and what a failure leaves in the log *)

(** C7, as amended.  A run that returns ends with one fixed completion record
    (line 122 of the converter, line 118 of the compressor), which carries no
    count; the batch functions return nothing else.  A failure in the [try]
    statement of an entry never leaves it: the statement returns, and the last
    record it adds is at level ERROR with [exc_info=True], that is, with the
    traceback. *)
Theorem C7_completion_record `{Codec} (W : Walk) (inp out module_dir : path)
    (datetime_str answer : string) (quality : Z) :
  (∀ s s', Converter.main inp out s = (Return tt, s') →
           last (log s') = Some (rec INFO Finished)) ∧
  (∀ s s',
     exists_ (fs s) inp = true →
     exists_ (fs s) (Compressor.output_root module_dir datetime_str inp quality)
       = false →
     lower answer = "y" →
     Compressor.main module_dir datetime_str inp quality answer s = (Return tt, s') →
     last (log s') = Some (rec INFO Compress_done)) ∧
  (∀ s p o,
     match Converter.try_body p o s with
     | (Return _, s1) => Converter.transcode p o s = (Return tt, s1)
     | (Raise e, s1) =>
         ∃ s', Converter.transcode p o s = (Return tt, s') ∧
               fs s' = fs s1 ∧
               last (log s') = Some (LogRecord ERROR (Exc e) true)
     end) ∧
  (∀ s p o,
     match Compressor.try_body p o quality s with
     | (Return _, s1) => Compressor.transcode p o quality s = (Return tt, s1)
     | (Raise e, s1) =>
         ∃ s', Compressor.transcode p o quality s = (Return tt, s') ∧
               fs s' = fs s1 ∧
               last (log s') = Some (LogRecord ERROR (Err_handling p e) true)
     end).
Proof.
  split_and!.
  - intros s s'. unfold Converter.main. run_m.
    match goal with |- context [Converter.process_jpeg_files _ _ ?s0] =>
      destruct (Converter.process_jpeg_files inp out s0) as [[[]|e] s1]
    end; [| done].
    intros [= <-]. simpl. apply last_snoc.
  - intros s s' Hin Hout Hy. unfold Compressor.main, bind, path_exists.
    rewrite Hin. cbn [negb]. rewrite Hout, Hy. run_m.
    match goal with |- context [Compressor.compress_jpeg _ _ _ ?s0] =>
      destruct (Compressor.compress_jpeg inp
                  (Compressor.output_root module_dir datetime_str inp quality)
                  quality s0) as [[[]|e] s1]
    end; [| done].
    intros [= <-]. simpl. apply last_snoc.
  - intros s p o. unfold Converter.transcode, try_except.
    destruct (Converter.try_body p o s) as [[[]|e] s1]; [done |].
    rewrite conv_on_error_run. eexists. split; [done |]. simpl. split; [done |].
    destruct e; simpl;
      match goal with |- last (?l ++ [?a; ?b]) = _ =>
        change (last (l ++ ([a] ++ [b])) = Some b); rewrite app_assoc
      end; apply last_snoc.
  - intros s p o. unfold Compressor.transcode, try_except.
    destruct (Compressor.try_body p o quality s) as [[[]|e] s1]; [done |].
    eexists. split; [done |]. simpl. split; [done |]. apply last_snoc.
Qed.

Lemma C7_completion_record_witness :
  last (log (@Converter.main toy_codec glob_keys ["in"] ["out"] (init sample_tree)).2)
  = Some (rec INFO Finished).
Proof.
  apply (proj1 (@C7_completion_record toy_codec glob_keys ["in"] ["out"] ["m"]
                  "t" "y" 90) (init sample_tree)).
  vm_compute. reflexivity.
Defined.

(** C7, as stated, fails: in the run of the converter over [sample_tree] the
    failure of [in/bad.jpg] is logged with its traceback, and the run ends with
    the completion record, which has no count in it. *)
Lemma C7_counterexample :
  existsb (λ r, is_error r && exc_info r)
    (log (@Converter.main toy_codec glob_keys ["in"] ["out"] (init sample_tree)).2)
  = true ∧
  last (log (@Converter.main toy_codec glob_keys ["in"] ["out"] (init sample_tree)).2)
  = Some (rec INFO Finished).
Proof. vm_compute. done. Qed.


(** ** File handles *)

Lemma close_file_open_files (p x : path) (s : state) :
  x ∈ open_files (close_file p s) ↔ x ≠ p ∧ x ∈ open_files s.
Proof.
  unfold close_file. simpl. rewrite list_elem_of_filter.
  rewrite negb_True, bool_decide_spec. tauto.
Qed.

Lemma image_save_open_files `{Codec} (img : opened_image) (dest : path)
    (opts : save_options) (s : state) (x : path) :
  x ∈ open_files (image_save img dest opts s).2 → x ∈ open_files s.
Proof.
  unfold image_save.
  set (s1 := if pil_save_closes (im img) opts then close_file (fp img) s else s).
  assert (Hs1 : x ∈ open_files s1 → x ∈ open_files s).
  { subst s1. destruct (pil_save_closes _ _); [| done].
    by intros [_ ?]%close_file_open_files. }
  clearbody s1.
  destruct (pil_save (im img) opts); [| done |];
    destruct (open_for_writing (fs s1) dest); try done.
  by destruct (exists_ (fs s1) dest).
Qed.

(** [with Image.open(...)] in the compressor: the [try] statement of an entry
    leaves open no handle that was not open before it, whatever the codec
    does. *)
Lemma comp_transcode_releases `{Codec} (s : state) (p o : path) (quality : Z)
    (x : path) :
  x ∈ open_files (Compressor.transcode p o quality s).2 → x ∈ open_files s.
Proof.
  unfold Compressor.transcode, try_except, Compressor.try_body.
  unfold bind at 1. unfold stat_size at 1.
  destruct (fs s !! p) as [[|data]|] eqn:Hp; try done.
  - unfold with_image_open, bind, image_open. by rewrite Hp.
  - unfold with_image_open. unfold bind at 1. unfold image_open. rewrite Hp.
    destruct (pil_open data) as [e | i]; [done |].
    unfold bind at 1.
    match goal with |- context [image_save ?img ?d ?op ?s1] =>
      pose proof (image_save_open_files img d op s1 x) as Hsave;
      destruct (image_save img d op s1) as [[[]|e] s2]
    end; simpl in Hsave.
    + unfold bind, stat_size.
      destruct (fs s2 !! o) as [[|d]|]; simpl;
        try destruct (length data =? 0)%nat; simpl;
        intros [Hne Hx]%close_file_open_files; simpl in Hx;
        apply Hsave, elem_of_app in Hx as [? | ?%list_elem_of_singleton]; done.
    + simpl. intros [Hne Hx]%close_file_open_files.
      apply Hsave, elem_of_app in Hx as [? | ?%list_elem_of_singleton]; done.
Qed.

(** C9 fails on the converter, which binds the opened image to a variable and
    never closes it.  On [cut_tree], whose one file is recognised but stops
    short, the load inside [img.save] raises with the handle still open: the
    converter returns normally, the failure is caught, and the source file
    is still open when the entry, and the run, are over.  The compressor on
    the same tree ends with no file open. *)
Theorem C9_converter_leaves_source_open :
  let conv := @Converter.process_jpeg_files toy_codec glob_keys ["in"] ["out"]
                (init cut_tree) in
  let comp := @Compressor.compress_jpeg toy_codec glob_keys ["in"] ["out"] 90
                (init cut_tree) in
  conv.1 = Return tt ∧
  open_files conv.2 = [["in"; "t.jpg"]] ∧
  comp.1 = Return tt ∧
  open_files comp.2 = [].
Proof. vm_compute. done. Qed.

(** ** The duplicate audit *)

Lemma eqb_decide (a b : string) : String.eqb a b = bool_decide (a = b).
Proof.
  destruct (String.eqb a b) eqn:E.
  - apply String.eqb_eq in E. by rewrite bool_decide_eq_true_2.
  - apply String.eqb_neq in E. by rewrite bool_decide_eq_false_2.
Qed.

Section Assoc.
Context {V : Type} (d : V).

Lemma assoc_upd_keys (f : V → V) (v0 : V) (k : string) (l : list (string * V)) :
  map fst (assoc_upd f v0 k l)
  = if decide (k ∈ map fst l) then map fst l else map fst l ++ [k].
Proof.
  induction l as [|[k' v] l IH]; simpl.
  - done.
  - rewrite eqb_decide. case_bool_decide as Hk; simpl.
    + subst k'. rewrite decide_True; [done | left].
    + rewrite IH. destruct (decide (k ∈ map fst l)) as [Hin | Hin].
      * rewrite decide_True; [done | by right].
      * rewrite decide_False; [done |].
        intros [? | ?]%elem_of_cons; congruence.
Qed.

Lemma assoc_upd_get (f : V → V) (v0 : V) (k k' : string)
    (l : list (string * V)) :
  assoc_get d k' (assoc_upd f v0 k l)
  = if decide (k' = k)
    then (if decide (k ∈ map fst l) then f (assoc_get d k l) else v0)
    else assoc_get d k' l.
Proof.
  induction l as [|[k1 v] l IH]; simpl.
  - rewrite eqb_decide. case_bool_decide; case_decide; congruence.
  - rewrite (eqb_decide k1 k). case_bool_decide as Hk; simpl.
    + subst k1. rewrite (eqb_decide k k').
      case_bool_decide; case_decide; try congruence.
      by rewrite decide_True by left.
    + rewrite IH, !eqb_decide.
      case_bool_decide as H1; case_decide as H2; try done.
      * subst. done.
      * destruct (decide (k ∈ map fst l)) as [Hin | Hin].
        -- rewrite decide_True; [done | by right].
        -- rewrite decide_False; [done |].
           intros [? | ?]%elem_of_cons; congruence.
Qed.

Lemma assoc_elem_of (l : list (string * V)) k v :
  NoDup (map fst l) →
  (k, v) ∈ l ↔ k ∈ map fst l ∧ assoc_get d k l = v.
Proof.
  induction l as [|[k1 v1] l IH]; simpl; intros Hnd.
  - set_solver.
  - apply NoDup_cons in Hnd as [Hk1 Hnd].
    rewrite !elem_of_cons, IH by done. rewrite eqb_decide.
    case_bool_decide as Hk.
    + subst k1. split.
      * intros [[= ->] | [Hin _]]; [auto | done].
      * intros [_ ->]. by left.
    + split.
      * intros [[= -> ->] | [Hin Hg]]; [done | auto].
      * intros [[-> | Hin] Hg]; [done | auto].
Qed.
End Assoc.

Lemma counter_add_upd k c : Counter.counter_add k c = assoc_upd S 1 k c.
Proof.
  induction c as [|[k' n] c IH]; simpl; [done |]. by rewrite IH.
Qed.

Lemma paths_add_upd k f d :
  Counter.paths_add k f d = assoc_upd (λ ps, ps ++ [f]) [f] k d.
Proof.
  induction d as [|[k' ps] d IH]; simpl; [done |]. by rewrite IH.
Qed.

Lemma foldl_snoc {A B} (f : A → B → A) (a : A) (l : list B) (x : B) :
  foldl f a (l ++ [x]) = f (foldl f a l) x.
Proof. by rewrite foldl_app. Qed.

Lemma count_key_snoc k keys k' :
  count_key k (keys ++ [k'])
  = if decide (k = k') then S (count_key k keys) else count_key k keys.
Proof.
  unfold count_key. rewrite filter_app, length_app.
  case_decide as Hk.
  - subst. rewrite filter_cons_True by done. simpl. lia.
  - rewrite filter_cons_False by congruence. simpl. lia.
Qed.

Lemma count_key_pos k keys : k ∈ keys ↔ 0 < count_key k keys.
Proof.
  unfold count_key. induction keys as [|a keys IH].
  - split; [by intros ?%elem_of_nil | simpl; lia].
  - rewrite elem_of_cons, IH. destruct (decide (a = k)) as [-> | Hne].
    + rewrite filter_cons_True by done. simpl. split; [lia | by left].
    + rewrite filter_cons_False by done. split; [| by right].
      intros [-> | ?]; done.
Qed.

Lemma first_index_app_in k keys rest :
  k ∈ keys → first_index k (keys ++ rest) = first_index k keys.
Proof.
  induction keys as [|a keys IH]; [by intros ?%elem_of_nil |].
  simpl. rewrite eqb_decide. case_bool_decide as Ha; [done |].
  intros [? | Hin]%elem_of_cons; [congruence |]. by rewrite IH.
Qed.

Lemma first_index_lt k keys : k ∈ keys → first_index k keys < length keys.
Proof.
  induction keys as [|a keys IH]; [by intros ?%elem_of_nil |].
  simpl. rewrite eqb_decide. case_bool_decide as Ha; [lia |].
  intros [? | Hin]%elem_of_cons; [congruence |]. apply IH in Hin. lia.
Qed.

Lemma first_index_new k keys :
  k ∉ keys → first_index k (keys ++ [k]) = length keys.
Proof.
  induction keys as [|a keys IH]; simpl.
  - by rewrite String.eqb_refl.
  - rewrite eqb_decide. intros Hn. case_bool_decide as Ha.
    + subst. exfalso. apply Hn. left.
    + rewrite IH; [done |]. intros Hin. apply Hn. by right.
Qed.

Lemma StronglySorted_impl {A} (R R' : A → A → Prop) (l : list A) :
  (∀ a b, a ∈ l → b ∈ l → R a b → R' a b) →
  StronglySorted R l → StronglySorted R' l.
Proof.
  induction l as [|x l IH]; intros Himp Hs; [constructor |].
  apply StronglySorted_cons in Hs as [Hx Hs]. apply StronglySorted_cons. split.
  - rewrite Forall_forall in *. intros y Hy.
    apply Himp; [left | by right | by apply Hx].
  - apply IH; [| done]. intros a b Ha Hb. apply Himp; by right.
Qed.

(** The counter: one entry per stem, in the order of first occurrence, with
    the number of occurrences. *)
Lemma counter_of_spec (keys : list string) :
  NoDup (map fst (Counter.counter_of keys)) ∧
  (∀ k, k ∈ map fst (Counter.counter_of keys) ↔ k ∈ keys) ∧
  (∀ k, assoc_get 0 k (Counter.counter_of keys) = count_key k keys) ∧
  StronglySorted (λ a b, first_index a keys < first_index b keys)
    (map fst (Counter.counter_of keys)).
Proof.
  induction keys as [|k keys (Hnd & Hin & Hget & Hsort)] using rev_ind.
  - split_and!; [constructor | done | done | constructor].
  - unfold Counter.counter_of in *. rewrite foldl_snoc, counter_add_upd.
    set (C := foldl (λ c k0, Counter.counter_add k0 c) [] keys) in *.
    rewrite assoc_upd_keys.
    assert (Hsort' : StronglySorted
              (λ a b, first_index a (keys ++ [k]) < first_index b (keys ++ [k]))
              (map fst C)).
    { eapply StronglySorted_impl; [| exact Hsort].
      intros a b Ha%Hin Hb%Hin. by rewrite !first_index_app_in. }
    split_and!.
    + case_decide as Hk; [done |].
      apply NoDup_app. split_and!; [done | | apply NoDup_singleton].
      intros x Hx ->%list_elem_of_singleton. done.
    + intros k'. case_decide as Hk; rewrite ?elem_of_app, Hin.
      * rewrite list_elem_of_singleton. split; [auto |].
        intros [? | ->]; [done | by apply Hin].
      * by rewrite !list_elem_of_singleton.
    + intros k'. rewrite (assoc_upd_get 0), count_key_snoc.
      case_decide as Hk'; [subst k' | done].
      case_decide as Hk; [by rewrite Hget |].
      rewrite Hin in Hk. apply (not_iff_compat (count_key_pos k keys)) in Hk.
      lia.
    + case_decide as Hk; [done |].
      apply StronglySorted_app. split_and!; [| done | repeat constructor].
      intros a b Ha%Hin ->%list_elem_of_singleton.
      rewrite first_index_app_in by done. rewrite first_index_new.
      * by apply first_index_lt.
      * by rewrite <- Hin.
Qed.

Lemma files_with_stem_snoc k files f :
  files_with_stem k (files ++ [f])
  = if decide (stem (name f) = k) then files_with_stem k files ++ [f]
    else files_with_stem k files.
Proof.
  unfold files_with_stem. rewrite filter_app. case_decide.
  - by rewrite filter_cons_True.
  - by rewrite filter_cons_False, app_nil_r.
Qed.

(** The dict of paths: the files of each stem, in the order of the walk. *)
Lemma group_paths_spec (files : list path) :
  (∀ k, k ∈ map fst (Counter.group_paths files)
        ↔ k ∈ map (λ f, stem (name f)) files) ∧
  (∀ k, k ∈ map (λ f, stem (name f)) files →
        assoc_get [] k (Counter.group_paths files) = files_with_stem k files).
Proof.
  induction files as [|f files (Hin & Hget)] using rev_ind.
  - split; [done | by intros k ?%elem_of_nil].
  - unfold Counter.group_paths in *. rewrite foldl_snoc, paths_add_upd.
    set (D := foldl (λ d f0, Counter.paths_add (stem (name f0)) f0 d) [] files) in *.
    rewrite assoc_upd_keys, map_app. simpl. split.
    + intros k. case_decide as Hk; rewrite ?elem_of_app, Hin.
      * rewrite list_elem_of_singleton. split; [auto |].
        intros [? | ->]; [done | by apply Hin].
      * by rewrite !list_elem_of_singleton.
    + intros k Hkin. rewrite (assoc_upd_get []), files_with_stem_snoc.
      case_decide as Hk'; [subst k |].
      * rewrite (decide_True (P := stem (name f) = stem (name f))) by done.
        case_decide as Hk.
        -- rewrite Hget; [done | by apply Hin].
        -- rewrite Hin in Hk. unfold files_with_stem.
           replace (filter (λ f0, stem (name f0) = stem (name f)) files)
             with (@nil path); [done |].
           symmetry. clear -Hk. induction files as [|g files IH]; [done |].
           rewrite filter_cons_False.
           ++ apply IH. intros Hin. apply Hk. by right.
           ++ intros He. apply Hk. rewrite <- He. left.
      * rewrite decide_False by congruence. apply Hget.
        apply elem_of_app in Hkin as [? | ?%list_elem_of_singleton]; done.
Qed.

Lemma insert_desc_perm x l : Counter.insert_desc x l ≡ₚ x :: l.
Proof.
  induction l as [|y l IH]; simpl; [done |].
  destruct (x.2 <? y.2)%nat; [| done]. rewrite IH. apply Permutation_swap.
Qed.

Lemma most_common_perm c : Counter.most_common c ≡ₚ c.
Proof.
  induction c as [|x c IH]; simpl; [done |].
  by rewrite insert_desc_perm, IH.
Qed.

Lemma insert_desc_sorted (idx : string → nat) x l :
  StronglySorted (count_order idx) l →
  Forall (λ b, idx x.1 < idx b.1) l →
  StronglySorted (count_order idx) (Counter.insert_desc x l).
Proof.
  induction l as [|y l IH]; intros Hs Hx; simpl.
  - repeat constructor.
  - apply StronglySorted_cons in Hs as [Hy Hs].
    apply Forall_cons in Hx as [Hxy Hx].
    destruct (x.2 <? y.2)%nat eqn:Hlt.
    + apply Nat.ltb_lt in Hlt. apply StronglySorted_cons. split; [| by apply IH].
      rewrite insert_desc_perm. constructor; [by left | done].
    + apply Nat.ltb_ge in Hlt. apply StronglySorted_cons. split.
      * constructor.
        { unfold count_order. destruct (decide (y.2 = x.2)); [right | left]; lia. }
        rewrite Forall_forall in *. intros z Hz.
        specialize (Hy z Hz). specialize (Hx z Hz). unfold count_order in *.
        destruct (decide (z.2 = x.2)); [right | left]; lia.
      * apply StronglySorted_cons. done.
Qed.

Lemma most_common_sorted (idx : string → nat) c :
  StronglySorted (λ a b, idx a < idx b) (map fst c) →
  StronglySorted (count_order idx) (Counter.most_common c).
Proof.
  induction c as [|x c IH]; simpl; intros Hs; [constructor |].
  apply StronglySorted_cons in Hs as [Hx Hs].
  apply insert_desc_sorted; [by apply IH |].
  rewrite most_common_perm. apply Forall_forall. intros b Hb.
  rewrite Forall_forall in Hx. apply Hx. apply list_elem_of_fmap. by exists b.
Qed.

Lemma StronglySorted_filter {A} (R : A → A → Prop) (P : A → Prop)
    `{∀ x, Decision (P x)} (l : list A) :
  StronglySorted R l → StronglySorted R (filter P l).
Proof.
  induction l as [|x l IH]; intros Hs; [constructor |].
  apply StronglySorted_cons in Hs as [Hx Hs]. rewrite filter_cons.
  case_decide; [| by apply IH].
  apply StronglySorted_cons. split; [| by apply IH].
  rewrite Forall_forall in *. intros y [_ Hy]%list_elem_of_filter. by apply Hx.
Qed.

Lemma StronglySorted_map {A B} (R : B → B → Prop) (f : A → B) (l : list A) :
  StronglySorted (λ a b, R (f a) (f b)) l → StronglySorted R (map f l).
Proof.
  induction l as [|x l IH]; intros Hs; [constructor |].
  apply StronglySorted_cons in Hs as [Hx Hs]. simpl.
  apply StronglySorted_cons. split; [| by apply IH].
  apply Forall_forall. intros y (a & -> & Ha)%list_elem_of_fmap.
  rewrite Forall_forall in Hx. by apply Hx.
Qed.

Lemma dict_get_run d k (s : state) :
  k ∈ map fst d → Counter.dict_get d k s = (Return (assoc_get [] k d), s).
Proof.
  induction d as [|[k' ps] d IH]; simpl; [by intros ?%elem_of_nil |].
  rewrite eqb_decide. case_bool_decide as Hk; [done |].
  intros [? | Hin]%elem_of_cons; [congruence | by apply IH].
Qed.

Lemma table_rows_run d dups (s : state) :
  (∀ kc, kc ∈ dups → kc.1 ∈ map fst d) →
  Counter.table_rows d dups s
  = (Return (map (λ kc, (kc.1, kc.2, assoc_get [] kc.1 d)) dups), s).
Proof.
  induction dups as [|[k c] dups IH]; intros Hin; simpl; [done |].
  unfold bind. rewrite dict_get_run by (apply (Hin (k, c)); left).
  rewrite IH; [done |]. intros kc Hkc. apply Hin. by right.
Qed.

Lemma for_each_info {A} (m : A → message) (l : list A) (s : state) :
  ∃ s', for_each l (λ x, info (m x)) s = (Return tt, s') ∧
        fs s' = fs s ∧ console s' = console s ∧ open_files s' = open_files s.
Proof.
  revert s. induction l as [|x l IH]; intros s; [by exists s |].
  cbn [for_each]. unfold bind.
  destruct (info (m x) s) as [r s1] eqn:E. unfold info, emit in E.
  injection E as <- <-.
  match goal with |- context [for_each l _ ?s1] =>
    destruct (IH s1) as (s' & Hrun & ? & ? & ?) end.
  rewrite Hrun. by exists s'.
Qed.

Lemma log_details_run d dups (s : state) :
  (∀ kc, kc ∈ dups → kc.1 ∈ map fst d) →
  ∃ s', Counter.log_details d dups s = (Return tt, s') ∧
        fs s' = fs s ∧ console s' = console s ∧ open_files s' = open_files s.
Proof.
  unfold Counter.log_details.
  revert s. induction dups as [|[k c] dups IH]; intros s Hin;
    [by exists s |].
  cbn [for_each fst snd]. unfold bind at 1. unfold bind at 1.
  unfold info at 1. unfold emit at 1. cbv beta iota. unfold bind at 1.
  rewrite dict_get_run by (apply (Hin (k, c)); left).
  match goal with |- context [for_each (assoc_get [] k d) ?body ?s1] =>
    destruct (for_each_info Duplicate_path (assoc_get [] k d) s1)
      as (s2 & Hrun & Hf & Hc & Ho) end.
  rewrite Hrun.
  destruct (IH s2) as (s' & Hrun' & ? & ? & ?).
  { intros kc Hkc. apply Hin. by right. }
  rewrite Hrun'. exists s'. simpl in *. split_and!; congruence.
Qed.

Lemma count_key_map k (files : list path) :
  count_key k (map (λ f, stem (name f)) files) = length (files_with_stem k files).
Proof.
  unfold count_key, files_with_stem.
  induction files as [|f files IH]; [done |]. simpl.
  destruct (decide (stem (name f) = k)) as [E | E].
  - rewrite !filter_cons_True by done. simpl. by rewrite IH.
  - by rewrite !filter_cons_False by done.
Qed.

Lemma NoDup_map_fst_filter {A B} (P : A * B → Prop) `{∀ x, Decision (P x)}
    (l : list (A * B)) :
  NoDup (map fst l) → NoDup (map fst (filter P l)).
Proof.
  induction l as [|x l IH]; [done |]. simpl. intros [Hx Hnd]%NoDup_cons.
  rewrite filter_cons. case_decide; [| by apply IH]. simpl.
  apply NoDup_cons. split; [| by apply IH].
  intros (y & Hy & [_ Hin]%list_elem_of_filter)%list_elem_of_fmap.
  apply Hx. apply list_elem_of_fmap. eauto.
Qed.

Lemma duplicates_of_spec (keys : list string) (k : string) (c : nat) :
  (k, c) ∈ Counter.duplicates_of (Counter.counter_of keys) ↔
  1 < c ∧ c = count_key k keys.
Proof.
  destruct (counter_of_spec keys) as (Hnd & Hin & Hget & _).
  unfold Counter.duplicates_of. rewrite list_elem_of_filter, most_common_perm.
  rewrite (assoc_elem_of 0) by done. rewrite Hin, Hget. simpl.
  rewrite Is_true_true, Nat.ltb_lt. split.
  - intros [? [_ <-]]. done.
  - intros [Hc ->]. split_and!; [done | | done].
    apply count_key_pos. lia.
Qed.

(** The table of the auditor, in terms of the selection and the stems of the
    code. *)
Lemma auditor_table (W : Walk) (root : path) (s : state) :
  exists_ (fs s) root = true →
  let files := Counter.select_jpeg (fs s) (glob_all (fs s) root) in
  let keys := map (λ f, stem (name f)) files in
  ∃ s' rows,
    Counter.main root s = (Return tt, s') ∧
    fs s' = fs s ∧
    console s' = console s ++ match rows with [] => [] | _ => [rows] end ∧
    (∀ k c ps, (k, c, ps) ∈ rows ↔
               1 < c ∧ c = count_key k keys ∧ ps = files_with_stem k files) ∧
    (∀ k c ps, (k, c, ps) ∈ rows → c = length ps) ∧
    NoDup (map (λ r : table_row, r.1.1) rows) ∧
    StronglySorted (report_order keys) rows.
Proof.
  intros Hex files keys.
  set (C := Counter.counter_of keys).
  set (D := Counter.group_paths files).
  set (dups := Counter.duplicates_of C).
  set (rows := map (λ kc : string * nat, (kc.1, kc.2, assoc_get [] kc.1 D)) dups).
  destruct (counter_of_spec keys) as (Hnd & Hin & Hget & Hsort).
  destruct (group_paths_spec files) as (HinD & HgetD).
  assert (Hdups : ∀ kc, kc ∈ dups → kc.1 ∈ map fst D).
  { intros [k c] [Hc Hcount]%duplicates_of_spec. apply HinD. simpl.
    apply count_key_pos. fold keys. lia. }
  assert (Hrows : ∀ k c ps, (k, c, ps) ∈ rows ↔
            1 < c ∧ c = count_key k keys ∧ ps = files_with_stem k files).
  { intros k c ps. unfold rows. rewrite list_elem_of_fmap. split.
    - intros ([k' c'] & [= -> -> ->] & Hkc). simpl.
      pose proof Hkc as [Hc Hcount]%duplicates_of_spec.
      split_and!; [done | done |]. apply HgetD. apply count_key_pos.
      fold keys. lia.
    - intros (Hc & -> & ->). exists (k, count_key k keys). split.
      + simpl. f_equal. symmetry. apply HgetD. apply count_key_pos.
        fold keys. lia.
      + by apply duplicates_of_spec. }
  assert (Hmain : ∃ s', Counter.main root s = (Return tt, s') ∧ fs s' = fs s ∧
            console s' = console s ++ match rows with [] => [] | _ => [rows] end).
  { unfold Counter.main. unfold bind at 1. unfold info at 1, emit at 1.
    cbv beta iota. unfold bind at 1. unfold path_exists at 1. cbn [fs].
    rewrite Hex. cbn [negb]. cbv beta iota. unfold bind at 1. cbn [fs].
    fold files. fold keys. fold C. fold D. fold dups.
    assert (Hr : rows = map (λ kc : string * nat,
                               (kc.1, kc.2, assoc_get [] kc.1 D)) dups) by done.
    clearbody rows dups.
    destruct dups as [|kc dups'].
    - run_m. eexists. split; [done |]. simpl. by rewrite Hr, app_nil_r.
    - remember (kc :: dups') as dups eqn:Hd. run_m.
      rewrite table_rows_run by done. rewrite <- Hr.
      unfold console_print. simpl.
      match goal with |- context [Counter.log_details D dups ?s1] =>
        destruct (log_details_run D dups s1) as (s2 & Hrun & Hf & Hc & Ho);
          [done |]
      end.
      rewrite Hrun. eexists. split; [done |]. simpl. rewrite Hf, Hc. simpl.
      split; [done |]. rewrite Hr, Hd. done. }
  destruct Hmain as (s' & Hrun & Hfs & Hcons).
  exists s', rows. split_and!; try done.
  - intros k c ps (Hc & -> & ->)%Hrows. apply count_key_map.
  - unfold rows. rewrite <- list_fmap_compose.
    change (NoDup (map fst dups)). apply NoDup_map_fst_filter.
    by rewrite most_common_perm.
  - apply StronglySorted_map.
    apply (StronglySorted_filter (count_order (λ k, first_index k keys))).
    by apply most_common_sorted.
Qed.

(** ** Strings and filters *)

Lemma string_app_nil_r (s : string) : s +:+ "" = s.
Proof.
  induction s as [|a s IH]; [done |].
  change (String a (s +:+ "") = String a s). by rewrite IH.
Qed.

Lemma substring_app_l (pre rest : string) :
  substring 0 (String.length pre) (pre +:+ rest) = pre.
Proof.
  induction pre as [|a pre IH].
  - change ("" +:+ rest) with rest. by destruct rest.
  - change (String a pre +:+ rest) with (String a (pre +:+ rest)).
    simpl. by rewrite IH.
Qed.

Lemma stem_split (pre post : string) :
  rfind "." post = None →
  stem (pre +:+ String "." post)
  = if decide (pre ≠ "" ∧ post ≠ "") then pre else pre +:+ String "." post.
Proof.
  intros Hn. unfold stem. rewrite (rfind_app _ _ _ Hn).
  rewrite string_length_app, substring_app_l. simpl.
  destruct pre as [|a pre], post as [|b post]; simpl;
    repeat case_decide; try naive_solver.
  - replace (String.length pre + 1 - 0) with (S (String.length pre)) by lia.
    replace (S (String.length pre) <? S (String.length pre))%nat with false; [done |].
    symmetry. apply Nat.ltb_ge. lia.
  - replace (S (String.length pre) <? String.length pre + S (S (String.length post)) - 0)%nat
      with true; [done |].
    symmetry. apply Nat.ltb_lt. lia.
Qed.

Lemma filter_ext_in {A} (P Q : A → Prop) `{!∀ x, Decision (P x)}
    `{!∀ x, Decision (Q x)} (l : list A) :
  (∀ x, x ∈ l → P x ↔ Q x) → filter P l = filter Q l.
Proof.
  induction l as [|a l IH]; intros Hl; [done |].
  rewrite !filter_cons. rewrite IH by (intros x Hx; apply Hl; by right).
  assert (Ha : P a ↔ Q a) by (apply Hl; left).
  destruct (decide (P a)), (decide (Q a)); tauto || done.
Qed.

(** ** The code against the words of the specification *)

Lemma length_lower (s : string) : String.length (lower s) = String.length s.
Proof. induction s as [|a s IH]; simpl; [done | by rewrite IH]. Qed.

Lemma length_substring_0 (m : nat) (n : string) :
  m ≤ String.length n → String.length (substring 0 m n) = m.
Proof.
  revert m. induction n as [|a n IH]; intros m Hm; simpl in *.
  - by destruct m; [| lia].
  - destruct m as [|m]; [done |]. simpl. rewrite IH; [done | lia].
Qed.

Lemma substring_split (m : nat) (n : string) :
  m ≤ String.length n →
  substring 0 m n +:+ substring m (String.length n - m) n = n.
Proof.
  revert m. induction n as [|a n IH]; intros m Hm; simpl in *.
  - by destruct m; [| lia].
  - destruct m as [|m]; simpl.
    + change ("" +:+ String a (substring 0 (String.length n) n) = String a n).
      change (String a (substring 0 (String.length n) n) = String a n).
      f_equal. clear. induction n as [|b n IH]; simpl; [done | by rewrite IH].
    + change (String a (substring 0 m n +:+
                        substring m (String.length n - m) n) = String a n).
      rewrite IH; [done | lia].
Qed.

Lemma ending_app (base e : string) :
  Spec.ending (String.length e) (base +:+ e) = e ∧
  Spec.without_ending (String.length e) (base +:+ e) = base.
Proof.
  unfold Spec.ending, Spec.without_ending. rewrite string_length_app.
  replace (String.length base + String.length e - String.length e)
    with (String.length base) by lia.
  split; [apply substring_app_r | apply substring_app_l].
Qed.

Lemma string_app_snoc (base : string) (c : ascii) (e : string) :
  base +:+ String c e = (base +:+ String c "") +:+ e.
Proof.
  induction base as [|a base IH]; [done |].
  change (String a (base +:+ String c e)
          = String a ((base +:+ String c "") +:+ e)).
  by rewrite IH.
Qed.

Lemma string_app_nonempty (base e : string) :
  base ≠ "" → String.length e < String.length (base +:+ e).
Proof.
  intros Hb. rewrite string_length_app. destruct base; [done |]. simpl. lia.
Qed.

(** [str.lower] against the two extensions, letter by letter. *)
Lemma lower_ascii_letter (a c : ascii) :
  a ∈ ["."; "j"; "p"; "e"; "g"]%char →
  Ascii.eqb (lower_ascii c) a = Ascii.eqb c a || Ascii.eqb c (Spec.capital a).
Proof.
  intros Ha. repeat (apply elem_of_cons in Ha as [-> | Ha]);
    try (by apply elem_of_nil in Ha);
    destruct c as [[] [] [] [] [] [] [] []]; vm_compute; reflexivity.
Qed.

Lemma lower_same_ignoring_case (ext e : string) :
  Forall (λ a, a ∈ ["."; "j"; "p"; "e"; "g"]%char) (list_ascii_of_string ext) →
  String.eqb (lower e) ext = Spec.same_ignoring_case ext e.
Proof.
  revert e. induction ext as [|a ext IH]; intros e Hext.
  - by destruct e.
  - simpl in Hext. apply Forall_cons in Hext as [Ha Hext].
    destruct e as [|c e]; [done |]. simpl.
    rewrite <- (lower_ascii_letter a c Ha), <- (IH e Hext).
    by destruct (Ascii.eqb (lower_ascii c) a).
Qed.

(** The scope of the specification, with [str.lower]. *)
Lemma extension_length_lower (n : string) :
  Spec.extension_length n
  = if (4 <? String.length n)%nat && String.eqb (lower (Spec.ending 4 n)) ".jpg"
    then Some 4
    else if (5 <? String.length n)%nat &&
            String.eqb (lower (Spec.ending 5 n)) ".jpeg"
    then Some 5
    else None.
Proof.
  unfold Spec.extension_length.
  rewrite !lower_same_ignoring_case; [done | |];
    simpl; repeat constructor; set_solver.
Qed.

(** A name that passes the test of the code splits into a non-empty base,
    which is its stem, and an extension of four or five characters, which is
    what the specification looks at. *)
Lemma jpeg_name_split (n : string) :
  existsb (String.eqb (lower (suffix n))) [".jpg"; ".jpeg"] = true →
  ∃ base e : string,
    n = base +:+ e ∧ base ≠ "" ∧ stem n = base ∧
    Spec.extension_length n = Some (String.length e).
Proof.
  simpl. rewrite !orb_true_iff, !String.eqb_eq. intros Hs.
  destruct (rfind "." n) as [i|] eqn:Hi.
  2: { unfold suffix in Hs. rewrite Hi in Hs. simpl in Hs. naive_solver. }
  apply rfind_Some in Hi as (pre & post & -> & _ & Hn).
  rewrite (suffix_split _ _ Hn) in Hs. rewrite (stem_split _ _ Hn).
  case_decide as Hd; [| simpl in Hs; naive_solver].
  destruct Hd as [Hpre Hpost].
  exists pre, (String "." post). split_and!; [done.. |].
  rewrite extension_length_lower.
  pose proof (string_app_nonempty pre (String "." post) Hpre) as Hlen.
  destruct Hs as [Hs | [Hs | Hs]]; [| | done].
  - assert (String.length (String "." post) = 4) as Hl
      by (by rewrite <- length_lower, Hs).
    rewrite Hl in Hlen |- *.
    destruct (ending_app pre (String "." post)) as [He _]. rewrite Hl in He.
    rewrite He, Hs. simpl.
    by rewrite (proj2 (Nat.ltb_lt _ _) Hlen).
  - assert (String.length (String "." post) = 5) as Hl
      by (by rewrite <- length_lower, Hs).
    rewrite Hl in Hlen |- *.
    destruct (ending_app pre (String "." post)) as [He _]. rewrite Hl in He.
    rewrite He, Hs.
    rewrite string_app_snoc.
    destruct post as [|c1 [|c2 [|c3 [|c4 [|c5 post]]]]]; try done.
    destruct (ending_app (pre +:+ String "." "")
                (String c1 (String c2 (String c3 (String c4 "")))))
      as [He4 _].
    simpl String.length in He4. rewrite He4.
    simpl in Hs. injection Hs as H1 H2 H3 H4.
    rewrite <- string_app_snoc.
    rewrite (proj2 (Nat.ltb_lt _ _) Hlen).
    replace (4 <? _)%nat with true by (symmetry; apply Nat.ltb_lt; lia).
    simpl. rewrite H1, H2, H3, H4. done.
Qed.

(** Conversely, a name in scope by the words of the specification passes
    the test of the code. *)
Lemma in_scope_name_jpeg (n : string) :
  Spec.in_scope_name n = true →
  ∃ base ext : string,
    n = base +:+ ext ∧ base ≠ "" ∧ (lower ext = ".jpg" ∨ lower ext = ".jpeg").
Proof.
  unfold Spec.in_scope_name. rewrite extension_length_lower.
  assert (Hsplit : ∀ k, k < String.length n →
            n = Spec.without_ending k n +:+ Spec.ending k n ∧
            Spec.without_ending k n ≠ "").
  { intros k Hk. unfold Spec.without_ending, Spec.ending. split.
    - rewrite <- (substring_split (String.length n - k) n) at 1 by lia.
      do 2 f_equal. lia.
    - intros E. apply (f_equal String.length) in E.
      rewrite length_substring_0 in E by lia. simpl in E. lia. }
  destruct ((4 <? String.length n)%nat) eqn:H4; simpl.
  - apply Nat.ltb_lt in H4.
    destruct (String.eqb (lower (Spec.ending 4 n)) ".jpg") eqn:E4.
    + intros _. apply String.eqb_eq in E4.
      destruct (Hsplit 4 H4) as [Hn Hb]. eauto 10.
    + destruct ((5 <? String.length n)%nat) eqn:H5; simpl; [| done].
      apply Nat.ltb_lt in H5.
      destruct (String.eqb (lower (Spec.ending 5 n)) ".jpeg") eqn:E5; [| done].
      intros _. apply String.eqb_eq in E5.
      destruct (Hsplit 5 H5) as [Hn Hb]. eauto 10.
  - apply Nat.ltb_ge in H4.
    replace (5 <? String.length n)%nat with false; [done |].
    symmetry. apply Nat.ltb_ge. lia.
Qed.

(** The test of the three scripts is the scope of the specification. *)
Lemma is_jpeg_name_in_scope (p : path) :
  is_jpeg_name p = Spec.in_scope_name (name p).
Proof.
  destruct (is_jpeg_name p) eqn:Hj.
  - apply jpeg_name_split in Hj as (base & e & _ & _ & _ & He).
    unfold Spec.in_scope_name. by rewrite He.
  - destruct (Spec.in_scope_name (name p)) eqn:Hs; [| done].
    apply in_scope_name_jpeg, is_jpeg_name_spec in Hs. congruence.
Qed.

(** The stem of a name in scope is its base name. *)
Lemma stem_base_name (p : path) :
  is_jpeg_name p = true → stem (name p) = Spec.base_name (name p).
Proof.
  intros (base & e & Hn & _ & Hst & He)%jpeg_name_split.
  unfold Spec.base_name. rewrite He, Hst, Hn.
  symmetry. apply ending_app.
Qed.

Lemma select_jpeg_in_scope σ (l : list path) :
  Counter.select_jpeg σ l = filter (λ f, Spec.in_scope σ f) l.
Proof.
  unfold Counter.select_jpeg, Spec.in_scope. apply list_filter_iff.
  intros f. by rewrite is_jpeg_name_in_scope.
Qed.

Lemma in_scope_jpeg_name σ (l : list path) (f : path) :
  f ∈ filter (λ f, Spec.in_scope σ f) l → is_jpeg_name f = true.
Proof.
  rewrite list_elem_of_filter. unfold Spec.in_scope.
  rewrite andb_True, is_jpeg_name_in_scope. intros [[_ ?] _].
  by apply Is_true_true.
Qed.

(** ** The duplicate report, in the words of the specification *)

(** C8.  On a root that exists the auditor changes nothing on the file system
    and prints at most one table.  With [files] the files of the walk that
    are in scope by the words of the specification (regular files whose name
    ends, after something else, in [.jpg] or [.jpeg] in any mix of cases), in
    the order of the walk, and [keys] their base names (the name without
    that extension): a row [(k, c, ps)] is in the table exactly when base
    name [k] occurs [c > 1] times and [ps] lists the files of base name [k]
    in the order of the walk; the count of a row is the length of its list
    of paths; no base name has two rows; and the rows stand by descending
    count, rows of equal count in the order in which their base names were
    first met. *)
Theorem C8_duplicate_report (W : Walk) (root : path) (s : state) :
  exists_ (fs s) root = true →
  let files := filter (λ f, Spec.in_scope (fs s) f) (glob_all (fs s) root) in
  let keys := map (λ f, Spec.base_name (name f)) files in
  ∃ s' rows,
    Counter.main root s = (Return tt, s') ∧
    fs s' = fs s ∧
    console s' = console s ++ match rows with [] => [] | _ => [rows] end ∧
    (∀ k c ps, (k, c, ps) ∈ rows ↔
               1 < c ∧ c = count_key k keys ∧ ps = Spec.group k files) ∧
    (∀ k c ps, (k, c, ps) ∈ rows → c = length ps) ∧
    NoDup (map (λ r : table_row, r.1.1) rows) ∧
    StronglySorted (report_order keys) rows.
Proof.
  intros Hex files keys.
  pose proof (auditor_table W root s Hex) as Ht. cbv zeta in Ht.
  rewrite select_jpeg_in_scope in Ht. fold files in Ht.
  assert (Hkeys : map (λ f, stem (name f)) files = keys).
  { apply map_ext_in. intros f Hf%list_elem_of_In.
    apply stem_base_name. by eapply in_scope_jpeg_name. }
  assert (Hgroup : ∀ k, files_with_stem k files = Spec.group k files).
  { intros k. unfold files_with_stem, Spec.group. apply filter_ext_in.
    intros f Hf. rewrite stem_base_name; [done |].
    by eapply in_scope_jpeg_name. }
  rewrite Hkeys in Ht.
  destruct Ht as (s' & rows & Hrun & Hfs & Hcons & Hrows & Hlen & Hnd & Hsort).
  exists s', rows. split_and!; try done.
  intros k c ps. by rewrite Hrows, Hgroup.
Qed.

Lemma C8_duplicate_report_witness :
  ∃ s' rows,
    @Counter.main glob_keys ["in"] (init photo_tree) = (Return tt, s') ∧
    fs s' = photo_tree ∧
    console s' = [rows] ∧
    ("photo1", 2, [["in"; "b"; "photo1.jpg"]; ["in"; "a"; "photo1.jpg"]]) ∈ rows ∧
    (∀ c ps, ("photo2", c, ps) ∉ rows) ∧
    (∀ k c ps, (k, c, ps) ∈ rows → c = length ps).
Proof.
  destruct (C8_duplicate_report glob_keys ["in"] (init photo_tree))
    as (s' & rows & Hrun & Hfs & Hcons & Hrows & Hlen & _).
  - vm_compute. reflexivity.
  - assert (Hin : ("photo1", 2,
                   [["in"; "b"; "photo1.jpg"]; ["in"; "a"; "photo1.jpg"]]) ∈ rows).
    { apply Hrows. split; [lia |]. split; vm_compute; reflexivity. }
    exists s', rows.
    split; [exact Hrun |]. split; [exact Hfs |].
    split; [| split; [exact Hin | split; [| exact Hlen]]].
    + clear Hrows Hlen Hrun Hfs. rewrite Hcons. clear Hcons.
      destruct rows as [|r rows'];
        [exfalso; apply elem_of_nil in Hin; exact Hin | reflexivity].
    + intros c ps [Hc [-> _]]%Hrows. revert Hc. vm_compute. lia.
Defined.

(** The example of the specification: [a/photo1.jpg], [b/photo1.jpg] and
    [a/photo2.jpg] give one row, for [photo1], with count two and both
    paths ([glob_keys] happens to yield [b] before [a]). *)
Example audit_photo_tree :
  console (@Counter.main glob_keys ["in"] (init photo_tree)).2
  = [[("photo1", 2, [["in"; "b"; "photo1.jpg"]; ["in"; "a"; "photo1.jpg"]])]].
Proof. vm_compute. reflexivity. Qed.

(** ** The records of the auditor *)

Lemma for_each_info_log {A} (m : A → message) (l : list A) (s : state) :
  for_each l (λ x, info (m x)) s
  = (Return tt,
     State (fs s) (log s ++ map (λ x, rec INFO (m x)) l) (open_files s) (console s)).
Proof.
  revert s. induction l as [|x l IH]; intros s.
  - simpl. unfold ret. rewrite app_nil_r. by destruct s.
  - cbn [for_each]. unfold bind. unfold info at 1, emit at 1. cbv beta iota.
    rewrite IH. simpl. by rewrite <- app_assoc.
Qed.

Lemma log_details_log d dups (s : state) :
  (∀ kc, kc ∈ dups → kc.1 ∈ map fst d) →
  Counter.log_details d dups s
  = (Return tt,
     State (fs s)
       (log s ++ detail_records
                   (map (λ kc : string * nat, (kc.1, kc.2, assoc_get [] kc.1 d))
                        dups))
       (open_files s) (console s)).
Proof.
  unfold Counter.log_details, detail_records.
  revert s. induction dups as [|[k c] dups IH]; intros s Hin.
  - simpl. unfold ret. rewrite app_nil_r. by destruct s.
  - cbn [for_each fst snd]. unfold bind at 1. unfold bind at 1.
    unfold info at 1. unfold emit at 1. cbv beta iota. unfold bind at 1.
    rewrite dict_get_run by (apply (Hin (k, c)); left).
    rewrite for_each_info_log. cbn [fs log open_files console].
    rewrite IH by (intros kc Hkc; apply Hin; by right).
    cbn [fs log open_files console map concat fst snd].
    f_equal. f_equal. rewrite <- !app_assoc. done.
Qed.

Lemma counter_length (keys : list string) :
  length (Counter.counter_of keys) = length (remove_dups keys).
Proof.
  destruct (counter_of_spec keys) as (Hnd & Hin & _).
  rewrite <- (length_map fst). apply Permutation_length.
  apply NoDup_Permutation; [done | apply NoDup_remove_dups |].
  intros k. by rewrite Hin, elem_of_remove_dups.
Qed.

Lemma duplicates_length (c : list (string * nat)) :
  length (filter (λ nc : string * nat, (1 <? nc.2)%nat) c)
  = length (Counter.duplicates_of c).
Proof.
  unfold Counter.duplicates_of. apply Permutation_length.
  by rewrite most_common_perm.
Qed.

Lemma report_rows_dict (files : list path) :
  map (λ kc : string * nat,
         (kc.1, kc.2, assoc_get [] kc.1 (Counter.group_paths files)))
      (Counter.duplicates_of
         (Counter.counter_of (map (λ f, stem (name f)) files)))
  = report_rows files.
Proof.
  unfold report_rows. apply map_ext_in. intros [k c] Hkc%list_elem_of_In.
  apply duplicates_of_spec in Hkc as [Hc ->]. simpl. f_equal.
  apply group_paths_spec. apply count_key_pos. lia.
Qed.

(** The whole run of the auditor on a root that exists. *)
Lemma auditor_run (W : Walk) (root : path) (s : state) :
  exists_ (fs s) root = true →
  Counter.main root s
  = (Return tt,
     let files := Counter.select_jpeg (fs s) (glob_all (fs s) root) in
     State (fs s)
       (log s ++ auditor_records root files)
       (open_files s)
       (console s ++ match report_rows files with
                     | [] => []
                     | _ :: _ => [report_rows files]
                     end)).
Proof.
  intros Hex. cbv zeta.
  set (files := Counter.select_jpeg (fs s) (glob_all (fs s) root)).
  set (keys := map (λ f, stem (name f)) files).
  set (C := Counter.counter_of keys).
  set (D := Counter.group_paths files).
  set (dups := Counter.duplicates_of C).
  assert (Hdups : ∀ kc, kc ∈ dups → kc.1 ∈ map fst D).
  { intros [k c] [Hc Hcount]%duplicates_of_spec.
    apply group_paths_spec. simpl. apply count_key_pos. fold keys. lia. }
  pose proof (report_rows_dict files) as Hrows.
  fold keys C D dups in Hrows.
  unfold auditor_records. cbv zeta. fold keys.
  rewrite <- (counter_length keys). fold C.
  assert (Hlen : length (report_rows files) = length dups).
  { rewrite <- Hrows. by rewrite length_map. }
  rewrite Hlen. clear Hlen.
  unfold Counter.main. unfold bind at 1. unfold info at 1, emit at 1.
  cbv beta iota. unfold bind at 1. unfold path_exists at 1. cbn [fs].
  rewrite Hex. cbn [negb]. cbv beta iota. unfold bind at 1. cbn [fs].
  fold files. fold keys. fold C. fold D. fold dups.
  rewrite (duplicates_length C). fold dups.
  rewrite <- Hrows. clear Hrows. clearbody dups.
  destruct dups as [|kc dups'].
  - run_m. unfold rec. rewrite app_nil_r, <- !app_assoc. done.
  - remember (kc :: dups') as dups eqn:Hd.
    set (rows := map (λ kc0 : string * nat,
                        (kc0.1, kc0.2, assoc_get [] kc0.1 D)) dups).
    assert (Hr : rows = map (λ kc0 : string * nat,
                               (kc0.1, kc0.2, assoc_get [] kc0.1 D)) dups)
      by done.
    clearbody rows.
    destruct rows as [|r rows'] eqn:Er; [by rewrite Hd in Hr |].
    rewrite <- Er in *. clear Er. run_m.
    rewrite table_rows_run by done.
    unfold console_print. simpl.
    rewrite log_details_log by done. simpl. rewrite <- Hr.
    unfold rec. f_equal. f_equal. rewrite <- !app_assoc. simpl. done.
Qed.

(** ** Scope by extension *)

Lemma auditor_records_paths (root : path) (files : list path) (r : log_record)
    (p : path) :
  r ∈ auditor_records root files → p ∈ msg_paths (msg r) →
  p = root ∨ p ∈ files.
Proof.
  unfold auditor_records. cbv zeta. rewrite !elem_of_app.
  intros [Hr | [Hr | Hr]] Hp.
  - repeat (apply elem_of_cons in Hr as [-> | Hr]); simpl in Hp;
      set_solver.
  - destruct (report_rows files) as [|row rows'] eqn:E;
      [by apply elem_of_nil in Hr |].
    rewrite <- E in Hr. clear E.
    rewrite !elem_of_app in Hr. destruct Hr as [Hr | [Hr | Hr]].
    + repeat (apply elem_of_cons in Hr as [-> | Hr]); simpl in Hp; set_solver.
    + unfold detail_records in Hr.
      apply elem_of_concat_map in Hr as (row' & Hrow & Hr).
      apply elem_of_cons in Hr as [-> | Hr]; [simpl in Hp; set_solver |].
      apply list_elem_of_fmap in Hr as (p' & -> & Hp'). simpl in Hp.
      apply list_elem_of_singleton in Hp as ->. right.
      unfold report_rows in Hrow.
      apply list_elem_of_fmap in Hrow as (kc & -> & _). simpl in Hp'.
      unfold files_with_stem in Hp'. by apply list_elem_of_filter in Hp' as [_ ?].
    + apply list_elem_of_singleton in Hr as ->. simpl in Hp. set_solver.
  - apply list_elem_of_singleton in Hr as ->. simpl in Hp. set_solver.
Qed.

(** C3, as amended.  The three scripts test a file with [is_jpeg_name], which
    holds exactly of a name made of a non-empty base followed by [.jpg] or
    [.jpeg] in any mix of cases (said with [str.lower] first, and at the end
    letter by letter, in the words of the specification).  A file that
    passes goes, in the converter and in the compressor, to the [try]
    statement that transcodes it.  On a
    file that fails the test, one turn of the loop of the converter only
    adds the skip record, at level INFO; one turn of the loop of the
    compressor first makes the directory of the mirrored path, which
    changes no log, no handle and no regular file, and then adds the skip
    record, at level WARNING, unless that [mkdir] raises, which ends the
    turn; neither opens the file.  The auditor keeps the regular files that
    pass the test and no others, and records no skip: every path that a
    record of the auditor names is the root or a regular file of the walk
    that passes the test. *)
Theorem C3_scope_by_extension `{Codec} (W : Walk) (inp out : path) (quality : Z) :
  (∀ p : path,
     is_jpeg_name p = true ↔
     ∃ base ext : string,
       name p = base +:+ ext ∧ base ≠ "" ∧
       (lower ext = ".jpg" ∨ lower ext = ".jpeg")) ∧
  (∀ (s : state) (rel : path),
     is_dir (fs s) (inp ++ rel) = false →
     if is_jpeg_name (inp ++ rel)
     then Converter.process_entry inp out (inp ++ rel) s
          = (mkdir_parents (parent (out ++ rel)) ;;
             Converter.transcode (inp ++ rel) (out ++ rel)) s
     else Converter.process_entry inp out (inp ++ rel) s
          = (Return tt,
             State (fs s) (log s ++ [rec INFO (Skip_not_jpeg (inp ++ rel))])
                   (open_files s) (console s))) ∧
  (∀ (s : state) (rel : path),
     is_dir (fs s) (inp ++ rel) = false →
     if is_jpeg_name (inp ++ rel)
     then Compressor.process_entry inp out quality (inp ++ rel) s
          = (mkdir_parents (parent (out ++ rel)) ;;
             Compressor.transcode (inp ++ rel) (out ++ rel) quality) s
     else ∃ (r : outcome unit) (s1 : state),
            mkdir_parents (parent (out ++ rel)) s = (r, s1) ∧
            log s1 = log s ∧ open_files s1 = open_files s ∧
            console s1 = console s ∧
            (∀ q : path, is_file (fs s1) q = is_file (fs s) q) ∧
            Compressor.process_entry inp out quality (inp ++ rel) s
            = match r with
              | Return _ =>
                  (Return tt,
                   State (fs s1)
                     (log s ++ [rec WARNING (Not_jpeg (inp ++ rel))])
                     (open_files s) (console s))
              | Raise e => (Raise e, s1)
              end) ∧
  (∀ σ (l : list path) (p : path),
     p ∈ Counter.select_jpeg σ l ↔
     p ∈ l ∧ is_file σ p = true ∧ is_jpeg_name p = true) ∧
  (∀ (s : state) (root : path),
     ∃ (s' : state) (recs : list log_record),
       Counter.main root s = (Return tt, s') ∧
       log s' = log s ++ recs ∧
       ∀ (r : log_record) (p : path),
         r ∈ recs → p ∈ msg_paths (msg r) →
         p = root ∨
         (p ∈ glob_all (fs s) root ∧ is_file (fs s) p = true ∧
          is_jpeg_name p = true)) ∧
  (∀ p : path, is_jpeg_name p = Spec.in_scope_name (name p)).
Proof.
  split_and!; [| | | | | apply is_jpeg_name_in_scope].
  - apply is_jpeg_name_spec.
  - intros s rel Hd. unfold Converter.process_entry, path_relative_to.
    rewrite relative_to_app. run_m. rewrite Hd.
    by destruct (is_jpeg_name (inp ++ rel)).
  - intros s rel Hd. unfold Compressor.process_entry, path_relative_to.
    rewrite relative_to_app. run_m. rewrite Hd.
    destruct (is_jpeg_name (inp ++ rel)); simpl; [done |].
    destruct (mkdir_parents (parent (out ++ rel)) s) as [r s1] eqn:Hmk.
    exists r, s1.
    apply mkdir_parents_effect in Hmk as (Hlog & Hopen & Hcons & Hadd).
    split_and!; [done.. | |].
    + intros q. by apply adds_dirs_files.
    + destruct r as [[]|e]; [| done]. simpl. by rewrite Hlog, Hopen, Hcons.
  - apply select_jpeg_spec.
  - intros s root. destruct (exists_ (fs s) root) eqn:Hex.
    + eexists _, _. split; [by apply auditor_run |]. simpl. split; [done |].
      intros r p Hr Hp.
      destruct (auditor_records_paths _ _ _ _ Hr Hp) as [-> | Hf];
        [by left | right]. by apply select_jpeg_spec.
    + exists (State (fs s)
                (log s ++ [rec INFO (Analysis_start root);
                           rec ERROR (Dir_missing root)])
                (open_files s) (console s)),
        [rec INFO (Analysis_start root); rec ERROR (Dir_missing root)].
      split_and!.
      * unfold Counter.main. run_m. rewrite Hex. simpl.
        by rewrite <- app_assoc.
      * done.
      * intros r p Hr Hp. left.
        repeat (apply elem_of_cons in Hr as [-> | Hr]); simpl in Hp;
          set_solver.
Qed.

Lemma C3_scope_by_extension_witness :
  is_jpeg_name ["in"; "a"; "y.JPEG"] = true ∧
  @Converter.process_entry toy_codec ["in"] ["out"] (["in"] ++ ["a"; "note.txt"])
    (init sample_tree)
  = (Return tt,
     State sample_tree [rec INFO (Skip_not_jpeg (["in"] ++ ["a"; "note.txt"]))] [] []).
Proof.
  split.
  - apply (proj1 (@C3_scope_by_extension toy_codec glob_keys ["in"] ["out"] 90)
             ["in"; "a"; "y.JPEG"]).
    exists "y", ".JPEG". split_and!; [reflexivity | discriminate | by right].
  - apply (proj1 (proj2 (@C3_scope_by_extension toy_codec glob_keys
                           ["in"] ["out"] 90))
             (init sample_tree) ["a"; "note.txt"]).
    vm_compute. reflexivity.
Defined.

(** C3, as stated, fails on the auditor.  In the walk of [sample_tree] it
    meets the regular file [in/a/note.txt], whose extension is neither
    [.jpg] nor [.jpeg]; the run returns with eight records, and none of them
    is a skip or names that file: the auditor leaves such a file out without
    a record. *)
Lemma C3_counterexample :
  let run := @Counter.main glob_keys ["in"] (init sample_tree) in
  ["in"; "a"; "note.txt"] ∈ @glob_all glob_keys sample_tree ["in"] ∧
  is_file sample_tree ["in"; "a"; "note.txt"] = true ∧
  is_jpeg_name ["in"; "a"; "note.txt"] = false ∧
  run.1 = Return tt ∧
  log run.2 =
    [rec INFO (Analysis_start ["in"]); rec INFO Result_header;
     rec INFO (Analysed_dir ["in"]); rec INFO (Total_jpeg 3);
     rec INFO (Unique_names 3); rec INFO (Duplicate_names 0);
     rec INFO Processing_time; rec INFO Count_done] ∧
  forallb (λ r, negb (bool_decide
                        (["in"; "a"; "note.txt"] ∈ msg_paths (msg r))))
    (log run.2) = true.
Proof.
  cbv zeta. split; [| vm_compute; done].
  apply (list_elem_of_lookup_2 _ 1). vm_compute. reflexivity.
Qed.

(** * Further properties *)

(** ** Composing statements about runs *)

Lemma preserves_ret {A} (R : state → state → Prop) `{!Reflexive R} (a : A) :
  preserves R (ret a).
Proof. intros s. simpl. reflexivity. Qed.

Lemma preserves_raise {A} (R : state → state → Prop) `{!Reflexive R} (e : exn) :
  preserves R (@raise A e).
Proof. intros s. simpl. reflexivity. Qed.

Lemma preserves_bind {A B} (R : state → state → Prop) `{!Transitive R}
    (m : M A) (k : A → M B) :
  preserves R m → (∀ a, preserves R (k a)) → preserves R (bind m k).
Proof.
  intros Hm Hk s. unfold bind. specialize (Hm s).
  destruct (m s) as [[a|e] s1]; simpl in *; [| done].
  etrans; [exact Hm | apply Hk].
Qed.

Lemma preserves_try_except {A} (R : state → state → Prop) `{!Transitive R}
    (body : M A) (handler : exn → M A) :
  preserves R body → (∀ e, preserves R (handler e)) →
  preserves R (try_except body handler).
Proof.
  intros Hm Hk s. unfold try_except. specialize (Hm s).
  destruct (body s) as [[a|e] s1]; simpl in *; [done |].
  etrans; [exact Hm | apply Hk].
Qed.

Lemma preserves_for_each {A} (R : state → state → Prop) `{!PreOrder R}
    (l : list A) (body : A → M unit) :
  (∀ x, x ∈ l → preserves R (body x)) → preserves R (for_each l body).
Proof.
  induction l as [|x l IH]; intros Hb; simpl.
  - intros s. simpl. reflexivity.
  - apply preserves_bind; [apply _ | apply Hb; left |].
    intros _. apply IH. intros y Hy. apply Hb. by right.
Qed.

Lemma raises_only_bind {A B} (E : exn → Prop) (m : M A) (k : A → M B) :
  raises_only E m → (∀ a, raises_only E (k a)) → raises_only E (bind m k).
Proof.
  intros Hm Hk s e. unfold bind. specialize (Hm s).
  destruct (m s) as [[a|e'] s1]; simpl in *; [apply Hk | ].
  intros [= <-]. by apply Hm.
Qed.

Lemma raises_only_try_except {A} (E E' : exn → Prop) (body : M A)
    (handler : exn → M A) :
  raises_only E' body → (∀ e, E' e → raises_only E (handler e)) →
  raises_only E (try_except body handler).
Proof.
  intros Hb Hk s e. unfold try_except. specialize (Hb s).
  destruct (body s) as [[a|e'] s1]; simpl in *; [done |].
  apply Hk. by apply Hb.
Qed.

Lemma raises_only_any {A} (m : M A) : raises_only (λ _, True) m.
Proof. done. Qed.

Lemma raises_only_weaken {A} (E E' : exn → Prop) (m : M A) :
  (∀ e, E e → E' e) → raises_only E m → raises_only E' m.
Proof. intros HE Hm s e He. eapply HE, Hm, He. Qed.

Lemma raises_only_for_each {A} (E : exn → Prop) (l : list A) (body : A → M unit) :
  (∀ x, raises_only E (body x)) → raises_only E (for_each l body).
Proof.
  intros Hb. induction l as [|x l IH]; simpl; [done |].
  apply raises_only_bind; [apply Hb | done].
Qed.

Lemma raises_only_emit (E : exn → Prop) (r : log_record) : raises_only E (emit r).
Proof. done. Qed.

Lemma preserves_bind_ret {A B} (R : state → state → Prop) (a : A) (k : A → M B) :
  preserves R (k a) → preserves R (bind (ret a) k).
Proof. intros Hk s. apply Hk. Qed.

Lemma relative_to_Some (p root rel : path) :
  relative_to p root = Some rel → p = root ++ rel.
Proof.
  revert p. induction root as [|r root IH]; intros p; simpl.
  - destruct p; simpl; by intros [= <-].
  - destruct p as [|x p]; [done |]. simpl.
    destruct (String.eqb r x) eqn:E; [| done].
    apply String.eqb_eq in E as ->. intros ->%IH. done.
Qed.

(** ** What a run may do to the file system *)

Lemma run_effect_refl out P σ : run_effect out P σ σ.
Proof. intros q. by left. Qed.

Lemma run_effect_trans out P σ1 σ2 σ3 :
  run_effect out P σ1 σ2 → run_effect out P σ2 σ3 → run_effect out P σ1 σ3.
Proof.
  intros H12 H23 q. unfold run_effect, is_dir, is_file in *.
  destruct (H12 q) as [E1 | [(N1 & D1 & R1) | (D1 & F1 & P1)]],
           (H23 q) as [E2 | [(N2 & D2 & R2) | (D2 & F2 & P2)]].
  - left. congruence.
  - right; left. rewrite <- E1. done.
  - right; right. rewrite <- E1. done.
  - right; left. rewrite E2. done.
  - congruence.
  - rewrite D1 in D2. done.
  - right; right. rewrite E2. done.
  - rewrite N2 in F1. done.
  - right; right. done.
Qed.

#[export] Instance touches_preorder out P : PreOrder (touches out P).
Proof.
  split.
  - intros s. apply run_effect_refl.
  - intros s1 s2 s3. apply run_effect_trans.
Qed.

Lemma preserves_same_fs {A} out P (m : M A) :
  (∀ s, fs (m s).2 = fs s) → preserves (touches out P) m.
Proof. intros Hm s q. left. by rewrite Hm. Qed.

Lemma os_mkdir_touches out P (p r : path) :
  p `prefix_of` out ++ r → preserves (touches out P) (os_mkdir p).
Proof.
  intros Hp s q. unfold os_mkdir.
  destruct (fs s !! p) eqn:Ep; [by left |].
  destruct (fs s !! parent p) as [[|c]|]; simpl; try by left.
  destruct (decide (p = q)) as [<- | Hne].
  - right; left. rewrite lookup_insert_eq. eauto.
  - left. by rewrite lookup_insert_ne.
Qed.

Lemma mkdir_handler_same_fs (p : path) (e : exn) (s : state) :
  fs ((d <- path_is_dir p ;; if d then ret tt else raise e) s).2 = fs s.
Proof. run_m. by destruct (is_dir (fs s) p). Qed.

Lemma mkdir_exist_ok_touches out P (p r : path) :
  p `prefix_of` out ++ r → preserves (touches out P) (mkdir_exist_ok p).
Proof.
  intros Hp. apply preserves_try_except; [apply _ | by eapply os_mkdir_touches |].
  intros e. apply preserves_same_fs. intros s.
  destruct e; try apply mkdir_handler_same_fs. done.
Qed.

Lemma mkdir_parents_rev_touches out P (rp r : path) :
  rev rp `prefix_of` out ++ r → preserves (touches out P) (mkdir_parents_rev rp).
Proof.
  induction rp as [|x rp IH]; intros Hp.
  - apply preserves_try_except; [apply _ | by eapply os_mkdir_touches |].
    intros e. apply preserves_same_fs. intros s.
    destruct e; try apply mkdir_handler_same_fs. done.
  - change (mkdir_parents_rev (x :: rp)) with
      (try_except (os_mkdir (rev (x :: rp))) (fun e =>
         match e with
         | FileNotFoundError =>
             mkdir_parents_rev rp ;; mkdir_exist_ok (rev (x :: rp))
         | _ => d <- path_is_dir (rev (x :: rp)) ;;
                if d then ret tt else raise e
         end)).
    apply preserves_try_except; [apply _ | by eapply os_mkdir_touches |].
    intros e.
    destruct e; try (apply preserves_same_fs; intros s;
                     apply mkdir_handler_same_fs).
    apply preserves_bind; [apply _ | |].
    + apply IH. etrans; [| exact Hp]. simpl. by apply prefix_app_r.
    + intros _. by eapply mkdir_exist_ok_touches.
Qed.

Lemma mkdir_parents_touches out P (p r : path) :
  p `prefix_of` out ++ r → preserves (touches out P) (mkdir_parents p).
Proof.
  intros Hp. eapply mkdir_parents_rev_touches. by rewrite rev_involutive.
Qed.

Lemma emit_touches out P (r : log_record) : preserves (touches out P) (emit r).
Proof. by apply preserves_same_fs. Qed.

Lemma image_open_touches `{Codec} out P (p : path) :
  preserves (touches out P) (image_open p).
Proof.
  apply preserves_same_fs. intros s. unfold image_open.
  destruct (fs s !! p) as [[|data]|]; try done. by destruct (pil_open data).
Qed.

Lemma stat_size_touches out P (p : path) : preserves (touches out P) (stat_size p).
Proof.
  apply preserves_same_fs. intros s. unfold stat_size.
  by destruct (fs s !! p) as [[|data]|].
Qed.

Lemma image_save_touches `{Codec} out (P : path → Prop) (img : opened_image)
    (dest : path) (opts : save_options) :
  P dest → preserves (touches out P) (image_save img dest opts).
Proof.
  intros HP s q. unfold image_save.
  set (s1 := if pil_save_closes (im img) opts then close_file (fp img) s else s).
  assert (Hs1 : fs s1 = fs s) by (subst s1; by destruct (pil_save_closes _ _)).
  clearbody s1. rewrite <- Hs1. clear Hs1.
  assert (Hw : ∀ data, open_for_writing (fs s1) dest = None →
     <[dest := File data]> (fs s1) !! q = fs s1 !! q ∨
     (fs s1 !! q = None ∧ <[dest := File data]> (fs s1) !! q = Some Dir ∧
      ∃ r : path, q `prefix_of` out ++ r) ∨
     (is_dir (fs s1) q = false ∧
      is_file (<[dest := File data]> (fs s1)) q = true ∧ P q)).
  { intros data How. destruct (decide (dest = q)) as [<- | Hne];
      [| left; by rewrite lookup_insert_ne].
    right; right. split_and!; [| unfold is_file; by rewrite lookup_insert_eq | done].
    unfold open_for_writing in How. unfold is_dir.
    by destruct (fs s1 !! dest) as [[|]|]. }
  destruct (pil_save (im img) opts) as [data | e | e partial]; simpl;
    [| by left |].
  - destruct (open_for_writing (fs s1) dest) eqn:How; simpl; [by left | eauto].
  - destruct (open_for_writing (fs s1) dest) eqn:How; simpl; [by left |].
    destruct (exists_ (fs s1) dest); simpl; [eauto | by left].
Qed.

Lemma conv_on_error_same_fs (p : path) (e : exn) (s : state) :
  fs (Converter.on_error p e s).2 = fs s.
Proof. by destruct e. Qed.

Lemma conv_transcode_touches `{Codec} out (P : path → Prop) (p dest : path) :
  P dest → preserves (touches out P) (Converter.transcode p dest).
Proof.
  intros HP. apply preserves_try_except; [apply _ | |].
  - unfold Converter.try_body.
    apply preserves_bind; [apply _ | apply image_open_touches |]. intros img.
    apply preserves_bind; [apply _ | apply emit_touches |]. intros _.
    apply preserves_bind; [apply _ | by apply image_save_touches |]. intros _.
    apply emit_touches.
  - intros e. apply preserves_same_fs, conv_on_error_same_fs.
Qed.

Lemma with_image_open_touches `{Codec} {A} out P (p : path)
    (body : opened_image → M A) :
  (∀ img, preserves (touches out P) (body img)) →
  preserves (touches out P) (with_image_open p body).
Proof.
  intros Hb. unfold with_image_open.
  apply preserves_bind; [apply _ | apply image_open_touches |].
  intros img s. specialize (Hb img s). by destruct (body img s).
Qed.

Lemma comp_transcode_touches `{Codec} out (P : path → Prop) (p dest : path)
    (quality : Z) :
  P dest → preserves (touches out P) (Compressor.transcode p dest quality).
Proof.
  intros HP. apply preserves_try_except; [apply _ | |].
  - unfold Compressor.try_body.
    apply preserves_bind; [apply _ | apply stat_size_touches |]. intros n.
    apply with_image_open_touches. intros img.
    apply preserves_bind; [apply _ | by apply image_save_touches |]. intros _.
    apply preserves_bind; [apply _ | apply stat_size_touches |]. intros m.
    destruct (n =? 0)%nat; [apply preserves_raise; apply _ | apply emit_touches].
  - intros e. apply emit_touches.
Qed.

Lemma conv_entry_touches `{Codec} (inp out file_path : path) :
  preserves (touches out (jpeg_target inp out))
            (Converter.process_entry inp out file_path).
Proof.
  unfold Converter.process_entry, path_relative_to.
  destruct (relative_to file_path inp) as [rel|] eqn:Hrel;
    [| intros s; apply run_effect_refl].
  apply relative_to_Some in Hrel as ->.
  apply preserves_bind_ret.
  apply preserves_bind; [apply _ | by apply preserves_same_fs |].
  intros [|]; [by eapply mkdir_parents_touches |].
  destruct (is_jpeg_name (inp ++ rel)) eqn:Hj; simpl; [| apply emit_touches].
  apply preserves_bind; [apply _ | |].
  - eapply mkdir_parents_touches, parent_prefix.
  - intros _. apply conv_transcode_touches. by exists rel.
Qed.

Lemma comp_entry_touches `{Codec} (inp out file_path : path) (quality : Z) :
  preserves (touches out (jpeg_target inp out))
            (Compressor.process_entry inp out quality file_path).
Proof.
  unfold Compressor.process_entry.
  apply preserves_bind; [apply _ | by apply preserves_same_fs |].
  intros [|]; [apply emit_touches |].
  unfold path_relative_to.
  destruct (relative_to file_path inp) as [rel|] eqn:Hrel;
    [| intros s; apply run_effect_refl].
  apply relative_to_Some in Hrel as ->.
  apply preserves_bind_ret.
  apply preserves_bind; [apply _ | |].
  - eapply mkdir_parents_touches, parent_prefix.
  - intros _.
    destruct (is_jpeg_name (inp ++ rel)) eqn:Hj; simpl; [| apply emit_touches].
    apply comp_transcode_touches. by exists rel.
Qed.

Lemma conv_batch_touches `{Codec} `{Walk} (inp out : path) :
  preserves (touches out (jpeg_target inp out))
            (Converter.process_jpeg_files inp out).
Proof.
  unfold Converter.process_jpeg_files.
  apply preserves_bind; [apply _ | by apply preserves_same_fs |].
  intros [|]; simpl; [| apply preserves_raise; apply _].
  apply preserves_bind; [apply _ | |].
  - apply (mkdir_parents_touches _ _ _ []). by rewrite app_nil_r.
  - intros _. apply preserves_bind; [apply _ | by apply preserves_same_fs |].
    intros l. apply preserves_for_each; [apply _ |].
    intros p _. apply conv_entry_touches.
Qed.

Lemma comp_batch_touches `{Codec} `{Walk} (inp out : path) (quality : Z) :
  preserves (touches out (jpeg_target inp out))
            (Compressor.compress_jpeg inp out quality).
Proof.
  unfold Compressor.compress_jpeg.
  apply preserves_bind; [apply _ | |].
  - apply (mkdir_parents_touches _ _ _ []). by rewrite app_nil_r.
  - intros _. apply preserves_bind; [apply _ | by apply preserves_same_fs |].
    intros l. apply preserves_for_each; [apply _ |].
    intros p _. apply comp_entry_touches.
Qed.

Lemma run_effect_outside out (P : path → Prop) σ σ' (q : path) :
  run_effect out P σ σ' → (∀ q', P q' → out `prefix_of` q') →
  ¬ q `prefix_of` out → ¬ out `prefix_of` q → σ' !! q = σ !! q.
Proof.
  intros He HP Hqo Hoq.
  destruct (He q) as [E | [(_ & _ & r & Hr) | (_ & _ & Hq)]]; [done | |].
  - destruct (prefix_weak_total _ _ _ Hr (prefix_app_r out out r (reflexivity _)));
      done.
  - by apply HP in Hq.
Qed.

Lemma jpeg_target_below (inp out q : path) : jpeg_target inp out q → out `prefix_of` q.
Proof. intros (rel & -> & _). by apply prefix_app_r. Qed.

Lemma disjoint_below (inp out rel : path) :
  disjoint inp out →
  ¬ (inp ++ rel) `prefix_of` out ∧ ¬ out `prefix_of` (inp ++ rel).
Proof.
  intros [Hio Hoi]. split.
  - intros Hp. apply Hio. etrans; [| exact Hp]. by apply prefix_app_r.
  - intros Hp.
    destruct (prefix_weak_total _ _ _ Hp (prefix_app_r inp inp rel (reflexivity _)));
      done.
Qed.

(** X1.  Whatever the file system, the listing and the codec, and whether it
    ends or aborts, a run of [process_jpeg_files] removes no entry and
    replaces no directory: at each path it leaves what was there, or makes a
    directory where nothing was, on the way to a path under the output root,
    or writes a regular file at the mirror of a path with a JPEG name. *)
Theorem X1_converter_effect `{Codec} `{Walk} (inp out : path) (s : state) :
  run_effect out (jpeg_target inp out)
    (fs s) (fs (Converter.process_jpeg_files inp out s).2).
Proof. apply conv_batch_touches. Qed.

(** X2.  The same for [compress_jpeg], for every quality. *)
Theorem X2_compressor_effect `{Codec} `{Walk} (inp out : path) (quality : Z)
    (s : state) :
  run_effect out (jpeg_target inp out)
    (fs s) (fs (Compressor.compress_jpeg inp out quality s).2).
Proof. apply comp_batch_touches. Qed.

(** X3.  When neither root lies within the other, both batch functions leave
    the whole input tree as it was: no entry at or below the input root is
    added, removed or rewritten, on any file system and even when the run
    aborts. *)
Theorem X3_input_tree_untouched `{Codec} `{Walk} (inp out : path) (quality : Z)
    (s : state) (rel : path) :
  disjoint inp out →
  fs (Converter.process_jpeg_files inp out s).2 !! (inp ++ rel)
    = fs s !! (inp ++ rel) ∧
  fs (Compressor.compress_jpeg inp out quality s).2 !! (inp ++ rel)
    = fs s !! (inp ++ rel).
Proof.
  intros [Hqo Hoq]%(disjoint_below _ _ rel). split.
  - eapply run_effect_outside;
      [apply conv_batch_touches | apply jpeg_target_below | done | done].
  - eapply run_effect_outside;
      [apply comp_batch_touches | apply jpeg_target_below | done | done].
Qed.

Lemma X3_input_tree_untouched_witness :
  fs (@Converter.process_jpeg_files toy_codec glob_keys ["in"] ["out"]
        (init sample_tree)).2 !! (["in"] ++ ["a"; "x.jpg"])
    = fs (init sample_tree) !! (["in"] ++ ["a"; "x.jpg"]) ∧
  fs (@Compressor.compress_jpeg toy_codec glob_keys ["in"] ["out"] 90
        (init sample_tree)).2 !! (["in"] ++ ["a"; "x.jpg"])
    = fs (init sample_tree) !! (["in"] ++ ["a"; "x.jpg"]).
Proof.
  apply (@X3_input_tree_untouched toy_codec glob_keys ["in"] ["out"] 90
           (init sample_tree) ["a"; "x.jpg"]).
  split; intros [k Hk]; discriminate Hk.
Defined.

(** ** The exceptions that leave a batch *)

Lemma os_mkdir_raises (p : path) : raises_only mkdir_error (os_mkdir p).
Proof.
  intros s e. unfold os_mkdir, mkdir_error.
  destruct (fs s !! p); [intros [= <-]; eauto |].
  destruct (fs s !! parent p) as [[|c]|]; intros [= <-]; eauto.
Qed.

Lemma mkdir_handler_raises (p : path) (e : exn) :
  mkdir_error e →
  raises_only mkdir_error (d <- path_is_dir p ;; if d then ret tt else raise e).
Proof.
  intros He s e'. run_m. destruct (is_dir (fs s) p); [done |]. by intros [= <-].
Qed.

Lemma mkdir_exist_ok_raises (p : path) : raises_only mkdir_error (mkdir_exist_ok p).
Proof.
  eapply raises_only_try_except; [apply os_mkdir_raises |].
  intros e He. destruct e; try by apply mkdir_handler_raises.
  intros s e'. by intros [= <-].
Qed.

Lemma mkdir_parents_rev_raises (rp : path) :
  raises_only mkdir_error (mkdir_parents_rev rp).
Proof.
  induction rp as [|x rp IH].
  - eapply raises_only_try_except; [apply os_mkdir_raises |].
    intros e He. destruct e; try by apply mkdir_handler_raises.
    intros s e'. by intros [= <-].
  - change (mkdir_parents_rev (x :: rp)) with
      (try_except (os_mkdir (rev (x :: rp))) (fun e =>
         match e with
         | FileNotFoundError =>
             mkdir_parents_rev rp ;; mkdir_exist_ok (rev (x :: rp))
         | _ => d <- path_is_dir (rev (x :: rp)) ;;
                if d then ret tt else raise e
         end)).
    eapply raises_only_try_except; [apply os_mkdir_raises |].
    intros e He. destruct e; try by apply mkdir_handler_raises.
    apply raises_only_bind; [done |]. intros _. apply mkdir_exist_ok_raises.
Qed.

Lemma mkdir_parents_raises (p : path) : raises_only batch_error (mkdir_parents p).
Proof.
  eapply raises_only_weaken; [| apply mkdir_parents_rev_raises]. by left.
Qed.

Lemma conv_transcode_raises `{Codec} (E : exn → Prop) (p dest : path) :
  raises_only E (Converter.transcode p dest).
Proof.
  eapply raises_only_try_except; [apply raises_only_any |].
  intros e _ s e'. by destruct e.
Qed.

Lemma comp_transcode_raises `{Codec} (E : exn → Prop) (p dest : path) (quality : Z) :
  raises_only E (Compressor.transcode p dest quality).
Proof.
  eapply raises_only_try_except; [apply raises_only_any | done].
Qed.

Lemma path_relative_to_raises (p root : path) :
  raises_only batch_error (path_relative_to p root).
Proof.
  intros s e. unfold path_relative_to.
  destruct (relative_to p root); [done |]. intros [= <-]. by right.
Qed.

Lemma conv_entry_raises `{Codec} (inp out file_path : path) :
  raises_only batch_error (Converter.process_entry inp out file_path).
Proof.
  unfold Converter.process_entry.
  apply raises_only_bind; [apply path_relative_to_raises |]. intros rel.
  apply raises_only_bind; [done |].
  intros [|]; [apply mkdir_parents_raises |].
  destruct (is_jpeg_name file_path); simpl; [| done].
  apply raises_only_bind; [apply mkdir_parents_raises |]. intros _.
  apply conv_transcode_raises.
Qed.

Lemma comp_entry_raises `{Codec} (inp out file_path : path) (quality : Z) :
  raises_only batch_error (Compressor.process_entry inp out quality file_path).
Proof.
  unfold Compressor.process_entry.
  apply raises_only_bind; [done |].
  intros [|]; [done |].
  apply raises_only_bind; [apply path_relative_to_raises |]. intros rel.
  apply raises_only_bind; [apply mkdir_parents_raises |]. intros _.
  destruct (is_jpeg_name file_path); simpl; [| done].
  apply comp_transcode_raises.
Qed.

Lemma conv_batch_raises `{Codec} `{Walk} (inp out : path) :
  raises_only batch_error (Converter.process_jpeg_files inp out).
Proof.
  unfold Converter.process_jpeg_files.
  apply raises_only_bind; [done |].
  intros [|]; simpl; [| intros s e [= <-]; left; by left].
  apply raises_only_bind; [apply mkdir_parents_raises |]. intros _.
  apply raises_only_bind; [done |]. intros l.
  apply raises_only_for_each. intros p. apply conv_entry_raises.
Qed.

Lemma comp_batch_raises `{Codec} `{Walk} (inp out : path) (quality : Z) :
  raises_only batch_error (Compressor.compress_jpeg inp out quality).
Proof.
  unfold Compressor.compress_jpeg.
  apply raises_only_bind; [apply mkdir_parents_raises |]. intros _.
  apply raises_only_bind; [done |]. intros l.
  apply raises_only_for_each. intros p. apply comp_entry_raises.
Qed.

(** X4.  The only exceptions that leave [process_jpeg_files] or
    [compress_jpeg] are those of [mkdir] ([FileNotFoundError],
    [FileExistsError], [NotADirectoryError]) and the [ValueError] of
    [relative_to]: whatever [Image.open], [img.save] or [stat] raise for an
    entry is caught and logged in the loop, with any codec. *)
Theorem X4_batch_exceptions `{Codec} `{Walk} (inp out : path) (quality : Z)
    (s : state) (e : exn) :
  (Converter.process_jpeg_files inp out s).1 = Raise e ∨
  (Compressor.compress_jpeg inp out quality s).1 = Raise e →
  batch_error e.
Proof.
  intros [He | He].
  - by eapply conv_batch_raises.
  - by eapply comp_batch_raises.
Qed.

Lemma X4_batch_exceptions_witness : batch_error FileExistsError.
Proof.
  apply (@X4_batch_exceptions toy_codec glob_keys ["in"] ["out"] 90
           (init blocked_tree) FileExistsError).
  left. vm_compute. reflexivity.
Defined.

(** ** The handles of the source files *)

#[export] Instance no_new_handle_preorder : PreOrder no_new_handle.
Proof.
  split.
  - by intros s x.
  - intros s1 s2 s3 H12 H23 x Hx. by apply H12, H23.
Qed.

Lemma preserves_same_handles {A} (m : M A) :
  (∀ s, open_files (m s).2 = open_files s) → preserves no_new_handle m.
Proof. intros Hm s x. by rewrite Hm. Qed.

Lemma mkdir_parents_handles (p : path) : preserves no_new_handle (mkdir_parents p).
Proof.
  apply preserves_same_handles. intros s.
  destruct (mkdir_parents p s) as [r s'] eqn:Hrun.
  by apply mkdir_parents_effect in Hrun as (_ & ? & _).
Qed.

Lemma emit_handles (r : log_record) : preserves no_new_handle (emit r).
Proof. by apply preserves_same_handles. Qed.

Lemma image_save_closed `{Codec} (img : opened_image) (dest : path)
    (opts : save_options) (s : state) (x : path) :
  pil_save_closes (im img) opts = true →
  x ∈ open_files (image_save img dest opts s).2 →
  x ≠ fp img ∧ x ∈ open_files s.
Proof.
  intros Hc. unfold image_save. rewrite Hc.
  rewrite <- close_file_open_files.
  destruct (pil_save (im img) opts); [| done |];
    destruct (open_for_writing (fs (close_file (fp img) s)) dest); try done.
  by destruct (exists_ (fs (close_file (fp img) s)) dest).
Qed.

Lemma conv_transcode_handles `{Codec} (p dest : path) :
  (∀ i o, pil_save_closes i o = true) →
  preserves no_new_handle (Converter.transcode p dest).
Proof.
  intros Hc. apply preserves_try_except; [apply _ | |].
  - intros s x. unfold Converter.try_body.
    unfold bind at 1. unfold image_open.
    destruct (fs s !! p) as [[|data]|]; try done.
    destruct (pil_open data) as [e | i]; [done |].
    unfold bind at 1. unfold info at 1, emit at 1.
    unfold bind at 1.
    match goal with |- context [image_save ?img ?d ?op ?s1] =>
      pose proof (image_save_closed img d op s1 x (Hc _ _)) as Hsave;
      destruct (image_save img d op s1) as [[[]|e] s2]
    end; simpl in *.
    + intros Hx. apply Hsave in Hx as [Hne Hx].
      apply elem_of_app in Hx as [Hx | Hx%list_elem_of_singleton]; done.
    + intros Hx. apply Hsave in Hx as [Hne Hx].
      apply elem_of_app in Hx as [Hx | Hx%list_elem_of_singleton]; done.
  - intros e. apply preserves_same_handles. by destruct e.
Qed.

Lemma conv_entry_handles `{Codec} (inp out file_path : path) :
  (∀ i o, pil_save_closes i o = true) →
  preserves no_new_handle (Converter.process_entry inp out file_path).
Proof.
  intros Hc. unfold Converter.process_entry, path_relative_to.
  destruct (relative_to file_path inp) as [rel|]; [| by intros s x].
  apply preserves_bind_ret.
  apply preserves_bind; [apply _ | by apply preserves_same_handles |].
  intros [|]; [apply mkdir_parents_handles |].
  destruct (is_jpeg_name file_path); simpl; [| apply emit_handles].
  apply preserves_bind; [apply _ | apply mkdir_parents_handles |].
  intros _. by apply conv_transcode_handles.
Qed.

Lemma comp_entry_handles `{Codec} (inp out file_path : path) (quality : Z) :
  preserves no_new_handle (Compressor.process_entry inp out quality file_path).
Proof.
  unfold Compressor.process_entry.
  apply preserves_bind; [apply _ | by apply preserves_same_handles |].
  intros [|]; [apply emit_handles |].
  unfold path_relative_to.
  destruct (relative_to file_path inp) as [rel|]; [| by intros s x].
  apply preserves_bind_ret.
  apply preserves_bind; [apply _ | apply mkdir_parents_handles |]. intros _.
  destruct (is_jpeg_name file_path); simpl; [| apply emit_handles].
  intros s x. apply comp_transcode_releases.
Qed.

Lemma comp_batch_handles `{Codec} `{Walk} (inp out : path) (quality : Z) :
  preserves no_new_handle (Compressor.compress_jpeg inp out quality).
Proof.
  unfold Compressor.compress_jpeg.
  apply preserves_bind; [apply _ | apply mkdir_parents_handles |]. intros _.
  apply preserves_bind; [apply _ | by apply preserves_same_handles |].
  intros l. apply preserves_for_each; [apply _ |].
  intros p _. apply comp_entry_handles.
Qed.

(** X5.  A run of [compress_jpeg] leaves no file open that was not open
    before it: the [with] statement closes each source on every way out of
    an entry, whatever the codec does and whether the run ends or aborts. *)
Theorem X5_compressor_closes_sources `{Codec} `{Walk} (inp out : path)
    (quality : Z) (s : state) (x : path) :
  x ∈ open_files (Compressor.compress_jpeg inp out quality s).2 →
  x ∈ open_files s.
Proof. apply comp_batch_handles. Qed.

Lemma X5_compressor_closes_sources_witness :
  ["in"; "open.jpg"] ∈ open_files (State sample_tree [] [["in"; "open.jpg"]] []).
Proof.
  apply (@X5_compressor_closes_sources toy_codec glob_keys ["in"] ["out"] 90).
  vm_compute. left.
Defined.

(** X6.  With a codec whose [save] always closes the source it has read, a
    run of [process_jpeg_files] leaves no file open that was not open before
    it. *)
Theorem X6_converter_closes_with_tidy_codec `{Codec} `{Walk} (inp out : path)
    (s : state) (x : path) :
  (∀ i o, pil_save_closes i o = true) →
  x ∈ open_files (Converter.process_jpeg_files inp out s).2 →
  x ∈ open_files s.
Proof.
  intros Hc. revert s x.
  change (preserves no_new_handle (Converter.process_jpeg_files inp out)).
  unfold Converter.process_jpeg_files.
  apply preserves_bind; [apply _ | by apply preserves_same_handles |].
  intros [|]; simpl; [| apply preserves_raise; apply _].
  apply preserves_bind; [apply _ | apply mkdir_parents_handles |]. intros _.
  apply preserves_bind; [apply _ | by apply preserves_same_handles |].
  intros l. apply preserves_for_each; [apply _ |].
  intros p _. by apply conv_entry_handles.
Qed.

Lemma X6_converter_closes_with_tidy_codec_witness :
  ["in"; "open.jpg"] ∈ open_files (State cut_tree [] [["in"; "open.jpg"]] []).
Proof.
  apply (@X6_converter_closes_with_tidy_codec tidy_codec glob_keys ["in"] ["out"]).
  - reflexivity.
  - vm_compute. left.
Defined.

(** ** [mkdir] against a regular file *)

Lemma wf_check_sound σ : wf_check σ = true → wf σ.
Proof.
  unfold wf_check. rewrite andb_true_iff, forallb_forall.
  intros [Hroot%is_dir_true Hpar]. split; [done |]. intros p x [n Hn].
  apply is_dir_true. rewrite <- (parent_snoc p x).
  apply (Hpar (p ++ [x], n)). apply list_elem_of_In.
  by apply elem_of_map_to_list.
Qed.

Lemma wf_below_file σ (p q : path) :
  wf σ → q `prefix_of` p → q ≠ p → is_file σ q = true → σ !! p = None.
Proof.
  intros Hwf Hq Hne Hf. destruct (σ !! p) as [n|] eqn:Hp; [| done].
  unfold is_file in Hf.
  by rewrite (wf_ancestor σ p q Hwf) in Hf by eauto.
Qed.

Lemma mkdir_parents_rev_blocked (rp q : path) (s : state) :
  wf (fs s) → q `prefix_of` rev rp → is_file (fs s) q = true →
  mkdir_parents_rev rp s =
    (Raise (if decide (q = rev rp) then FileExistsError else NotADirectoryError), s).
Proof.
  intros Hwf. induction rp as [|x rp IH]; intros Hq Hf.
  - apply prefix_nil_inv in Hq as ->. simpl.
    unfold is_file in Hf. unfold try_except, os_mkdir. simpl in *.
    destruct (fs s !! []) as [[|c]|] eqn:E; try done.
    run_m. unfold is_dir. by rewrite E.
  - change (mkdir_parents_rev (x :: rp)) with
      (try_except (os_mkdir (rev (x :: rp))) (fun e =>
         match e with
         | FileNotFoundError =>
             mkdir_parents_rev rp ;; mkdir_exist_ok (rev (x :: rp))
         | _ => d <- path_is_dir (rev (x :: rp)) ;;
                if d then ret tt else raise e
         end)).
    simpl rev in *. set (p := rev rp ++ [x]) in *.
    unfold try_except, os_mkdir.
    destruct (decide (q = p)) as [-> | Hne].
    + unfold is_file in Hf. destruct (fs s !! p) as [[|c]|] eqn:E; try done.
      run_m. unfold is_dir. by rewrite E.
    + rewrite (wf_below_file (fs s) p q) by done.
      subst p. rewrite parent_snoc.
      apply prefix_snoc_inv in Hq as [-> | Hq]; [done |].
      destruct (decide (q = rev rp)) as [Heq | Hne'].
      * rewrite <- Heq.
        assert (Hx : fs s !! (q ++ [x]) = None).
        { apply (wf_below_file (fs s) (q ++ [x]) q); [done | | | done].
          - by apply prefix_app_r.
          - intros Hqx. apply (f_equal length) in Hqx.
            rewrite length_app in Hqx. simpl in Hqx. lia. }
        unfold is_file in Hf. destruct (fs s !! q) as [[|c]|] eqn:E; try done.
        run_m. unfold is_dir. by rewrite Hx.
      * rewrite (wf_below_file (fs s) (rev rp) q) by done.
        unfold bind. by rewrite IH.
Qed.

(** X7.  On a file system where every entry lies in a directory,
    [mkdir(parents=True, exist_ok=True)] of a path with a regular file on the
    way fails without making any of the directories: with [FileExistsError]
    when the file is at the path itself and [NotADirectoryError] when it is
    above it. *)
Theorem X7_mkdir_blocked_by_file (p q : path) (s : state) :
  wf (fs s) → q `prefix_of` p → is_file (fs s) q = true →
  mkdir_parents p s =
    (Raise (if decide (q = p) then FileExistsError else NotADirectoryError), s).
Proof.
  intros Hwf Hq Hf. unfold mkdir_parents.
  rewrite (mkdir_parents_rev_blocked (rev p) q) by (by rewrite ?rev_involutive).
  by rewrite rev_involutive.
Qed.

Lemma X7_mkdir_blocked_by_file_witness :
  mkdir_parents ["out"; "a"; "b"; "c"] (init blocked_tree) =
    (Raise (if decide (["out"; "a"] = ["out"; "a"; "b"; "c"])
            then FileExistsError else NotADirectoryError), init blocked_tree).
Proof.
  apply X7_mkdir_blocked_by_file.
  - apply wf_check_sound. vm_compute. reflexivity.
  - by exists ["b"; "c"].
  - vm_compute. reflexivity.
Defined.

(** ** Stem and suffix *)




Lemma rfind_None (c : ascii) (s : string) :
  rfind c s = None → c ∉ list_ascii_of_string s.
Proof.
  induction s as [|a s IH]; simpl; [intros _; apply not_elem_of_nil |].
  destruct (rfind c s); [done |].
  destruct (Ascii.eqb a c) eqn:E; [done |]. intros _.
  apply Ascii.eqb_neq in E. apply not_elem_of_cons. split; [congruence | auto].
Qed.

(** X8.  [PurePath.stem] and [PurePath.suffix] split a name: the stem
    followed by the suffix is the name, and the suffix is empty or is the
    part from the last dot on, with a character after the dot and a
    non-empty stem before it.  So the name under which the auditor counts a
    file is the file name without its extension, and a name such as
    [.jpg] has no suffix. *)
Theorem X8_stem_suffix (n : string) :
  stem n +:+ suffix n = n ∧
  (suffix n = "" ∧ stem n = n ∨
   ∃ post : string, suffix n = String "." post ∧ post ≠ "" ∧
                    ("."%char ∉ list_ascii_of_string post) ∧ stem n ≠ "").
Proof.
  destruct (rfind "." n) as [i|] eqn:Hi.
  - apply rfind_Some in Hi as (pre & post & -> & _ & Hn).
    rewrite (stem_split _ _ Hn), (suffix_split _ _ Hn).
    apply rfind_None in Hn.
    case_decide as Hd.
    + split; [done |]. right. exists post. naive_solver.
    + split; [apply string_app_nil_r | by left].
  - unfold stem, suffix. rewrite Hi. split; [apply string_app_nil_r | by left].
Qed.

(** ** The confirmation of the compressor *)

Lemma lower_ascii_y (c : ascii) :
  lower_ascii c = "y"%char ↔ c = "y"%char ∨ c = "Y"%char.
Proof.
  split; [| by intros [-> | ->]].
  destruct c as [[] [] [] [] [] [] [] []]; vm_compute; intros [=]; auto.
Qed.

Lemma lower_y (s : string) : lower s = "y" ↔ s = "y" ∨ s = "Y".
Proof.
  destruct s as [|c [|c' s']]; simpl.
  - naive_solver.
  - split.
    + intros [= Hc%lower_ascii_y]. naive_solver.
    + intros [[= ->] | [= ->]]; done.
  - naive_solver.
Qed.

(** X9.  [main] of the compressor starts the compression on no answer but
    [y] or [Y]: with an input directory that exists and an output root that
    does not, any other line (the empty line, [yes], [n]) ends the run with
    the cancellation record after the three records of the settings, and
    nothing is created, not even the output root. *)
Theorem X9_compressor_needs_confirmation `{Codec} `{Walk} (module_dir : path)
    (datetime_str : string) (input_directory : path) (quality : Z)
    (answer : string) (s : state) :
  exists_ (fs s) input_directory = true →
  exists_ (fs s)
    (Compressor.output_root module_dir datetime_str input_directory quality)
    = false →
  answer ≠ "y" → answer ≠ "Y" →
  Compressor.main module_dir datetime_str input_directory quality answer s
  = (Return tt,
     State (fs s)
       (log s ++
        [rec INFO (Input_dir input_directory);
         rec INFO (Output_dir (Compressor.output_root module_dir datetime_str
                                 input_directory quality));
         rec INFO (Quality quality);
         rec INFO Cancelled])
       (open_files s) (console s)).
Proof.
  intros Hin Hout Hy HY. unfold Compressor.main. cbv zeta.
  destruct (String.eqb (lower answer) "y") eqn:Ha.
  { apply String.eqb_eq, lower_y in Ha. naive_solver. }
  remember (Compressor.output_root module_dir datetime_str input_directory
              quality) as o.
  run_m. rewrite Hin. simpl. rewrite Hout. simpl. rewrite <- !app_assoc. done.
Qed.

Lemma X9_compressor_needs_confirmation_witness :
  @Compressor.main toy_codec glob_keys ["app"] "20240101_000000" ["in"] 90 "yes"
    (init sample_tree)
  = (Return tt,
     State (fs (init sample_tree))
       (log (init sample_tree) ++
        [rec INFO (Input_dir ["in"]);
         rec INFO (Output_dir (Compressor.output_root ["app"] "20240101_000000"
                                 ["in"] 90));
         rec INFO (Quality 90);
         rec INFO Cancelled])
       (open_files (init sample_tree)) (console (init sample_tree))).
Proof.
  apply (@X9_compressor_needs_confirmation toy_codec glob_keys).
  - vm_compute. reflexivity.
  - vm_compute. reflexivity.
  - discriminate.
  - discriminate.
Defined.

(** ** The auditor: its dictionaries and its records *)






(** X10.  The whole run of the auditor on a root that exists.  With [files]
    the files of the walk in scope by the words of the specification and
    [keys] their base names: the run returns, leaves the file system and the
    open files alone, and prints the table when it has a row; it logs the
    number of files, the number of different base names and the number of
    rows of the table; when there are rows, the details that follow repeat
    the table row by row, each with its count and all its paths, and end
    with the same number of rows; and the table has a row for a base name
    exactly when two files or more bear it. *)
Theorem X10_auditor_run (W : Walk) (root : path) (s : state) :
  exists_ (fs s) root = true →
  let files := filter (λ f, Spec.in_scope (fs s) f) (glob_all (fs s) root) in
  let keys := map (λ f, Spec.base_name (name f)) files in
  ∃ s' rows,
    Counter.main root s = (Return tt, s') ∧
    fs s' = fs s ∧ open_files s' = open_files s ∧
    console s' = console s ++ match rows with [] => [] | _ :: _ => [rows] end ∧
    log s' = log s ++ summary_records root (length files)
                        (length (remove_dups keys)) rows ∧
    (∀ k c ps, (k, c, ps) ∈ rows ↔
               1 < c ∧ c = count_key k keys ∧ ps = Spec.group k files).
Proof.
  intros Hex files keys.
  pose proof (auditor_table W root s Hex) as Ht. cbv zeta in Ht.
  pose proof (auditor_run W root s Hex) as Hr. cbv zeta in Hr.
  rewrite select_jpeg_in_scope in Ht, Hr. fold files in Ht, Hr.
  assert (Hkeys : map (λ f, stem (name f)) files = keys).
  { apply map_ext_in. intros f Hf%list_elem_of_In.
    apply stem_base_name. by eapply in_scope_jpeg_name. }
  assert (Hgroup : ∀ k, files_with_stem k files = Spec.group k files).
  { intros k. unfold files_with_stem, Spec.group. apply filter_ext_in.
    intros f Hf. rewrite stem_base_name; [done |].
    by eapply in_scope_jpeg_name. }
  unfold auditor_records in Hr. cbv zeta in Hr. rewrite Hkeys in Ht, Hr.
  destruct Ht as (s' & rows & Hrun & _ & Hcons & Hrows & _).
  rewrite Hr in Hrun. injection Hrun as <-. simpl in Hcons.
  apply app_inv_head in Hcons.
  assert (Heq : report_rows files = rows).
  { destruct (report_rows files), rows; congruence. }
  rewrite Heq in Hr. clear Hcons Heq.
  eexists _, rows. split; [exact Hr |]. simpl. split_and!; try done.
  intros k c ps. by rewrite Hrows, Hgroup.
Qed.

Lemma X10_auditor_run_witness :
  let files := filter (λ f, Spec.in_scope (fs (init photo_tree)) f)
                 (@glob_all glob_keys (fs (init photo_tree)) ["in"]) in
  let keys := map (λ f, Spec.base_name (name f)) files in
  ∃ s' rows,
    @Counter.main glob_keys ["in"] (init photo_tree) = (Return tt, s') ∧
    fs s' = fs (init photo_tree) ∧
    open_files s' = open_files (init photo_tree) ∧
    console s' = console (init photo_tree) ++
                 match rows with [] => [] | _ :: _ => [rows] end ∧
    log s' = log (init photo_tree) ++
             summary_records ["in"] (length files)
               (length (remove_dups keys)) rows ∧
    (∀ k c ps, (k, c, ps) ∈ rows ↔
               1 < c ∧ c = count_key k keys ∧ ps = Spec.group k files).
Proof.
  apply (X10_auditor_run glob_keys ["in"] (init photo_tree)).
  vm_compute. reflexivity.
Defined.

Lemma paths_add_lengths (k : string) (f : path) (d : list (string * list path)) :
  map (λ kp : string * list path, (kp.1, length kp.2)) (Counter.paths_add k f d)
  = Counter.counter_add k (map (λ kp : string * list path, (kp.1, length kp.2)) d).
Proof.
  induction d as [|[k' ps] d IH]; simpl; [done |].
  destruct (String.eqb k' k); simpl.
  - rewrite length_app. simpl. by rewrite Nat.add_1_r.
  - by rewrite IH.
Qed.

Lemma counter_add_sum (k : string) (c : list (string * nat)) :
  sum_list (map snd (Counter.counter_add k c)) = S (sum_list (map snd c)).
Proof.
  induction c as [|[k' n] c IH]; simpl; [done |].
  destruct (String.eqb k' k); simpl; [done |]. rewrite IH. lia.
Qed.

Lemma paths_add_concat (k : string) (f : path) (d : list (string * list path)) :
  concat (map snd (Counter.paths_add k f d)) ≡ₚ f :: concat (map snd d).
Proof.
  induction d as [|[k' ps] d IH]; simpl; [done |].
  destruct (String.eqb k' k); simpl.
  - rewrite <- app_assoc. simpl.
    rewrite <- Permutation_middle. done.
  - rewrite IH. by rewrite Permutation_middle.
Qed.

(** X11.  The two dictionaries of the auditor agree on every file list: the
    counter is the dictionary of paths with each list replaced by its
    length, key by key and in the same order (so no lookup of a counted name
    fails); the counts add up to the number of files; and the lists of paths
    together hold each file once. *)
Theorem X11_auditor_dictionaries (files : list path) :
  let keys := map (λ f, stem (name f)) files in
  map (λ kp : string * list path, (kp.1, length kp.2)) (Counter.group_paths files)
    = Counter.counter_of keys ∧
  sum_list (map snd (Counter.counter_of keys)) = length files ∧
  concat (map snd (Counter.group_paths files)) ≡ₚ files.
Proof.
  cbv zeta. unfold Counter.group_paths, Counter.counter_of.
  induction files as [|f files (IH1 & IH2 & IH3)] using rev_ind; [done |].
  rewrite map_app. simpl. rewrite !foldl_snoc. split_and!.
  - by rewrite paths_add_lengths, IH1.
  - rewrite counter_add_sum, IH2, length_app. simpl. lia.
  - rewrite paths_add_concat, IH3. by rewrite <- Permutation_cons_append.
Qed.

(** ** [most_common] as a sort *)

Lemma insert_desc_elem x y l :
  y ∈ Counter.insert_desc x l ↔ y = x ∨ y ∈ l.
Proof. rewrite insert_desc_perm. apply elem_of_cons. Qed.

Lemma insert_desc_desc x l :
  StronglySorted count_desc l → StronglySorted count_desc (Counter.insert_desc x l).
Proof.
  induction l as [|y l IH]; intros Hs; simpl.
  - repeat constructor.
  - apply StronglySorted_cons in Hs as [Hy Hs].
    destruct (x.2 <? y.2)%nat eqn:E.
    + apply Nat.ltb_lt in E. constructor; [by apply IH |].
      apply Forall_forall. intros z [-> | Hz]%insert_desc_elem.
      * unfold count_desc. lia.
      * rewrite Forall_forall in Hy. by apply Hy.
    + apply Nat.ltb_ge in E. constructor; [by constructor |].
      constructor; [done |]. eapply Forall_impl; [exact Hy |].
      unfold count_desc. intros z Hz. simpl in *. lia.
Qed.

Lemma most_common_desc c : StronglySorted count_desc (Counter.most_common c).
Proof.
  induction c as [|x c IH]; simpl; [constructor | by apply insert_desc_desc].
Qed.

Lemma most_common_fixed c :
  StronglySorted count_desc c → Counter.most_common c = c.
Proof.
  induction c as [|x c IH]; intros Hs; simpl; [done |].
  apply StronglySorted_cons in Hs as [Hx Hs]. rewrite IH by done.
  destruct c as [|y c]; [done |]. simpl.
  apply Forall_cons in Hx as [Hy _]. unfold count_desc in Hy.
  replace (x.2 <? y.2)%nat with false; [done |].
  symmetry. apply Nat.ltb_ge. done.
Qed.

(** X12.  [most_common()] sorts: its result holds the items of the counter,
    each as often, by descending count; it leaves a list that is in
    descending order of count as it is, so sorting twice is sorting once. *)
Theorem X12_most_common_sorts (c : list (string * nat)) :
  Counter.most_common c ≡ₚ c ∧
  StronglySorted count_desc (Counter.most_common c) ∧
  Counter.most_common (Counter.most_common c) = Counter.most_common c.
Proof.
  split_and!; [apply most_common_perm | apply most_common_desc |].
  apply most_common_fixed, most_common_desc.
Qed.

(** ** What one [try] statement does to its destination *)

#[export] Instance same_at_preorder (q : path) : PreOrder (same_at q).
Proof.
  split.
  - by intros s.
  - intros s1 s2 s3 H12 H23. unfold same_at in *. congruence.
Qed.

Lemma preserves_same_at_fs {A} (q : path) (m : M A) :
  (∀ s, fs (m s).2 = fs s) → preserves (same_at q) m.
Proof. intros Hm s. unfold same_at. by rewrite Hm. Qed.

Lemma image_open_fs `{Codec} (p : path) (s : state) : fs (image_open p s).2 = fs s.
Proof.
  unfold image_open.
  destruct (fs s !! p) as [[|data]|]; try done. by destruct (pil_open data).
Qed.

Lemma stat_size_fs (p : path) (s : state) : fs (stat_size p s).2 = fs s.
Proof. unfold stat_size. by destruct (fs s !! p) as [[|data]|]. Qed.

Lemma image_save_frame `{Codec} (img : opened_image) (dest : path)
    (opts : save_options) (q : path) :
  q ≠ dest → preserves (same_at q) (image_save img dest opts).
Proof.
  intros Hq s. unfold same_at, image_save.
  set (s1 := if pil_save_closes (im img) opts then close_file (fp img) s else s).
  assert (Hs1 : fs s1 = fs s) by (subst s1; by destruct (pil_save_closes _ _)).
  clearbody s1. rewrite <- Hs1.
  destruct (pil_save (im img) opts) as [data | e | e partial]; simpl; [| done |].
  - destruct (open_for_writing (fs s1) dest); simpl; [done |].
    by rewrite lookup_insert_ne.
  - destruct (open_for_writing (fs s1) dest); simpl; [done |].
    destruct (exists_ (fs s1) dest); simpl; [| done].
    by rewrite lookup_insert_ne.
Qed.

(** [save] with an encoder that ends writes the file when the destination can
    be opened. *)
Lemma image_save_written `{Codec} (img : opened_image) (dest : path)
    (opts : save_options) (d : content) (s : state) :
  pil_save (im img) opts = Encoded d →
  open_for_writing (fs s) dest = None →
  (image_save img dest opts s).1 = Return tt ∧
  fs (image_save img dest opts s).2 = <[dest := File d]> (fs s).
Proof.
  intros Hsv How. unfold image_save.
  set (s1 := if pil_save_closes (im img) opts then close_file (fp img) s else s).
  assert (Hs1 : fs s1 = fs s) by (subst s1; by destruct (pil_save_closes _ _)).
  clearbody s1. rewrite <- Hs1 in How |- *. rewrite Hsv, How. done.
Qed.

(** [save] that raises leaves no file where none was. *)
Lemma image_save_absent `{Codec} (img : opened_image) (dest : path)
    (opts : save_options) (s : state) :
  (∀ d, pil_save (im img) opts ≠ Encoded d) →
  fs s !! dest = None →
  fs (image_save img dest opts s).2 = fs s.
Proof.
  intros Hsv Hd. unfold image_save.
  set (s1 := if pil_save_closes (im img) opts then close_file (fp img) s else s).
  assert (Hs1 : fs s1 = fs s) by (subst s1; by destruct (pil_save_closes _ _)).
  clearbody s1.
  destruct (pil_save (im img) opts) as [data | e | e partial]; simpl;
    [by destruct (Hsv data) | done |].
  destruct (open_for_writing (fs s1) dest); simpl; [done |].
  unfold exists_. by rewrite Hs1, Hd.
Qed.

Lemma conv_transcode_frame `{Codec} (p dest q : path) :
  q ≠ dest → preserves (same_at q) (Converter.transcode p dest).
Proof.
  intros Hq. apply preserves_try_except; [apply _ | |].
  - unfold Converter.try_body.
    apply preserves_bind; [apply _ | |].
    { apply preserves_same_at_fs, image_open_fs. }
    intros img. apply preserves_bind; [apply _ | by apply preserves_same_at_fs |].
    intros _. apply preserves_bind; [apply _ | by apply image_save_frame |].
    intros _. by apply preserves_same_at_fs.
  - intros e. apply preserves_same_at_fs, conv_on_error_same_fs.
Qed.

Lemma comp_transcode_frame `{Codec} (p dest q : path) (quality : Z) :
  q ≠ dest → preserves (same_at q) (Compressor.transcode p dest quality).
Proof.
  intros Hq. apply preserves_try_except; [apply _ | |].
  - unfold Compressor.try_body.
    apply preserves_bind; [apply _ | |].
    { apply preserves_same_at_fs, stat_size_fs. }
    intros n. unfold with_image_open.
    apply preserves_bind; [apply _ | |].
    { apply preserves_same_at_fs, image_open_fs. }
    intros img s.
    assert (Hb : preserves (same_at q)
              (image_save img dest (Compressor.options quality) ;;
               compressed_size <- stat_size dest ;;
               if (n =? 0)%nat then raise ZeroDivisionError
               else info (Compressed p dest n compressed_size))).
    { apply preserves_bind; [apply _ | by apply image_save_frame |].
      intros _. apply preserves_bind; [apply _ | |].
      { apply preserves_same_at_fs, stat_size_fs. }
      intros m. destruct (n =? 0)%nat; by apply preserves_same_at_fs. }
    specialize (Hb s). unfold same_at in *.
    match goal with |- context [let '(r, s') := ?b in _] =>
      destruct b as [r s'] end.
    done.
  - intros e. by apply preserves_same_at_fs.
Qed.

Lemma conv_try_body_fs `{Codec} (p dest : path) (data : content) (s : state) :
  fs s !! p = Some (File data) →
  match pil_open data with
  | inl _ => fs (Converter.try_body p dest s).2 = fs s
  | inr i =>
      ∃ s2, fs s2 = fs s ∧
            fs (Converter.try_body p dest s).2
            = fs (image_save (Opened i p) dest Converter.options s2).2
  end.
Proof.
  intros Hp. destruct (pil_open data) as [e | i] eqn:Ho.
  { unfold Converter.try_body, bind, image_open. by rewrite Hp, Ho. }
  unfold Converter.try_body. unfold bind at 1. unfold image_open.
  rewrite Hp, Ho.
  unfold bind at 1. unfold info at 1, emit at 1. cbv beta iota.
  unfold bind at 1.
  match goal with |- context [image_save _ _ _ ?s0] => exists s0 end.
  split; [done |].
  match goal with |- context [image_save ?img ?d ?o ?s0] =>
    destruct (image_save img d o s0) as [[[]|e] s3] end; done.
Qed.

Lemma comp_try_body_fs `{Codec} (p dest : path) (data : content) (quality : Z)
    (s : state) :
  fs s !! p = Some (File data) →
  match pil_open data with
  | inl _ => fs (Compressor.try_body p dest quality s).2 = fs s
  | inr i =>
      ∃ s2, fs s2 = fs s ∧
            fs (Compressor.try_body p dest quality s).2
            = fs (image_save (Opened i p) dest (Compressor.options quality) s2).2
  end.
Proof.
  intros Hp. destruct (pil_open data) as [e | i] eqn:Ho.
  { unfold Compressor.try_body. unfold bind at 1. unfold stat_size at 1.
    rewrite Hp. unfold with_image_open. unfold bind at 1. unfold image_open.
    by rewrite Hp, Ho. }
  unfold Compressor.try_body. unfold bind at 1. unfold stat_size at 1.
  rewrite Hp. unfold with_image_open. unfold bind at 1. unfold image_open.
  rewrite Hp, Ho.
  unfold bind at 1.
  match goal with |- context [image_save _ _ _ ?s0] => exists s0 end.
  split; [done |].
  match goal with |- context [image_save ?img ?d ?o ?s0] =>
    destruct (image_save img d o s0) as [[[]|e] s3] end; [| done].
  unfold bind, stat_size. simpl.
  destruct (fs s3 !! dest) as [[|c]|]; try done;
    by destruct (length data =? 0)%nat.
Qed.

Lemma conv_transcode_fs `{Codec} (p dest : path) (s : state) :
  fs (Converter.transcode p dest s).2 = fs (Converter.try_body p dest s).2.
Proof.
  unfold Converter.transcode, try_except.
  destruct (Converter.try_body p dest s) as [[[]|e] s1]; [done |].
  apply conv_on_error_same_fs.
Qed.

Lemma comp_transcode_fs `{Codec} (p dest : path) (quality : Z) (s : state) :
  fs (Compressor.transcode p dest quality s).2
  = fs (Compressor.try_body p dest quality s).2.
Proof.
  unfold Compressor.transcode, try_except.
  by destruct (Compressor.try_body p dest quality s) as [[[]|e] s1].
Qed.

Lemma save_dest `{Codec} (i : image) (p dest : path) (opts : save_options)
    (s s2 : state) :
  fs s2 = fs s →
  match pil_save i opts with
  | Encoded d =>
      open_for_writing (fs s) dest = None →
      fs (image_save (Opened i p) dest opts s2).2 = <[dest := File d]> (fs s)
  | _ =>
      fs s !! dest = None → fs (image_save (Opened i p) dest opts s2).2 = fs s
  end.
Proof.
  intros Hs2.
  destruct (pil_save i opts) as [d | e | e partial] eqn:Hsv.
  - intros How. rewrite <- Hs2 in How |- *.
    by apply image_save_written.
  - intros Hd. rewrite <- Hs2 in Hd |- *.
    apply image_save_absent; [| done]. simpl. congruence.
  - intros Hd. rewrite <- Hs2 in Hd |- *.
    apply image_save_absent; [| done]. simpl. congruence.
Qed.

(** The destination after the [try] statement of the converter, on a source
    that exists. *)
Lemma conv_transcode_dest `{Codec} (p dest : path) (data : content) (s : state) :
  fs s !! p = Some (File data) →
  match encoded Converter.options data with
  | Some d =>
      open_for_writing (fs s) dest = None →
      fs (Converter.transcode p dest s).2 = <[dest := File d]> (fs s)
  | None =>
      fs s !! dest = None → fs (Converter.transcode p dest s).2 = fs s
  end.
Proof.
  intros Hp. rewrite conv_transcode_fs.
  pose proof (conv_try_body_fs p dest data s Hp) as Hb. unfold encoded.
  destruct (pil_open data) as [e | i]; [done |].
  destruct Hb as (s2 & Hs2 & ->).
  pose proof (save_dest i p dest Converter.options s s2 Hs2) as Hsave.
  by destruct (pil_save i Converter.options).
Qed.

(** The same for the compressor. *)
Lemma comp_transcode_dest `{Codec} (p dest : path) (data : content)
    (quality : Z) (s : state) :
  fs s !! p = Some (File data) →
  match encoded (Compressor.options quality) data with
  | Some d =>
      open_for_writing (fs s) dest = None →
      fs (Compressor.transcode p dest quality s).2 = <[dest := File d]> (fs s)
  | None =>
      fs s !! dest = None → fs (Compressor.transcode p dest quality s).2 = fs s
  end.
Proof.
  intros Hp. rewrite comp_transcode_fs.
  pose proof (comp_try_body_fs p dest data quality s Hp) as Hb. unfold encoded.
  destruct (pil_open data) as [e | i]; [done |].
  destruct Hb as (s2 & Hs2 & ->).
  pose proof (save_dest i p dest (Compressor.options quality) s s2 Hs2) as Hsave.
  by destruct (pil_save i (Compressor.options quality)).
Qed.

(** ** The output tree of a run into a fresh output root *)

Lemma not_prefix_longer (a r : path) : r ≠ [] → ¬ (a ++ r) `prefix_of` a.
Proof.
  intros Hr Hp%prefix_length. rewrite length_app in Hp.
  destruct r; [done |]. simpl in Hp. lia.
Qed.

Lemma not_prefix_parent (a r : path) :
  r ≠ [] → ¬ (a ++ r) `prefix_of` (a ++ parent r).
Proof.
  intros Hr Hp%prefix_length. rewrite !length_app in Hp. unfold parent in Hp.
  rewrite length_take in Hp. destruct r; [done |]. simpl in Hp. lia.
Qed.

Lemma relative_to_None (q root : path) :
  relative_to q root = None → ¬ root `prefix_of` q.
Proof. intros Hn [k ->]. by rewrite relative_to_app in Hn. Qed.

Section Exact.
Context `{Codec}.
Variables (σ0 : gmap path node) (inp out : path).
Hypothesis Hwf0 : wf σ0.
Hypothesis Hdis : disjoint inp out.
Local Abbreviation Inv := (mirror_inv σ0 inp out).
Local Abbreviation Above := (above_a_file σ0 inp out).

(** Nothing but the turn of an entry makes a file or a directory at the
    mirror of a file. *)
Lemma inv_still_absent σ σ' (rel r : path) (data : content) :
  Inv σ → Inv σ' → rel ≠ r →
  changes_only (λ q, q = out ++ rel) σ σ' →
  σ0 !! (inp ++ r) = Some (File data) →
  σ !! (out ++ r) = None → σ' !! (out ++ r) = None.
Proof.
  intros HI HI' Hne Hch Hdata Hn.
  destruct (Hch (out ++ r)) as [E | [_ E]].
  - intros E%app_inv_head. done.
  - congruence.
  - apply (inv_dir _ _ _ _ HI') in E as [-> | E]; [| congruence].
    rewrite app_nil_r in Hn. rewrite (inv_root _ _ _ _ HI) in Hn. done.
Qed.

Lemma conv_step_absent (s : state) (rel r : path) (data : content) :
  Inv (fs s) → rel ≠ [] → is_Some (σ0 !! (inp ++ rel)) →
  σ0 !! (inp ++ r) = Some (File data) →
  encoded Converter.options data = None →
  fs s !! (out ++ r) = None →
  fs (Converter.process_entry inp out (inp ++ rel) s).2 !! (out ++ r) = None.
Proof.
  intros HI Hrel Hs Hdata Henc Hn.
  destruct (decide (rel = r)) as [-> | Hne].
  - unfold Converter.process_entry, path_relative_to.
    rewrite relative_to_app. run_m. unfold is_dir.
    rewrite (inv_in _ _ _ _ HI), Hdata.
    destruct (is_jpeg_name (inp ++ r)); simpl; [| done].
    rewrite parent_app by done.
    destruct (inv_mkdir σ0 inp out Hwf0 Hdis s (parent r) HI)
      as (σ' & Hrun & HI' & _ & _ & Hfr).
    { right. by apply parent_in_tree. }
    rewrite Hrun.
    pose proof (conv_transcode_dest (inp ++ r) (out ++ r) data (set_fs σ' s))
      as Hd.
    rewrite Henc in Hd. simpl in Hd.
    rewrite Hd; simpl.
    + rewrite Hfr; [done | by apply not_prefix_parent].
    + by rewrite (inv_in _ _ _ _ HI').
    + rewrite Hfr; [done | by apply not_prefix_parent].
  - destruct (conv_step σ0 inp out Hwf0 Hdis s rel HI Hrel Hs)
      as (s1 & Hrun & HI1 & _ & Hch & _).
    rewrite Hrun. simpl.
    by apply (inv_still_absent (fs s) (fs s1) rel r data).
Qed.

Lemma conv_loop_absent (l : list path) (s : state) (r : path) (data : content) :
  Inv (fs s) → entries_ok σ0 inp l →
  σ0 !! (inp ++ r) = Some (File data) →
  encoded Converter.options data = None →
  fs s !! (out ++ r) = None →
  fs (for_each l (Converter.process_entry inp out) s).2 !! (out ++ r) = None.
Proof.
  intros HI Hl Hdata Henc. revert s HI.
  induction l as [|p l IH]; intros s HI Hn; [done |].
  apply entries_ok_cons in Hl as [(rel & Hrel & -> & Hs) Hl].
  pose proof (conv_step_absent s rel r data HI Hrel Hs Hdata Henc Hn) as Hn1.
  destruct (conv_step σ0 inp out Hwf0 Hdis s rel HI Hrel Hs)
    as (s1 & Hrun & HI1 & _).
  cbn [for_each]. unfold bind. rewrite Hrun in Hn1 |- *. simpl in Hn1.
  by apply IH.
Qed.

Lemma comp_step_absent (s : state) (rel r : path) (data : content)
    (quality : Z) :
  Inv (fs s) → Above (fs s) → rel ≠ [] → is_Some (σ0 !! (inp ++ rel)) →
  σ0 !! (inp ++ r) = Some (File data) →
  encoded (Compressor.options quality) data = None →
  fs s !! (out ++ r) = None →
  fs (Compressor.process_entry inp out quality (inp ++ rel) s).2 !! (out ++ r)
    = None.
Proof.
  intros HI HA Hrel Hs Hdata Henc Hn.
  destruct (decide (rel = r)) as [-> | Hne].
  - unfold Compressor.process_entry, path_relative_to.
    run_m. unfold is_dir.
    rewrite (inv_in _ _ _ _ HI), Hdata. rewrite relative_to_app. run_m.
    rewrite parent_app by done.
    destruct (inv_mkdir σ0 inp out Hwf0 Hdis s (parent r) HI)
      as (σ' & Hrun & HI' & _ & _ & Hfr).
    { right. by apply parent_in_tree. }
    rewrite Hrun.
    destruct (is_jpeg_name (inp ++ r)); simpl.
    2: { rewrite Hfr; [done | by apply not_prefix_parent]. }
    pose proof (comp_transcode_dest (inp ++ r) (out ++ r) data quality
                  (set_fs σ' s)) as Hd.
    rewrite Henc in Hd. simpl in Hd.
    rewrite Hd; simpl.
    + rewrite Hfr; [done | by apply not_prefix_parent].
    + by rewrite (inv_in _ _ _ _ HI').
    + rewrite Hfr; [done | by apply not_prefix_parent].
  - destruct (comp_step σ0 inp out Hwf0 Hdis s rel quality HI HA Hrel Hs)
      as (s1 & Hrun & HI1 & _ & _ & Hch & _).
    rewrite Hrun. simpl.
    by apply (inv_still_absent (fs s) (fs s1) rel r data).
Qed.

Lemma comp_loop_absent (l : list path) (s : state) (r : path) (data : content)
    (quality : Z) :
  Inv (fs s) → Above (fs s) → entries_ok σ0 inp l →
  σ0 !! (inp ++ r) = Some (File data) →
  encoded (Compressor.options quality) data = None →
  fs s !! (out ++ r) = None →
  fs (for_each l (Compressor.process_entry inp out quality) s).2 !! (out ++ r)
    = None.
Proof.
  intros HI HA Hl Hdata Henc. revert s HI HA.
  induction l as [|p l IH]; intros s HI HA Hn; [done |].
  apply entries_ok_cons in Hl as [(rel & Hrel & -> & Hs) Hl].
  pose proof (comp_step_absent s rel r data quality HI HA Hrel Hs Hdata Henc Hn)
    as Hn1.
  destruct (comp_step σ0 inp out Hwf0 Hdis s rel quality HI HA Hrel Hs)
    as (s1 & Hrun & HI1 & HA1 & _).
  cbn [for_each]. unfold bind. rewrite Hrun in Hn1 |- *. simpl in Hn1.
  by apply IH.
Qed.
End Exact.

Section ExactRuns.
Context `{Codec} (W : Walk).
Variables (σ0 : gmap path node) (inp out : path).
Hypothesis HW : walk_spec W.
Hypothesis Hfresh : fresh_run σ0 inp out.

Lemma fresh_mkdir_exact (s : state) :
  fs s = σ0 →
  ∃ σ1, mkdir_parents out s = (Return tt, set_fs σ1 s) ∧
        mirror_inv σ0 inp out σ1 ∧ above_a_file σ0 inp out σ1 ∧
        is_walk σ0 inp (glob_all σ1 inp) ∧
        ∀ rel : path, rel ≠ [] → σ1 !! (out ++ rel) = None.
Proof.
  intros Hs.
  destruct (fresh_mkdir W σ0 inp out HW Hfresh s Hs)
    as (σ1 & Hrun & HI & HA & _ & Hwalk).
  exists σ1. split_and!; try done. intros rel Hrel.
  destruct (mkdir_parents_ok out s) as (σ1' & Hrun' & _ & Hσ1).
  { rewrite Hs. apply Hfresh. }
  { rewrite Hs. apply Hfresh. }
  rewrite Hrun in Hrun'. injection Hrun' as Hσ.
  rewrite Hσ, Hσ1, decide_False by (by apply not_prefix_longer).
  rewrite Hs. by apply (fr_empty _ _ _ Hfresh).
Qed.

Lemma conv_run_exact (s : state) :
  fs s = σ0 → is_Some (σ0 !! inp) →
  ∃ s', Converter.process_jpeg_files inp out s = (Return tt, s') ∧
        mirror_inv σ0 inp out (fs s') ∧
        ∀ q : path, fs s' !! q = conv_output σ0 inp out q.
Proof.
  intros Hs Hin.
  destruct (conv_run W σ0 inp out HW Hfresh s Hs Hin)
    as (s' & l & Hrun & Hl & HI & _ & Hd & Hf).
  exists s'. split; [done |]. split; [done |]. intros q. unfold conv_output.
  case_bool_decide as Hqo; [by eapply inv_prefix_out |].
  destruct (relative_to q out) as [rel|] eqn:Hrel.
  - apply relative_to_Some in Hrel as ->.
    assert (Hne : rel ≠ []).
    { intros ->. apply Hqo. by rewrite app_nil_r. }
    destruct (σ0 !! (inp ++ rel)) as [[|data]|] eqn:Hn.
    + by apply Hd.
    + destruct (is_jpeg_name (inp ++ rel)) eqn:Hj.
      * unfold encoded.
        destruct (encoded Converter.options data) as [d|] eqn:Henc.
        -- unfold encoded in Henc |- *.
           destruct (pil_open data) as [e | i] eqn:Ho; [done |].
           destruct (pil_save i Converter.options) as [d' | |] eqn:Hsv;
             try done.
           simpl. eapply Hf; eauto.
        -- fold (encoded Converter.options data). rewrite Henc. simpl.
           destruct (fresh_mkdir_exact s Hs) as (σ1 & Hmk & HI1 & _ & Hw & He).
           assert (Hs' : s' = (Converter.process_jpeg_files inp out s).2)
             by (by rewrite Hrun).
           rewrite Hs'. unfold Converter.process_jpeg_files. run_m.
           unfold exists_. destruct Hin as [n Hn']. rewrite Hs, Hn'. simpl.
           rewrite Hmk. simpl.
           apply (conv_loop_absent σ0 inp out (fr_wf _ _ _ Hfresh)
                    (fr_disjoint _ _ _ Hfresh) _ _ rel data);
             [done | by apply is_walk_entries_ok | done | done |].
           simpl. by apply He.
      * destruct (fs s' !! (out ++ rel)) as [[|c]|] eqn:E; [| | done].
        -- apply (inv_dir _ _ _ _ HI) in E as [? | E]; congruence.
        -- apply (inv_file _ _ _ _ HI) in E as [_ E]. congruence.
    + destruct (fs s' !! (out ++ rel)) as [[|c]|] eqn:E; [| | done].
      * apply (inv_dir _ _ _ _ HI) in E as [? | E]; congruence.
      * apply (inv_file _ _ _ _ HI) in E as [E _]. unfold is_file in E.
        by rewrite Hn in E.
  - apply relative_to_None in Hrel.
    assert (Hs' : s' = (Converter.process_jpeg_files inp out s).2)
      by (by rewrite Hrun).
    rewrite Hs', <- Hs.
    eapply run_effect_outside;
      [apply conv_batch_touches | apply jpeg_target_below | done | done].
Qed.

Lemma comp_run_files (s : state) (quality : Z) :
  fs s = σ0 →
  ∃ s', Compressor.compress_jpeg inp out quality s = (Return tt, s') ∧
        mirror_inv σ0 inp out (fs s') ∧
        ∀ (rel : path) (c : content),
          fs s' !! (out ++ rel) = Some (File c) ↔
          rel ≠ [] ∧ comp_file σ0 inp quality rel = Some c.
Proof.
  intros Hs.
  destruct (comp_run W σ0 inp out HW Hfresh s quality Hs)
    as (s' & l & Hrun & Hl & HI & HA & _ & _ & Hf).
  exists s'. split; [done |]. split; [done |]. intros rel c.
  unfold comp_file.
  assert (Habs : ∀ data, rel ≠ [] → σ0 !! (inp ++ rel) = Some (File data) →
            encoded (Compressor.options quality) data = None →
            fs s' !! (out ++ rel) = None).
  { intros data Hne Hn Henc.
    destruct (fresh_mkdir_exact s Hs) as (σ1 & Hmk & HI1 & HA1 & Hw & He).
    assert (Hs' : s' = (Compressor.compress_jpeg inp out quality s).2)
      by (by rewrite Hrun).
    rewrite Hs'. unfold Compressor.compress_jpeg. run_m.
    rewrite Hmk. simpl.
    apply (comp_loop_absent σ0 inp out (fr_wf _ _ _ Hfresh)
             (fr_disjoint _ _ _ Hfresh) _ _ rel data quality);
      [done | done | by apply is_walk_entries_ok | done | done |].
    simpl. by apply He. }
  assert (Hwr : ∀ data d, rel ≠ [] → σ0 !! (inp ++ rel) = Some (File data) →
            is_jpeg_name (inp ++ rel) = true →
            encoded (Compressor.options quality) data = Some d →
            fs s' !! (out ++ rel) = Some (File d)).
  { intros data d Hne Hn Hj Henc. unfold encoded in Henc.
    destruct (pil_open data) as [e | i] eqn:Ho; [done |].
    destruct (pil_save i (Compressor.options quality)) as [d' | |] eqn:Hsv;
      try done.
    injection Henc as <-. eapply Hf; eauto. }
  split.
  - intros Hc.
    assert (Hne : rel ≠ []).
    { intros ->. rewrite app_nil_r, (inv_root _ _ _ _ HI) in Hc. done. }
    split; [done |].
    destruct (inv_file _ _ _ _ HI _ _ Hc) as [[data Hn]%is_file_true Hj].
    rewrite Hn, Hj.
    destruct (encoded (Compressor.options quality) data) as [d|] eqn:Henc.
    + rewrite (Hwr data d) in Hc by done. congruence.
    + rewrite (Habs data) in Hc by done. done.
  - intros [Hne Hc].
    destruct (σ0 !! (inp ++ rel)) as [[|data]|] eqn:Hn; try done.
    destruct (is_jpeg_name (inp ++ rel)) eqn:Hj; [| done].
    by apply (Hwr data).
Qed.
End ExactRuns.

(** X13.  The file system after a run of the converter from an input root
    that exists into a fresh output root apart from it, path by path: the
    output root and the directories above it; under the output root, a
    directory for each directory of the input tree, and for each JPEG-named
    file that the codec decodes and encodes, the encoded bytes; nothing for
    any other file, in particular nothing for a file whose decoding or
    encoding raises; and every other path as it was. *)
Theorem X13_converter_output `{Codec} (W : Walk) σ0 (inp out : path) :
  walk_spec W → fresh_run σ0 inp out → is_Some (σ0 !! inp) →
  ∃ s', Converter.process_jpeg_files inp out (init σ0) = (Return tt, s') ∧
        ∀ q : path, fs s' !! q = conv_output σ0 inp out q.
Proof.
  intros HW Hfresh Hin.
  destruct (conv_run_exact W σ0 inp out HW Hfresh (init σ0) eq_refl Hin)
    as (s' & Hrun & _ & Hfs).
  eauto.
Qed.

Lemma X13_converter_output_witness :
  ∃ s', @Converter.process_jpeg_files toy_codec glob_keys ["in"] ["out"]
          (init sample_tree) = (Return tt, s') ∧
        ∀ q : path, fs s' !! q = @conv_output toy_codec sample_tree ["in"] ["out"] q.
Proof.
  apply (@X13_converter_output toy_codec glob_keys sample_tree ["in"] ["out"]).
  - apply glob_keys_spec.
  - apply fresh_run_check_sound. vm_compute. reflexivity.
  - vm_compute. eauto.
Defined.

(** X14.  After a run of the compressor into a fresh output root apart from
    the input root, the regular files under the output root are exactly the
    encoded bytes of the JPEG-named files of the input tree that the codec
    decodes and encodes, each at the mirror of its path: no file is left
    for a source whose decoding or encoding raises, and a file is left for
    a source that is encoded even when the entry ends in the error of the
    ratio of the sizes. *)
Theorem X14_compressor_files `{Codec} (W : Walk) σ0 (inp out : path)
    (quality : Z) :
  walk_spec W → fresh_run σ0 inp out →
  ∃ s', Compressor.compress_jpeg inp out quality (init σ0) = (Return tt, s') ∧
        ∀ (rel : path) (c : content),
          fs s' !! (out ++ rel) = Some (File c) ↔
          rel ≠ [] ∧ comp_file σ0 inp quality rel = Some c.
Proof.
  intros HW Hfresh.
  destruct (comp_run_files W σ0 inp out HW Hfresh (init σ0) quality eq_refl)
    as (s' & Hrun & _ & Hfs).
  eauto.
Qed.

Lemma X14_compressor_files_witness :
  ∃ s', @Compressor.compress_jpeg toy_codec glob_keys ["in"] ["out"] 90
          (init sample_tree) = (Return tt, s') ∧
        ∀ (rel : path) (c : content),
          fs s' !! (["out"] ++ rel) = Some (File c) ↔
          rel ≠ [] ∧ @comp_file toy_codec sample_tree ["in"] 90 rel = Some c.
Proof.
  apply (@X14_compressor_files toy_codec glob_keys sample_tree ["in"] ["out"] 90).
  - apply glob_keys_spec.
  - apply fresh_run_check_sound. vm_compute. reflexivity.
Defined.

(** ** Running the converter again *)

Lemma mkdir_parents_rev_existing (rp : path) (s : state) :
  fs s !! rev rp = Some Dir → mkdir_parents_rev rp s = (Return tt, s).
Proof.
  intros Hp. destruct rp as [|x rp]; simpl in *;
    unfold try_except, os_mkdir; rewrite Hp; run_m; unfold is_dir;
    by rewrite Hp.
Qed.

(** [mkdir(parents=True, exist_ok=True)] of a directory that exists does
    nothing. *)
Lemma mkdir_parents_existing (p : path) (s : state) :
  fs s !! p = Some Dir → mkdir_parents p s = (Return tt, s).
Proof.
  intros Hp. apply mkdir_parents_rev_existing. by rewrite rev_involutive.
Qed.

Lemma conv_transcode_returns `{Codec} (p dest : path) (s : state) :
  (Converter.transcode p dest s).1 = Return tt.
Proof.
  pose proof (conv_transcode_raises (λ _, False) p dest s) as Hr.
  destruct (Converter.transcode p dest s) as [[[]|e] s']; [done |].
  by destruct (Hr e).
Qed.

Lemma conv_output_below `{Codec} σ0 (inp out rel : path) :
  rel ≠ [] →
  conv_output σ0 inp out (out ++ rel)
  = match σ0 !! (inp ++ rel) with
    | Some Dir => Some Dir
    | Some (File data) =>
        if is_jpeg_name (inp ++ rel)
        then File <$> encoded Converter.options data
        else None
    | None => None
    end.
Proof.
  intros Hrel. unfold conv_output.
  rewrite bool_decide_eq_false_2 by (by apply not_prefix_longer).
  by rewrite relative_to_app.
Qed.

Lemma conv_output_dir `{Codec} σ0 (inp out rel : path) :
  rel = [] ∨ σ0 !! (inp ++ rel) = Some Dir →
  conv_output σ0 inp out (out ++ rel) = Some Dir.
Proof.
  intros Hrel. destruct (decide (rel = [])) as [-> | Hne].
  - unfold conv_output. rewrite app_nil_r. by rewrite bool_decide_eq_true_2.
  - rewrite conv_output_below by done. destruct Hrel as [? | ->]; done.
Qed.

Section Again.
Context `{Codec}.
Variables (σ0 σ1 : gmap path node) (inp out : path).
Hypothesis Hwf0 : wf σ0.
Hypothesis Hin : ∀ rel : path, σ1 !! (inp ++ rel) = σ0 !! (inp ++ rel).
Hypothesis Hout : ∀ q : path, σ1 !! q = conv_output σ0 inp out q.

Lemma conv_step_again (s : state) (rel : path) :
  fs s = σ1 → rel ≠ [] → is_Some (σ0 !! (inp ++ rel)) →
  ∃ s', Converter.process_entry inp out (inp ++ rel) s = (Return tt, s') ∧
        fs s' = σ1.
Proof.
  intros Hs Hrel [n Hn].
  unfold Converter.process_entry, path_relative_to.
  rewrite relative_to_app. run_m. unfold is_dir. rewrite Hs, Hin, Hn.
  destruct n as [|data].
  - rewrite mkdir_parents_existing; [by exists s |].
    rewrite Hs, Hout. apply conv_output_dir. by right.
  - destruct (is_jpeg_name (inp ++ rel)) eqn:Hj; simpl;
      [| by eexists].
    rewrite parent_app by done.
    rewrite mkdir_parents_existing.
    2: { rewrite Hs, Hout. apply conv_output_dir. right.
         apply parent_in_tree; eauto. }
    pose proof (conv_transcode_returns (inp ++ rel) (out ++ rel) s) as Hret.
    pose proof (conv_transcode_dest (inp ++ rel) (out ++ rel) data s) as Hd.
    destruct (Converter.transcode (inp ++ rel) (out ++ rel) s) as [r s'].
    simpl in *. subst r. exists s'. split; [done |].
    assert (Hdest : σ1 !! (out ++ rel)
                    = File <$> encoded Converter.options data).
    { by rewrite Hout, conv_output_below, Hn, Hj. }
    rewrite Hs, Hin, Hn in Hd. specialize (Hd eq_refl).
    destruct (encoded Converter.options data) as [d|]; simpl in Hdest.
    + rewrite Hd.
      * by apply insert_id.
      * unfold open_for_writing. by rewrite Hdest.
    + by apply Hd.
Qed.

Lemma conv_loop_again (l : list path) (s : state) :
  fs s = σ1 → entries_ok σ0 inp l →
  ∃ s', for_each l (Converter.process_entry inp out) s = (Return tt, s') ∧
        fs s' = σ1.
Proof.
  revert s. induction l as [|p l IH]; intros s Hs Hl; [by exists s |].
  apply entries_ok_cons in Hl as [(rel & Hrel & -> & Hp) Hl].
  destruct (conv_step_again s rel Hs Hrel Hp) as (s1 & Hrun1 & Hs1).
  destruct (IH s1 Hs1 Hl) as (s2 & Hrun2 & Hs2).
  exists s2. cbn [for_each]. unfold bind. by rewrite Hrun1, Hrun2.
Qed.
End Again.

(** X15.  Running the converter a second time over the same input tree into
    the output tree the first run has made changes nothing on the file
    system: every directory is there, each file that was written is
    written again with the same bytes, and a file that could not be
    converted is left out again. *)
Theorem X15_converter_second_run `{Codec} (W : Walk) σ0 (inp out : path) :
  walk_spec W → fresh_run σ0 inp out → is_Some (σ0 !! inp) →
  ∃ s1 s2,
    Converter.process_jpeg_files inp out (init σ0) = (Return tt, s1) ∧
    Converter.process_jpeg_files inp out s1 = (Return tt, s2) ∧
    fs s2 = fs s1.
Proof.
  intros HW Hfresh Hinp.
  destruct (conv_run_exact W σ0 inp out HW Hfresh (init σ0) eq_refl Hinp)
    as (s1 & Hrun1 & HI & Hfs).
  exists s1.
  assert (Hin : ∀ rel : path, fs s1 !! (inp ++ rel) = σ0 !! (inp ++ rel))
    by apply HI.
  destruct (conv_loop_again σ0 (fs s1) inp out (fr_wf _ _ _ Hfresh) Hin Hfs
              (glob_all (fs s1) inp) s1 eq_refl) as (s2 & Hrun2 & Hs2).
  { intros p [Hp (rel & Hrel & ->)]%(HW _ _ (inv_wf _ _ _ _ HI)).
    exists rel. rewrite <- Hin. done. }
  exists s2. split; [done |]. split; [| done].
  unfold Converter.process_jpeg_files. run_m. unfold exists_.
  specialize (Hin []). rewrite app_nil_r in Hin. destruct Hinp as [n Hn].
  rewrite Hin, Hn. simpl.
  rewrite mkdir_parents_existing by apply HI. simpl. done.
Qed.

Lemma X15_converter_second_run_witness :
  ∃ s1 s2,
    @Converter.process_jpeg_files toy_codec glob_keys ["in"] ["out"]
      (init sample_tree) = (Return tt, s1) ∧
    @Converter.process_jpeg_files toy_codec glob_keys ["in"] ["out"] s1
      = (Return tt, s2) ∧
    fs s2 = fs s1.
Proof.
  apply (@X15_converter_second_run toy_codec glob_keys sample_tree ["in"] ["out"]).
  - apply glob_keys_spec.
  - apply fresh_run_check_sound. vm_compute. reflexivity.
  - vm_compute. eauto.
Defined.

(** ** The records of the files written *)

Lemma conv_records_saved `{Codec} σ0 (inp out p q : path) :
  rec INFO (Saved_as_jpeg q) ∈ conv_records σ0 inp out p ↔
  q = mirror inp out p ∧
  ∃ data d, σ0 !! p = Some (File data) ∧ is_jpeg_name p = true ∧
            encoded Converter.options data = Some d.
Proof.
  unfold conv_records, encoded, conv_error_records, rec.
  destruct (σ0 !! p) as [[|data]|]; [set_solver | | set_solver].
  destruct (is_jpeg_name p); simpl; [| set_unfold; naive_solver].
  destruct (pil_open data) as [e | i] eqn:Ho.
  { split.
    - destruct e; set_unfold; naive_solver.
    - intros (_ & data' & d & [= <-] & _ & Henc). by rewrite Ho in Henc. }
  destruct (pil_save i Converter.options) as [d | e | e partial] eqn:Hsv.
  - split.
    + set_unfold. intros [[=] | [[= ->] | []]]. split; [done |].
      exists data, d. by rewrite Ho, Hsv.
    + intros (-> & _). set_unfold. auto.
  - split.
    + destruct e; set_unfold; naive_solver.
    + intros (_ & data' & d & [= <-] & _ & Henc). by rewrite Ho, Hsv in Henc.
  - split.
    + destruct e; set_unfold; naive_solver.
    + intros (_ & data' & d & [= <-] & _ & Henc). by rewrite Ho, Hsv in Henc.
Qed.

Lemma comp_records_compressed `{Codec} σ0 (inp out p p' o : path) (quality : Z)
    (a b : nat) :
  rec INFO (Compressed p' o a b) ∈ comp_records σ0 inp out quality p ↔
  p' = p ∧ o = mirror inp out p ∧
  ∃ data d, σ0 !! p = Some (File data) ∧ is_jpeg_name p = true ∧
            encoded (Compressor.options quality) data = Some d ∧
            a = length data ∧ b = length d ∧ a ≠ 0.
Proof.
  unfold comp_records, encoded, rec.
  destruct (σ0 !! p) as [[|data]|]; [set_unfold; naive_solver | | set_solver].
  destruct (is_jpeg_name p); simpl; [| set_unfold; naive_solver].
  destruct (pil_open data) as [e | i] eqn:Ho.
  { split; [set_unfold; naive_solver |].
    intros (_ & _ & data' & d & [= <-] & _ & Henc & _). by rewrite Ho in Henc. }
  destruct (pil_save i (Compressor.options quality)) as [d | e | e partial]
    eqn:Hsv.
  - destruct (length data =? 0)%nat eqn:E.
    + apply Nat.eqb_eq in E. split; [set_unfold; naive_solver |].
      intros (_ & _ & data' & d' & [= <-] & _ & _ & -> & _ & Hne). done.
    + apply Nat.eqb_neq in E. split.
      * set_unfold. intros [[= -> -> -> ->] | []]. split_and!; [done.. |].
        exists data, d. by rewrite Ho, Hsv.
      * intros (-> & -> & data' & d' & [= <-] & _ & Henc & -> & -> & _).
        rewrite Ho, Hsv in Henc. injection Henc as <-. set_unfold. auto.
  - split; [set_unfold; naive_solver |].
    intros (_ & _ & data' & d & [= <-] & _ & Henc & _).
    by rewrite Ho, Hsv in Henc.
  - split; [set_unfold; naive_solver |].
    intros (_ & _ & data' & d & [= <-] & _ & Henc & _).
    by rewrite Ho, Hsv in Henc.
Qed.

(** X16.  In the log of a run of the converter into a fresh output root, the
    records of line 100 and the regular files under the output root
    correspond one to one: a path is recorded as saved exactly when the run
    has left a regular file there. *)
Theorem X16_converter_saved_records `{Codec} (W : Walk) σ0 (inp out : path) :
  walk_spec W → fresh_run σ0 inp out → is_Some (σ0 !! inp) →
  ∃ s', Converter.process_jpeg_files inp out (init σ0) = (Return tt, s') ∧
        ∀ q : path,
          rec INFO (Saved_as_jpeg q) ∈ log s' ↔
          out `prefix_of` q ∧ is_file (fs s') q = true.
Proof.
  intros HW Hfresh Hinp.
  destruct (conv_run W σ0 inp out HW Hfresh (init σ0) eq_refl Hinp)
    as (s' & l & Hrun & [_ Hl] & HI & Hlog & _).
  destruct (conv_run_exact W σ0 inp out HW Hfresh (init σ0) eq_refl Hinp)
    as (s'' & Hrun' & _ & Hfs).
  rewrite Hrun in Hrun'. injection Hrun' as <-.
  exists s'. split; [done |]. intros q.
  rewrite Hlog. simpl. rewrite elem_of_concat_map. split.
  - intros (p & [Hp (rel & Hrel & ->)]%Hl & Hr).
    apply conv_records_saved in Hr as (-> & data & d & Hdata & Hj & Henc).
    rewrite mirror_app. split; [by apply prefix_app_r |].
    unfold is_file. by rewrite Hfs, conv_output_below, Hdata, Hj, Henc.
  - intros [[rel ->] Hf].
    assert (Hrel : rel ≠ []).
    { intros ->. unfold is_file in Hf.
      rewrite app_nil_r, (inv_root _ _ _ _ HI) in Hf. done. }
    unfold is_file in Hf. rewrite Hfs, conv_output_below in Hf by done.
    destruct (σ0 !! (inp ++ rel)) as [[|data]|] eqn:Hdata; try done.
    destruct (is_jpeg_name (inp ++ rel)) eqn:Hj; [| done].
    destruct (encoded Converter.options data) as [d|] eqn:Henc; [| done].
    exists (inp ++ rel). split.
    + apply Hl. rewrite Hdata. eauto.
    + apply conv_records_saved. rewrite mirror_app. eauto 10.
Qed.

Lemma X16_converter_saved_records_witness :
  ∃ s', @Converter.process_jpeg_files toy_codec glob_keys ["in"] ["out"]
          (init sample_tree) = (Return tt, s') ∧
        ∀ q : path,
          rec INFO (Saved_as_jpeg q) ∈ log s' ↔
          ["out"] `prefix_of` q ∧ is_file (fs s') q = true.
Proof.
  apply (@X16_converter_saved_records toy_codec glob_keys sample_tree
           ["in"] ["out"]).
  - apply glob_keys_spec.
  - apply fresh_run_check_sound. vm_compute. reflexivity.
  - vm_compute. eauto.
Defined.

(** X17.  In the log of a run of the compressor into a fresh output root, a
    record of line 71 names a source, a destination and two sizes exactly
    when the source is a non-empty JPEG-named file of the input tree, the
    destination is its mirror, where the run has left a regular file, and
    the sizes are those of the two files. *)
Theorem X17_compressor_size_records `{Codec} (W : Walk) σ0 (inp out : path)
    (quality : Z) :
  walk_spec W → fresh_run σ0 inp out →
  ∃ s', Compressor.compress_jpeg inp out quality (init σ0) = (Return tt, s') ∧
        ∀ (p o : path) (a b : nat),
          rec INFO (Compressed p o a b) ∈ log s' ↔
          ∃ (rel : path) (data d : content),
            p = inp ++ rel ∧ o = out ++ rel ∧
            σ0 !! p = Some (File data) ∧ fs s' !! o = Some (File d) ∧
            a = length data ∧ b = length d ∧ a ≠ 0.
Proof.
  intros HW Hfresh.
  destruct (comp_run W σ0 inp out HW Hfresh (init σ0) quality eq_refl)
    as (s' & l & Hrun & [_ Hl] & HI & _ & Hlog & _).
  destruct (comp_run_files W σ0 inp out HW Hfresh (init σ0) quality eq_refl)
    as (s'' & Hrun' & _ & Hfs).
  rewrite Hrun in Hrun'. injection Hrun' as <-.
  exists s'. split; [done |]. intros p o a b.
  rewrite Hlog. simpl. rewrite elem_of_concat_map. split.
  - intros (p' & [Hp (rel & Hrel & ->)]%Hl & Hr).
    apply comp_records_compressed in Hr
      as (-> & -> & data & d & Hdata & Hj & Henc & -> & -> & Hne).
    exists rel, data, d. rewrite mirror_app. split_and!; try done.
    apply Hfs. split; [done |]. unfold comp_file. by rewrite Hdata, Hj.
  - intros (rel & data & d & -> & -> & Hdata & [Hrel Hc]%Hfs & -> & -> & Hne).
    unfold comp_file in Hc. rewrite Hdata in Hc.
    destruct (is_jpeg_name (inp ++ rel)) eqn:Hj; [| done].
    exists (inp ++ rel). split.
    + apply Hl. rewrite Hdata. eauto.
    + apply comp_records_compressed. rewrite mirror_app.
      split_and!; try done. eauto 10.
Qed.

Lemma X17_compressor_size_records_witness :
  ∃ s', @Compressor.compress_jpeg toy_codec glob_keys ["in"] ["out"] 90
          (init sample_tree) = (Return tt, s') ∧
        ∀ (p o : path) (a b : nat),
          rec INFO (Compressed p o a b) ∈ log s' ↔
          ∃ (rel : path) (data d : content),
            p = ["in"] ++ rel ∧ o = ["out"] ++ rel ∧
            sample_tree !! p = Some (File data) ∧
            fs s' !! o = Some (File d) ∧
            a = length data ∧ b = length d ∧ a ≠ 0.
Proof.
  apply (@X17_compressor_size_records toy_codec glob_keys sample_tree
           ["in"] ["out"] 90).
  - apply glob_keys_spec.
  - apply fresh_run_check_sound. vm_compute. reflexivity.
Defined.

(** ** The two [main] functions of the batch scripts *)

#[export] Instance log_grows_preorder : PreOrder log_grows.
Proof.
  split.
  - intros s. unfold log_grows. done.
  - intros s1 s2 s3 L12 L23. unfold log_grows in *. by etrans.
Qed.

Lemma preserves_query {A} (R : state → state → Prop) `{!Reflexive R}
    (f : state → A) :
  preserves R (λ s, (Return (f s), s)).
Proof. intros s. simpl. reflexivity. Qed.

Lemma preserves_same_log {A} (m : M A) :
  (∀ s, log (m s).2 = log s) → preserves log_grows m.
Proof. intros Hm s. unfold log_grows. by rewrite Hm. Qed.

Lemma emit_log_grows (r : log_record) : preserves log_grows (emit r).
Proof. intros s. by apply prefix_app_r. Qed.

Lemma mkdir_parents_log_grows (p : path) : preserves log_grows (mkdir_parents p).
Proof.
  apply preserves_same_log. intros s.
  destruct (mkdir_parents p s) as [r s'] eqn:Hrun.
  by apply mkdir_parents_effect in Hrun as (? & _).
Qed.

Lemma image_open_log_grows `{Codec} (p : path) : preserves log_grows (image_open p).
Proof.
  apply preserves_same_log. intros s. unfold image_open.
  destruct (fs s !! p) as [[|data]|]; try done. by destruct (pil_open data).
Qed.

Lemma stat_size_log_grows (p : path) : preserves log_grows (stat_size p).
Proof.
  apply preserves_same_log. intros s. unfold stat_size.
  by destruct (fs s !! p) as [[|data]|].
Qed.

Lemma image_save_log_grows `{Codec} (img : opened_image) (dest : path)
    (opts : save_options) :
  preserves log_grows (image_save img dest opts).
Proof.
  apply preserves_same_log. intros s. unfold image_save.
  set (s1 := if pil_save_closes (im img) opts then close_file (fp img) s else s).
  assert (Hs1 : log s1 = log s)
    by (subst s1; by destruct (pil_save_closes _ _)).
  clearbody s1.
  destruct (pil_save (im img) opts); [| done |];
    destruct (open_for_writing (fs s1) dest); try done.
  by destruct (exists_ (fs s1) dest).
Qed.

Lemma conv_transcode_log_grows `{Codec} (p dest : path) :
  preserves log_grows (Converter.transcode p dest).
Proof.
  apply preserves_try_except; [apply _ | |].
  - unfold Converter.try_body.
    apply preserves_bind; [apply _ | apply image_open_log_grows |]. intros img.
    apply preserves_bind; [apply _ | apply emit_log_grows |]. intros _.
    apply preserves_bind; [apply _ | apply image_save_log_grows |]. intros _.
    apply emit_log_grows.
  - intros e. destruct e;
      (apply preserves_bind; [apply _ | apply emit_log_grows |]; intros _;
       apply emit_log_grows).
Qed.

Lemma comp_transcode_log_grows `{Codec} (p dest : path) (quality : Z) :
  preserves log_grows (Compressor.transcode p dest quality).
Proof.
  apply preserves_try_except; [apply _ | |].
  - unfold Compressor.try_body.
    apply preserves_bind; [apply _ | apply stat_size_log_grows |]. intros n.
    unfold with_image_open.
    apply preserves_bind; [apply _ | apply image_open_log_grows |].
    intros img s.
    assert (Hb : preserves log_grows
              (image_save img dest (Compressor.options quality) ;;
               compressed_size <- stat_size dest ;;
               if (n =? 0)%nat then raise ZeroDivisionError
               else info (Compressed p dest n compressed_size))).
    { apply preserves_bind; [apply _ | apply image_save_log_grows |].
      intros _. apply preserves_bind; [apply _ | apply stat_size_log_grows |].
      intros m. destruct (n =? 0)%nat;
        [apply preserves_raise; apply _ | apply emit_log_grows]. }
    specialize (Hb s).
    match goal with |- context [let '(r, s') := ?b in _] =>
      destruct b as [r s'] end.
    done.
  - intros e. apply emit_log_grows.
Qed.

Lemma conv_entry_log_grows `{Codec} (inp out file_path : path) :
  preserves log_grows (Converter.process_entry inp out file_path).
Proof.
  unfold Converter.process_entry, path_relative_to.
  destruct (relative_to file_path inp) as [rel|];
    [| intros s; simpl; reflexivity].
  apply preserves_bind_ret.
  apply preserves_bind; [apply _ | apply preserves_query; apply _ |].
  intros [|]; [apply mkdir_parents_log_grows |].
  destruct (is_jpeg_name file_path); simpl; [| apply emit_log_grows].
  apply preserves_bind; [apply _ | apply mkdir_parents_log_grows |].
  intros _. apply conv_transcode_log_grows.
Qed.

Lemma comp_entry_log_grows `{Codec} (inp out file_path : path) (quality : Z) :
  preserves log_grows (Compressor.process_entry inp out quality file_path).
Proof.
  unfold Compressor.process_entry.
  apply preserves_bind; [apply _ | apply preserves_query; apply _ |].
  intros [|]; [apply emit_log_grows |].
  unfold path_relative_to.
  destruct (relative_to file_path inp) as [rel|];
    [| intros s; simpl; reflexivity].
  apply preserves_bind_ret.
  apply preserves_bind; [apply _ | apply mkdir_parents_log_grows |]. intros _.
  destruct (is_jpeg_name file_path); simpl; [| apply emit_log_grows].
  apply comp_transcode_log_grows.
Qed.

Lemma conv_batch_log_grows `{Codec} `{Walk} (inp out : path) :
  preserves log_grows (Converter.process_jpeg_files inp out).
Proof.
  unfold Converter.process_jpeg_files.
  apply preserves_bind; [apply _ | apply preserves_query; apply _ |].
  intros [|]; simpl; [| apply preserves_raise; apply _].
  apply preserves_bind; [apply _ | apply mkdir_parents_log_grows |]. intros _.
  apply preserves_bind; [apply _ | apply preserves_query; apply _ |].
  intros l. apply preserves_for_each; [apply _ |].
  intros p _. apply conv_entry_log_grows.
Qed.

Lemma comp_batch_log_grows `{Codec} `{Walk} (inp out : path) (quality : Z) :
  preserves log_grows (Compressor.compress_jpeg inp out quality).
Proof.
  unfold Compressor.compress_jpeg.
  apply preserves_bind; [apply _ | apply mkdir_parents_log_grows |]. intros _.
  apply preserves_bind; [apply _ | apply preserves_query; apply _ |].
  intros l. apply preserves_for_each; [apply _ |].
  intros p _. apply comp_entry_log_grows.
Qed.

(** A [main] is its batch function between records: what the records and the
    batch function preserve, [main] preserves. *)
Lemma conv_main_preserves `{Codec} `{Walk} (R : state → state → Prop)
    `{!PreOrder R} (inp out : path) :
  (∀ r, preserves R (emit r)) →
  preserves R (Converter.process_jpeg_files inp out) →
  preserves R (Converter.main inp out).
Proof.
  intros He Hb. unfold Converter.main.
  apply preserves_bind; [apply _ | apply He |]. intros _.
  apply preserves_bind; [apply _ | apply He |]. intros _.
  apply preserves_bind; [apply _ | apply He |]. intros _.
  apply preserves_bind; [apply _ | apply Hb |]. intros _.
  apply He.
Qed.

Lemma comp_main_preserves `{Codec} `{Walk} (R : state → state → Prop)
    `{!PreOrder R} (module_dir : path) (datetime_str : string)
    (input_directory : path) (quality : Z) (answer : string) :
  (∀ r, preserves R (emit r)) →
  preserves R (Compressor.compress_jpeg input_directory
                 (Compressor.output_root module_dir datetime_str
                    input_directory quality) quality) →
  preserves R (Compressor.main module_dir datetime_str input_directory
                 quality answer).
Proof.
  intros He Hb. unfold Compressor.main. cbv zeta.
  apply preserves_bind; [apply _ | apply preserves_query; apply _ |].
  intros [|]; simpl; [| apply He].
  apply preserves_bind; [apply _ | apply preserves_query; apply _ |].
  intros [|]; simpl; [apply He |].
  apply preserves_bind; [apply _ | apply He |]. intros _.
  apply preserves_bind; [apply _ | apply He |]. intros _.
  apply preserves_bind; [apply _ | apply He |]. intros _.
  destruct (negb (String.eqb (lower answer) "y")); [apply He |].
  apply preserves_bind; [apply _ | apply Hb |]. intros _.
  apply He.
Qed.

(** X18.  [main] of the compressor, for every input directory, quality and
    answer, on every file system: it changes the file system only as
    [compress_jpeg] may, with the generated output root as the root (no
    entry removed, no directory replaced, directories made only on the way
    to paths under that root, files written only at mirrors of JPEG-named
    paths); it leaves no file open that was not open; it only appends to
    the log; and no exception leaves it but those of [mkdir] and
    [relative_to]. *)
Theorem X18_compressor_main_frame `{Codec} `{Walk} (module_dir : path)
    (datetime_str : string) (input_directory : path) (quality : Z)
    (answer : string) :
  let out := Compressor.output_root module_dir datetime_str input_directory
               quality in
  let main := Compressor.main module_dir datetime_str input_directory quality
                answer in
  preserves (touches out (jpeg_target input_directory out)) main ∧
  preserves no_new_handle main ∧
  preserves log_grows main ∧
  raises_only batch_error main.
Proof.
  cbv zeta. split_and!.
  - apply comp_main_preserves;
      [apply _ | apply emit_touches | apply comp_batch_touches].
  - apply comp_main_preserves;
      [apply _ | apply emit_handles | apply comp_batch_handles].
  - apply comp_main_preserves;
      [apply _ | apply emit_log_grows | apply comp_batch_log_grows].
  - unfold Compressor.main. cbv zeta.
    apply raises_only_bind; [done |]. intros [|]; simpl; [| done].
    apply raises_only_bind; [done |]. intros [|]; simpl; [done |].
    apply raises_only_bind; [done |]. intros _.
    apply raises_only_bind; [done |]. intros _.
    apply raises_only_bind; [done |]. intros _.
    destruct (negb (String.eqb (lower answer) "y")); [done |].
    apply raises_only_bind; [apply comp_batch_raises | done].
Qed.

(** X19.  [main] of the converter, on every file system: it changes the file
    system only as [process_jpeg_files] may; it only appends to the log; and
    no exception leaves it but those of [mkdir] and [relative_to]. *)
Theorem X19_converter_main_frame `{Codec} `{Walk} (inp out : path) :
  preserves (touches out (jpeg_target inp out)) (Converter.main inp out) ∧
  preserves log_grows (Converter.main inp out) ∧
  raises_only batch_error (Converter.main inp out).
Proof.
  split_and!.
  - apply conv_main_preserves;
      [apply _ | apply emit_touches | apply conv_batch_touches].
  - apply conv_main_preserves;
      [apply _ | apply emit_log_grows | apply conv_batch_log_grows].
  - unfold Converter.main.
    apply raises_only_bind; [done |]. intros _.
    apply raises_only_bind; [done |]. intros _.
    apply raises_only_bind; [done |]. intros _.
    apply raises_only_bind; [apply conv_batch_raises | done].
Qed.

(** ** The names of the files written *)

Lemma name_app (a rel : path) : rel ≠ [] → name (a ++ rel) = name rel.
Proof.
  intros Hrel. unfold name. rewrite last_app.
  destruct (last rel) eqn:E; [done |]. by apply last_None in E.
Qed.

Lemma is_jpeg_name_mirror (inp out rel : path) :
  rel ≠ [] → is_jpeg_name (out ++ rel) = is_jpeg_name (inp ++ rel).
Proof. intros Hrel. unfold is_jpeg_name. by rewrite !name_app. Qed.


Lemma inv_output_names σ0 (inp out : path) σ (l : list path) :
  mirror_inv σ0 inp out σ →
  (∀ q, q ∈ l → out `prefix_of` q) →
  Forall (λ q, is_file σ q = true → is_jpeg_name q = true) l ∧
  Counter.select_jpeg σ l = filter (λ q, is_file σ q) l.
Proof.
  intros HI Hl.
  assert (Hn : ∀ q, q ∈ l → is_file σ q = true → is_jpeg_name q = true).
  { intros q [rel ->]%Hl [c Hc]%is_file_true.
    assert (rel ≠ []).
    { intros ->. rewrite app_nil_r, (inv_root _ _ _ _ HI) in Hc. done. }
    rewrite (is_jpeg_name_mirror inp) by done.
    by apply (inv_file _ _ _ _ HI) in Hc as [_ ?]. }
  split; [by apply Forall_forall |].
  unfold Counter.select_jpeg. apply filter_ext_in. intros q Hq.
  rewrite andb_True, !Is_true_true. specialize (Hn q Hq). tauto.
Qed.

(** X20.  After a run of either batch function into a fresh output root,
    every regular file under the output root has a JPEG name, so the
    selection of the auditor (lines 46-49) keeps every regular file of any
    listing of the output tree: the auditor counts all the files a batch
    has written. *)
Theorem X20_auditor_sees_every_output `{Codec} (W : Walk) σ0 (inp out : path)
    (quality : Z) (l : list path) :
  walk_spec W → fresh_run σ0 inp out → is_Some (σ0 !! inp) →
  (∀ q, q ∈ l → out `prefix_of` q) →
  (∃ s', Converter.process_jpeg_files inp out (init σ0) = (Return tt, s') ∧
         Forall (λ q, is_file (fs s') q = true → is_jpeg_name q = true) l ∧
         Counter.select_jpeg (fs s') l = filter (λ q, is_file (fs s') q) l) ∧
  (∃ s', Compressor.compress_jpeg inp out quality (init σ0) = (Return tt, s') ∧
         Forall (λ q, is_file (fs s') q = true → is_jpeg_name q = true) l ∧
         Counter.select_jpeg (fs s') l = filter (λ q, is_file (fs s') q) l).
Proof.
  intros HW Hfresh Hinp Hl. split.
  - destruct (conv_run W σ0 inp out HW Hfresh (init σ0) eq_refl Hinp)
      as (s' & _ & Hrun & _ & HI & _).
    exists s'. split; [done |]. by eapply inv_output_names.
  - destruct (comp_run W σ0 inp out HW Hfresh (init σ0) quality eq_refl)
      as (s' & _ & Hrun & _ & HI & _).
    exists s'. split; [done |]. by eapply inv_output_names.
Qed.

Lemma X20_auditor_sees_every_output_witness :
  (∃ s', @Converter.process_jpeg_files toy_codec glob_keys ["in"] ["out"]
           (init sample_tree) = (Return tt, s') ∧
         Forall (λ q, is_file (fs s') q = true → is_jpeg_name q = true)
           [["out"; "a"; "x.jpg"]; ["out"; "a"; "note.txt"]] ∧
         Counter.select_jpeg (fs s')
           [["out"; "a"; "x.jpg"]; ["out"; "a"; "note.txt"]]
         = filter (λ q, is_file (fs s') q)
             [["out"; "a"; "x.jpg"]; ["out"; "a"; "note.txt"]]) ∧
  (∃ s', @Compressor.compress_jpeg toy_codec glob_keys ["in"] ["out"] 90
           (init sample_tree) = (Return tt, s') ∧
         Forall (λ q, is_file (fs s') q = true → is_jpeg_name q = true)
           [["out"; "a"; "x.jpg"]; ["out"; "a"; "note.txt"]] ∧
         Counter.select_jpeg (fs s')
           [["out"; "a"; "x.jpg"]; ["out"; "a"; "note.txt"]]
         = filter (λ q, is_file (fs s') q)
             [["out"; "a"; "x.jpg"]; ["out"; "a"; "note.txt"]]).
Proof.
  apply (@X20_auditor_sees_every_output toy_codec glob_keys sample_tree
           ["in"] ["out"] 90).
  - apply glob_keys_spec.
  - apply fresh_run_check_sound. vm_compute. reflexivity.
  - vm_compute. eauto.
  - intros q Hq. apply elem_of_cons in Hq as [-> | Hq].
    + by exists ["a"; "x.jpg"].
    + apply list_elem_of_singleton in Hq as ->. by exists ["a"; "note.txt"].
Defined.

(** ** [mkdir] where it succeeds *)

Lemma creatable_check_sound σ (p : path) :
  creatable_check σ p = true → creatable σ p.
Proof.
  unfold creatable_check. rewrite forallb_forall. intros Hcre q Hq.
  apply negb_true_iff.
  assert (q = take (length q) p) as ->.
  { destruct Hq as [k ->]. by rewrite take_app_length. }
  apply Hcre. apply in_seq. apply prefix_length in Hq. lia.
Qed.

(** X21.  On a file system where every entry lies in a directory and no
    regular file lies on the way to [p], [mkdir(parents=True,
    exist_ok=True)] of [p] returns; afterwards [p] and every path above it
    is a directory and every other path is as it was; every entry still
    lies in a directory; nothing but the file system has changed; and a
    second call returns without changing anything. *)
Theorem X21_mkdir_parents_makes_path (p : path) (s : state) :
  wf (fs s) → creatable (fs s) p →
  ∃ σ', mkdir_parents p s = (Return tt, set_fs σ' s) ∧
        wf σ' ∧
        (∀ q : path, σ' !! q = if decide (q `prefix_of` p) then Some Dir
                               else fs s !! q) ∧
        mkdir_parents p (set_fs σ' s) = (Return tt, set_fs σ' s).
Proof.
  intros Hwf Hcre.
  destruct (mkdir_parents_ok p s Hwf Hcre) as (σ' & Hrun & Hwf' & Hσ').
  exists σ'. split_and!; try done.
  apply mkdir_parents_existing. simpl. by rewrite Hσ', decide_True.
Qed.

Lemma X21_mkdir_parents_makes_path_witness :
  ∃ σ', mkdir_parents ["out"; "a"; "b"] (init sample_tree)
        = (Return tt, set_fs σ' (init sample_tree)) ∧
        wf σ' ∧
        (∀ q : path, σ' !! q = if decide (q `prefix_of` ["out"; "a"; "b"])
                               then Some Dir
                               else fs (init sample_tree) !! q) ∧
        mkdir_parents ["out"; "a"; "b"] (set_fs σ' (init sample_tree))
        = (Return tt, set_fs σ' (init sample_tree)).
Proof.
  apply X21_mkdir_parents_makes_path.
  - apply wf_check_sound. vm_compute. reflexivity.
  - apply creatable_check_sound. vm_compute. reflexivity.
Defined.

(** ** Relative paths and destinations *)

(** X22.  [relative_to] inverts joining: it returns [rel] exactly for the
    paths [root / rel], and raises exactly for the paths that do not begin
    with [root]. *)
Theorem X22_relative_to_inverts_join (p root rel : path) :
  (relative_to p root = Some rel ↔ p = root ++ rel) ∧
  (relative_to p root = None ↔ ¬ root `prefix_of` p).
Proof.
  split; split.
  - apply relative_to_Some.
  - intros ->. apply relative_to_app.
  - apply relative_to_None.
  - intros Hn. destruct (relative_to p root) as [r|] eqn:E; [| done].
    apply relative_to_Some in E as ->. destruct Hn. by apply prefix_app_r.
Qed.

(** X23.  Two different entries below the input root never have the same
    destination: the mirror of a path is one-to-one on the input tree, so no
    output file of a run is written for two sources. *)
Theorem X23_destinations_distinct (inp out p p' : path) :
  inp `prefix_of` p → inp `prefix_of` p' →
  mirror inp out p = mirror inp out p' → p = p'.
Proof.
  intros [rel ->] [rel' ->]. rewrite !mirror_app.
  by intros ->%app_inv_head.
Qed.

Lemma X23_destinations_distinct_witness : ["in"; "a"; "x.jpg"] = ["in"; "a"; "x.jpg"].
Proof.
  apply (X23_destinations_distinct ["in"] ["out"]).
  - by exists ["a"; "x.jpg"].
  - by exists ["a"; "x.jpg"].
  - reflexivity.
Defined.

(** ** The generated output root *)

Lemma string_app_inj_l (s a b : string) : s +:+ a = s +:+ b → a = b.
Proof.
  induction s as [|c s IH]; [done |].
  change (String c (s +:+ a) = String c (s +:+ b) → a = b).
  intros [= E]. by apply IH.
Qed.

(** X24.  For one input directory and one time stamp, different qualities
    give different output roots; and the output root lies three levels
    below the directory of the module, in [output/compressed]. *)
Theorem X24_output_root_by_quality (module_dir : path) (datetime_str : string)
    (input_path : path) (q1 q2 : Z) :
  (Compressor.output_root module_dir datetime_str input_path q1
   = Compressor.output_root module_dir datetime_str input_path q2 ↔ q1 = q2) ∧
  parent (Compressor.output_root module_dir datetime_str input_path q1)
  = module_dir ++ ["output"; "compressed"].
Proof.
  unfold Compressor.output_root. split; [split |].
  - intros E%app_inv_head. injection E as E.
    do 4 apply string_app_inj_l in E. by apply pretty_Z_inj in E.
  - by intros ->.
  - rewrite parent_app by done. done.
Qed.

(** ** The handle of one entry of the converter *)

Lemma image_save_handles `{Codec} (img : opened_image) (dest : path)
    (opts : save_options) (s : state) :
  open_files (image_save img dest opts s).2
  = open_files (if pil_save_closes (im img) opts
                then close_file (fp img) s else s).
Proof.
  unfold image_save.
  set (s1 := if pil_save_closes (im img) opts then close_file (fp img) s else s).
  clearbody s1.
  destruct (pil_save (im img) opts); [| done |];
    destruct (open_for_writing (fs s1) dest); try done.
  by destruct (exists_ (fs s1) dest).
Qed.

(** X25.  The source of one entry after the [try] statement of the converter:
    a file that was not open is open afterwards exactly when [Image.open]
    has recognised it and [save] has not closed it, whether the statement
    has saved the file or logged a failure; every other handle is as it
    was. *)
Theorem X25_converter_entry_handle `{Codec} (p dest : path) (data : content)
    (s : state) (x : path) :
  fs s !! p = Some (File data) → p ∉ open_files s →
  x ∈ open_files (Converter.transcode p dest s).2 ↔
  x ∈ open_files s ∨
  (x = p ∧ match pil_open data with
           | inr i => pil_save_closes i Converter.options = false
           | inl _ => False
           end).
Proof.
  intros Hp Hnew.
  assert (Hof : open_files (Converter.transcode p dest s).2
                = open_files (Converter.try_body p dest s).2).
  { unfold Converter.transcode, try_except.
    destruct (Converter.try_body p dest s) as [[[]|e] s1]; [done |].
    by destruct e. }
  rewrite Hof. clear Hof.
  unfold Converter.try_body. unfold bind at 1. unfold image_open. rewrite Hp.
  destruct (pil_open data) as [e | i]; [simpl; tauto |].
  unfold bind at 1. unfold info at 1, emit at 1. cbv beta iota.
  unfold bind at 1.
  match goal with |- context [image_save ?img ?d ?o ?s0] =>
    pose proof (image_save_handles img d o s0) as Hsv;
    destruct (image_save img d o s0) as [[[]|e] s3] end;
    simpl in Hsv |- *; rewrite Hsv; clear Hsv;
    (destruct (pil_save_closes i Converter.options); simpl;
     [ rewrite list_elem_of_filter, negb_True, bool_decide_spec,
         elem_of_app, list_elem_of_singleton;
       split; [intros [? [? | ?]]; [by left | done] |
               intros [? | [_ [=]]]; split; [congruence | by left]]
     | rewrite elem_of_app, list_elem_of_singleton; tauto ]).
Qed.

Lemma X25_converter_entry_handle_witness :
  ["in"; "t.jpg"] ∈
    open_files (@Converter.transcode toy_codec ["in"; "t.jpg"] ["out"; "t.jpg"]
                  (init cut_tree)).2 ↔
  ["in"; "t.jpg"] ∈ open_files (init cut_tree) ∨
  (["in"; "t.jpg"] = ["in"; "t.jpg"] ∧
   match @pil_open toy_codec cut_bytes with
   | inr i => @pil_save_closes toy_codec i Converter.options = false
   | inl _ => False
   end).
Proof.
  apply (@X25_converter_entry_handle toy_codec).
  - vm_compute. reflexivity.
  - apply not_elem_of_nil.
Defined.

(** ** One record for each entry *)

Lemma Forall2_concat_singletons {A B} (Q : A → B → Prop) (f : A → list B)
    (l : list A) :
  (∀ x, x ∈ l → ∃ y, f x = [y] ∧ Q x y) → Forall2 Q l (concat (map f l)).
Proof.
  induction l as [|a l IH]; intros Hl; simpl; [constructor |].
  destruct (Hl a) as (y & -> & Hy); [left |]. simpl.
  constructor; [done |]. apply IH. intros x Hx. apply Hl. by right.
Qed.

Lemma comp_records_one `{Codec} σ0 (inp out p : path) (quality : Z) :
  is_Some (σ0 !! p) →
  ∃ r, comp_records σ0 inp out quality p = [r] ∧ msg_path (msg r) = Some p ∧
       (is_error r = true → is_file σ0 p = true ∧ is_jpeg_name p = true).
Proof.
  intros [n Hn]. unfold comp_records, is_file. rewrite Hn.
  destruct n as [|data]; [by eexists |].
  destruct (is_jpeg_name p); simpl; [| by eexists].
  destruct (pil_open data) as [e | i]; [by eexists |].
  destruct (pil_save i (Compressor.options quality)); [| by eexists ..].
  destruct (length data =? 0)%nat; by eexists.
Qed.

(** X26.  The log of a run of the compressor into a fresh output root holds
    one record for each entry of the walk, in the order of the walk, and
    the record names its entry: a directory, a file of another extension, a
    file compressed and a file that failed each leave exactly one record,
    and a record at level ERROR is about a JPEG-named regular file. *)
Theorem X26_compressor_one_record_each `{Codec} (W : Walk) σ0 (inp out : path)
    (quality : Z) :
  walk_spec W → fresh_run σ0 inp out →
  ∃ s' l, Compressor.compress_jpeg inp out quality (init σ0) = (Return tt, s') ∧
          is_walk σ0 inp l ∧
          Forall2 (λ p r, msg_path (msg r) = Some p ∧
                          (is_error r = true →
                           is_file σ0 p = true ∧ is_jpeg_name p = true))
                  l (log s').
Proof.
  intros HW Hfresh.
  destruct (comp_run W σ0 inp out HW Hfresh (init σ0) quality eq_refl)
    as (s' & l & Hrun & Hl & _ & _ & Hlog & _).
  exists s', l. split_and!; [done | done |].
  rewrite Hlog. simpl. apply Forall2_concat_singletons.
  intros p [Hp _]%Hl.
  destruct (comp_records_one σ0 inp out p quality Hp) as (r & Hr & Hm & He).
  eauto.
Qed.

Lemma X26_compressor_one_record_each_witness :
  ∃ s' l, @Compressor.compress_jpeg toy_codec glob_keys ["in"] ["out"] 90
            (init sample_tree) = (Return tt, s') ∧
          is_walk sample_tree ["in"] l ∧
          Forall2 (λ p r, msg_path (msg r) = Some p ∧
                          (is_error r = true →
                           is_file sample_tree p = true ∧
                           is_jpeg_name p = true))
                  l (log s').
Proof.
  apply (@X26_compressor_one_record_each toy_codec glob_keys sample_tree
           ["in"] ["out"] 90).
  - apply glob_keys_spec.
  - apply fresh_run_check_sound. vm_compute. reflexivity.
Defined.

Lemma conv_records_file `{Codec} σ0 (inp out p : path) :
  match σ0 !! p with
  | Some (File _) =>
      ∃ r, r ∈ conv_records σ0 inp out p ∧ msg_path (msg r) = Some p
  | _ => conv_records σ0 inp out p = []
  end.
Proof.
  unfold conv_records. destruct (σ0 !! p) as [[|data]|]; [done | | done].
  destruct (is_jpeg_name p); simpl; [| eexists; split; [left | done]].
  destruct (pil_open data) as [e | i].
  - destruct e; eexists; (split; [left | done]).
  - eexists; split; [left | done].
Qed.

(** X27.  In the log of a run of the converter into a fresh output root,
    every regular file below the input root is named by at least one
    record, whatever its extension and whatever the codec does with it, and
    no record names a directory: the converter mirrors a directory without
    a word, and passes over no file in silence. *)
Theorem X27_converter_names_every_file `{Codec} (W : Walk) σ0 (inp out : path) :
  walk_spec W → fresh_run σ0 inp out → is_Some (σ0 !! inp) →
  ∃ s', Converter.process_jpeg_files inp out (init σ0) = (Return tt, s') ∧
        (∀ rel : path, rel ≠ [] → is_file σ0 (inp ++ rel) = true →
           ∃ r, r ∈ log s' ∧ msg_path (msg r) = Some (inp ++ rel)) ∧
        (∀ r p, r ∈ log s' → msg_path (msg r) = Some p → is_file σ0 p = true).
Proof.
  intros HW Hfresh Hinp.
  destruct (conv_run W σ0 inp out HW Hfresh (init σ0) eq_refl Hinp)
    as (s' & l & Hrun & [_ Hl] & _ & Hlog & _).
  exists s'. split; [done |]. rewrite Hlog. simpl. split.
  - intros rel Hrel [c Hc]%is_file_true.
    pose proof (conv_records_file σ0 inp out (inp ++ rel)) as Hr.
    rewrite Hc in Hr. destruct Hr as (r & Hr & Hm).
    exists r. split; [| done]. apply elem_of_concat_map.
    exists (inp ++ rel). split; [| done]. apply Hl. rewrite Hc. eauto.
  - intros r p (p' & Hp' & Hr)%elem_of_concat_map Hm.
    pose proof (records_about σ0 inp out p' 0 r (or_introl Hr)) as [Hm' | Hm'];
      [| congruence].
    assert (p' = p) as -> by congruence.
    pose proof (conv_records_file σ0 inp out p) as Hf. unfold is_file.
    destruct (σ0 !! p) as [[|c]|]; [| done |]; rewrite Hf in Hr;
      by apply elem_of_nil in Hr.
Qed.

Lemma X27_converter_names_every_file_witness :
  ∃ s', @Converter.process_jpeg_files toy_codec glob_keys ["in"] ["out"]
          (init sample_tree) = (Return tt, s') ∧
        (∀ rel : path, rel ≠ [] → is_file sample_tree (["in"] ++ rel) = true →
           ∃ r, r ∈ log s' ∧ msg_path (msg r) = Some (["in"] ++ rel)) ∧
        (∀ r p, r ∈ log s' → msg_path (msg r) = Some p →
                is_file sample_tree p = true).
Proof.
  apply (@X27_converter_names_every_file toy_codec glob_keys sample_tree
           ["in"] ["out"]).
  - apply glob_keys_spec.
  - apply fresh_run_check_sound. vm_compute. reflexivity.
  - vm_compute. eauto.
Defined.
